(** * DBrew prototype (spec.c): code storage, instruction IR, decoder, emulator

    A shallow embedding of [src/spec.c] and the properties of its
    natural-language specification.

    Conventions of the embedding
    - C [int] and [uint64_t] values are [Z]; the wrap-around of unsigned
      arithmetic is written out with [u64] and [u32].
    - [assert], [exit(1)] and reads outside the modelled memory image end
      a computation: every fallible function returns a [result].
    - Objects that C leaves uninitialised (stack locals, [malloc]ed
      instruction slots) are explicit arguments holding arbitrary
      previous contents; a field the code does not write keeps them. *)

From Stdlib Require Import ZArith List Lia Bool.
From stdpp Require Import base option list functions gmap strings.
Import ListNotations.

Local Open Scope Z_scope.

(** ** Results of fallible code *)

Inductive error : Type :=
| AssertFail   (* a C [assert] does not hold: the process aborts *)
| ExitFail     (* the code calls [exit(1)] *)
| MemFault     (* a read outside the modelled byte image *)
| BadIndex     (* an array index outside the array (undefined in C) *)
| OutOfFuel.   (* the loop model ran out of iterations *)

Inductive result (A : Type) : Type :=
| Ok (a : A)
| Err (e : error).

Arguments Ok {A} a.
Arguments Err {A} e.

Definition rbind {A B : Type} (m : result A) (k : A -> result B) : result B :=
  match m with
  | Ok a => k a
  | Err e => Err e
  end.

Definition assert (b : bool) : result unit :=
  if b then Ok tt else Err AssertFail.

#[global] Instance result_ret : MRet result := fun A a => Ok a.
#[global] Instance result_bind : MBind result := fun A B k m => rbind m k.

(** ** Machine integers *)

Definition u64 (z : Z) : Z := z mod 2 ^ 64.
Definition u32 (z : Z) : Z := z mod 2 ^ 32.

(** Value of a byte read through [signed char*]. *)
Definition s8 (b : Z) : Z := if b <? 128 then b else b - 256.

(** Value of four bytes read through [int32_t*] (little endian). *)
Definition le32 (b0 b1 b2 b3 : Z) : Z := b0 + 256 * b1 + 65536 * b2 + 16777216 * b3.
Definition s32 (w : Z) : Z := if w <? 2 ^ 31 then w else w - 2 ^ 32.

(** ** Code storage *)

Record CStorage : Type := mkCStorage {
  cs_size : Z;
  cs_fullsize : Z;   (* rounded to multiple of a page size *)
  cs_used : Z;
  cs_buf : Z         (* address of the mapped region *)
}.

(** [reserveCodeStorage]: checks whether enough storage is available, but
    does not change [used]. *)
Definition reserveCodeStorage (cs : CStorage) (size : Z) : result (Z * CStorage) :=
  if cs_fullsize cs - cs_used cs <? size then Err ExitFail
  else Ok (cs_buf cs + cs_used cs, cs).

Definition getCodeStorage (cs : CStorage) (size : Z) : result (Z * CStorage) :=
  let p := cs_buf cs + cs_used cs in
  assert (cs_fullsize cs - cs_used cs >=? size) ;;
  Ok (p, mkCStorage (cs_size cs) (cs_fullsize cs) (cs_used cs + size) (cs_buf cs)).

(** The arena invariant of the specification. *)
Definition arena_inv (cs : CStorage) : Prop :=
  0 <= cs_used cs <= cs_fullsize cs.

(** ** Instruction IR *)

(** [enum Reg]: the order is aligned to the x86 encoding, and the decoder
    computes register ids by addition, so ids are integers. *)
Definition Reg := Z.
Definition Reg_None : Reg := 0.
Definition Reg_AX : Reg := 1.
Definition Reg_CX : Reg := 2.
Definition Reg_DX : Reg := 3.
Definition Reg_BX : Reg := 4.
Definition Reg_SP : Reg := 5.
Definition Reg_BP : Reg := 6.
Definition Reg_SI : Reg := 7.
Definition Reg_DI : Reg := 8.
Definition Reg_8 : Reg := 9.
Definition Reg_9 : Reg := 10.
Definition Reg_10 : Reg := 11.
Definition Reg_11 : Reg := 12.
Definition Reg_12 : Reg := 13.
Definition Reg_13 : Reg := 14.
Definition Reg_14 : Reg := 15.
Definition Reg_15 : Reg := 16.
Definition Reg_Max : Reg := 17.

Inductive InstrType : Type :=
| IT_None | IT_Invalid
| IT_NOP
| IT_PUSH | IT_POP
| IT_MOV | IT_ADD | IT_SUB
| IT_CALL | IT_RET.

Inductive OpType : Type :=
| OT_None
| OT_Imm8 | OT_Imm16 | OT_Imm32 | OT_Imm64
| OT_Reg8 | OT_Reg16 | OT_Reg32 | OT_Reg64
| OT_Ind8 | OT_Ind16 | OT_Ind32 | OT_Ind64.

Record Operand : Type := mkOperand {
  op_type : OpType;
  op_reg : Reg;
  op_ireg : Reg;    (* with SIB *)
  op_val : Z;       (* imm or displacement, uint64_t *)
  op_scale : Z      (* with SIB *)
}.

Record Instr : Type := mkInstr {
  i_addr : Z;
  i_type : InstrType;
  i_dst : Operand;
  i_src : Operand
}.

Record Code : Type := mkCode {
  c_count : Z;
  c_capacity : Z;
  c_instr : list Instr   (* the [capacity] slots of the array *)
}.

#[global] Instance OpType_eq_dec : EqDecision OpType.
Proof. solve_decision. Defined.
#[global] Instance InstrType_eq_dec : EqDecision InstrType.
Proof. solve_decision. Defined.
#[global] Instance Operand_eq_dec : EqDecision Operand.
Proof. solve_decision. Defined.
#[global] Instance Instr_eq_dec : EqDecision Instr.
Proof. solve_decision. Defined.

(** Field updates, as the assignments [o->f = v] of the source. *)
Definition set_type (t : OpType) (o : Operand) : Operand :=
  mkOperand t (op_reg o) (op_ireg o) (op_val o) (op_scale o).
Definition set_reg (r : Reg) (o : Operand) : Operand :=
  mkOperand (op_type o) r (op_ireg o) (op_val o) (op_scale o).
Definition set_ireg (r : Reg) (o : Operand) : Operand :=
  mkOperand (op_type o) (op_reg o) r (op_val o) (op_scale o).
Definition set_val (v : Z) (o : Operand) : Operand :=
  mkOperand (op_type o) (op_reg o) (op_ireg o) v (op_scale o).
Definition set_scale (s : Z) (o : Operand) : Operand :=
  mkOperand (op_type o) (op_reg o) (op_ireg o) (op_val o) s.

Definition opWidth (ot : OpType) : result Z :=
  match ot with
  | OT_Imm8 | OT_Reg8 | OT_Ind8 => Ok 8
  | OT_Imm16 | OT_Reg16 | OT_Ind16 => Ok 16
  | OT_Imm32 | OT_Reg32 | OT_Ind32 => Ok 32
  | OT_Imm64 | OT_Reg64 | OT_Ind64 => Ok 64
  | OT_None => Err AssertFail
  end.

(** [getRegOp] fills a function-static operand [o] and returns its
    address; the model returns the operand as it is after the call. *)
Definition getRegOp (o : Operand) (w : Z) (r : Reg) : result Operand :=
  if w =? 32 then
    assert ((r >? Reg_None) && (r <? Reg_Max)) ;;
    Ok (set_scale 0 (set_reg r (set_type OT_Reg32 o)))
  else if w =? 64 then
    assert ((r >? Reg_None) && (r <? Reg_Max)) ;;
    Ok (set_scale 0 (set_reg r (set_type OT_Reg64 o)))
  else Err AssertFail.

(** [copyOperand dst src]: the new contents of [*dst]. *)
Definition copyOperand (dst src : Operand) : result Operand :=
  let dst := set_type (op_type src) dst in
  match op_type src with
  | OT_Imm32 =>
      assert (op_val src <? 2 ^ 32) ;;
      Ok (set_val (op_val src) dst)
  | OT_Imm64 =>
      Ok (set_val (op_val src) dst)
  | OT_Reg32 | OT_Reg64 =>
      assert ((op_reg src >? Reg_None) && (op_reg src <? Reg_Max)) ;;
      Ok (set_reg (op_reg src) dst)
  | OT_Ind32 | OT_Ind64 =>
      assert ((op_reg src >=? Reg_None) && (op_reg src <? Reg_Max)) ;;
      let dst := set_scale (op_scale src) (set_val (op_val src) (set_reg (op_reg src) dst)) in
      if op_scale src >? 0 then
        assert ((op_scale src =? 1) || (op_scale src =? 2) ||
                (op_scale src =? 4) || (op_scale src =? 8)) ;;
        assert ((op_ireg src >=? Reg_None) && (op_ireg src <? Reg_Max)) ;;
        Ok (set_ireg (op_ireg src) dst)
      else Ok dst
  | _ => Err AssertFail
  end.

(** Access to slot [k] of the instruction array: [c->instr + k]. *)
Definition updSlot (c : Code) (k : Z) (f : Instr -> result Instr) : result Code :=
  if k <? 0 then Err BadIndex
  else match c_instr c !! Z.to_nat k with
       | Some i =>
           i' ← f i;
           Ok (mkCode (c_count c) (c_capacity c) (<[Z.to_nat k := i']> (c_instr c)))
       | None => Err BadIndex
       end.

(** [nextInstr] returns the new code and the index of the slot handed out. *)
Definition nextInstr (c : Code) (a : Z) : result (Code * Z) :=
  let i := c_count c in
  assert (c_count c <? c_capacity c) ;;
  let c := mkCode (c_count c + 1) (c_capacity c) (c_instr c) in
  c ← updSlot c i (fun s => Ok (mkInstr a (i_type s) (i_dst s) (i_src s)));
  Ok (c, i).

Definition addSimple (c : Code) (a : Z) (it : InstrType) : result Code :=
  '(c, i) ← nextInstr c a;
  updSlot c i (fun s => Ok (mkInstr (i_addr s) it (i_dst s) (i_src s))).

Definition addUnaryOp (c : Code) (a : Z) (it : InstrType) (o : Operand) : result Code :=
  '(c, i) ← nextInstr c a;
  updSlot c i (fun s =>
    d ← copyOperand (i_dst s) o;
    Ok (mkInstr (i_addr s) it d (i_src s))).

Definition addBinaryOp (c : Code) (a : Z) (it : InstrType) (o1 o2 : Operand) : result Code :=
  '(c, i) ← nextInstr c a;
  updSlot c i (fun s =>
    d ← copyOperand (i_dst s) o1;
    s' ← copyOperand (i_src s) o2;
    Ok (mkInstr (i_addr s) it d s')).

(** ** Decoder *)

(** REX prefix, used in parseModRM *)
Definition REX_MASK_B : Z := 1.
Definition REX_MASK_X : Z := 2.
Definition REX_MASK_R : Z := 4.
Definition REX_MASK_W : Z := 8.

(** C truth value of [rex & mask]. *)
Definition rexBit (rex mask : Z) : bool := negb (Z.land rex mask =? 0).

(** [p[k]] on the byte image [p]; a read past its end is a fault. *)
Definition rd (p : list Z) (k : Z) : result Z :=
  if k <? 0 then Err MemFault
  else match p !! Z.to_nat k with
       | Some b => Ok b
       | None => Err MemFault
       end.

(** [parseModRM p rex o1 o2]: the number of bytes read and the operands
    [*o1], [*o2] after the call; [o1] and [o2] come in with the previous
    contents of the objects.  See SDM 2.1. *)
Definition parseModRM (p : list Z) (rex : Z) (o1 o2 : Operand)
  : result (Z * Operand * Operand) :=
  let hasRex := rex >? 0 in
  modrm ← rd p 0;
  let o := 1 in
  let mod_ := Z.shiftr (Z.land modrm 192) 6 in
  let reg := Z.shiftr (Z.land modrm 56) 3 in
  let rm := Z.land modrm 7 in
  (* Operand 2: always reg *)
  let r := Reg_AX + reg in
  let reg := if hasRex && rexBit rex REX_MASK_R then reg + 8 else reg in
  let reg_ot := if hasRex && rexBit rex REX_MASK_W then OT_Reg64 else OT_Reg32 in
  let o2 := set_reg r (set_type reg_ot o2) in
  if mod_ =? 3 then
    (* r, r *)
    let r := Reg_AX + rm in
    let r := if hasRex && rexBit rex REX_MASK_B then r + 8 else r in
    Ok (o, set_reg r (set_type reg_ot o1), o2)
  else
    (* SIB; [idx] and [base] are unset, and unread, when there is none *)
    '(o, scale, idx, base) ←
      (if rm =? 4 then
         sib ← rd p o;
         Ok (o + 1, Z.shiftl 1 (Z.shiftr (Z.land sib 192) 6),
             Z.shiftr (Z.land sib 56) 3, Z.land sib 7)
       else Ok (o, 0, 0, 0));
    '(o, disp) ←
      (if mod_ =? 1 then
         (* 8bit disp: sign extend *)
         b ← rd p o;
         Ok (o + 1, s8 b)
       else if (mod_ =? 2) || ((mod_ =? 0) && (rm =? 5)) then
         b0 ← rd p o; b1 ← rd p (o + 1); b2 ← rd p (o + 2); b3 ← rd p (o + 3);
         Ok (o + 4, s32 (le32 b0 b1 b2 b3))
       else Ok (o, 0));
    let o1 := set_type (if hasRex && rexBit rex REX_MASK_W then OT_Ind64 else OT_Ind32) o1 in
    let o1 := set_scale scale o1 in
    let o1 := set_val (u64 disp) o1 in
    if scale =? 0 then
      let r := Reg_AX + rm in
      let r := if hasRex && rexBit rex REX_MASK_B then r + 8 else r in
      Ok (o, set_reg (if (mod_ =? 0) && (rm =? 5) then Reg_None else r) o1, o2)
    else
      let r := Reg_AX + idx in
      let r := if hasRex && rexBit rex REX_MASK_X then r + 8 else r in
      let o1 := set_ireg (if idx =? 4 then Reg_None else r) o1 in
      let r := Reg_AX + base in
      let r := if hasRex && rexBit rex REX_MASK_B then r + 8 else r in
      Ok (o, set_reg (if (base =? 5) && (mod_ =? 0) then Reg_None else r) o1, o2).

(** Objects of [decodeFunc] that C leaves indeterminate: [rex] before the
    first prefix, the block-local operands [o1], [o2], and the fields of
    the static operand of [getRegOp] that it never writes. *)
Record Indet : Type := mkIndet {
  u_rex : Z;
  u_o1 : Operand;
  u_o2 : Operand;
  u_regop : Operand
}.

Definition isRexPrefix (b : Z) : bool := (0x40 <=? b) && (b <=? 0x4F).

(** The prefix loop, on the bytes from [fp + o] on. *)
Fixpoint scanPrefixes (bs : list Z) (o : Z) (hasRex : bool) (rex : Z)
  : result (Z * bool * Z) :=
  match bs with
  | [] => Err MemFault
  | b :: bs' =>
      if isRexPrefix b then scanPrefixes bs' (o + 1) true (Z.land b 15)
      else Ok (o, hasRex, rex)
  end.

Section Decode.
Variable u : Indet.
Variable f : Z.            (* the address of the function *)
Variable fp : list Z.      (* the bytes at that address *)
Variable stopAtRet : bool.

(** One iteration of the outer loop of [decodeFunc], entered with
    [hasRex = 0]: the code, the offset, [rex] and [retFound] after it. *)
Definition decodeInstr (c : Code) (o : Z) (rex : Z) : result (Code * Z * Z * bool) :=
  let a := u64 (f + o) in
  '(o, hasRex, rex) ← scanPrefixes (drop (Z.to_nat o) fp) o false rex;
  opc ← rd fp o;
  if opc =? 0xc3 then
    (* ret *)
    c ← addSimple c a IT_RET;
    Ok (c, o + 1, rex, stopAtRet)
  else if (0x50 <=? opc) && (opc <=? 0x57) then
    (* push *)
    op ← getRegOp (u_regop u) 64 (Reg_AX + (opc - 0x50));
    c ← addUnaryOp c a IT_PUSH op;
    Ok (c, o + 1, rex, false)
  else if (0x58 <=? opc) && (opc <=? 0x5F) then
    (* pop *)
    op ← getRegOp (u_regop u) 64 (Reg_AX + (opc - 0x58));
    c ← addUnaryOp c a IT_POP op;
    Ok (c, o + 1, rex, false)
  else if opc =? 0x89 then
    (* mov r/m,r 32/64 (r/m = dst, r = src) *)
    let o := o + 1 in
    '(n, o1, o2) ← parseModRM (drop (Z.to_nat o) fp) (if (hasRex : bool) then rex else 0)
                              (u_o1 u) (u_o2 u);
    c ← addBinaryOp c a IT_MOV o1 o2;
    Ok (c, o + n, rex, false)
  else if opc =? 0x8B then
    (* mov r,r/m 16/32/64 *)
    let o := o + 1 in
    '(n, o2, o1) ← parseModRM (drop (Z.to_nat o) fp) (if (hasRex : bool) then rex else 0)
                              (u_o2 u) (u_o1 u);
    c ← addBinaryOp c a IT_MOV o1 o2;
    Ok (c, o + n, rex, false)
  else if opc =? 0x01 then
    (* add r/m,r 16/32/64 *)
    let o := o + 1 in
    '(n, o1, o2) ← parseModRM (drop (Z.to_nat o) fp) (if (hasRex : bool) then rex else 0)
                              (u_o1 u) (u_o2 u);
    c ← addBinaryOp c a IT_ADD o1 o2;
    Ok (c, o + n, rex, false)
  else
    c ← addSimple c a IT_Invalid;
    Ok (c, o + 1, rex, false).

Fixpoint decodeLoop (fuel : nat) (max : Z) (c : Code) (o : Z) (rex : Z) (retFound : bool)
  : result Code :=
  if (o <? max) && negb retFound then
    match fuel with
    | O => Err OutOfFuel
    | S fuel =>
        rbind (decodeInstr c o rex) (fun '(c, o, rex, retFound) =>
        decodeLoop fuel max c o rex retFound)
    end
  else Ok c.

(** Every iteration consumes at least one byte, so [max] iterations
    are enough. *)
Definition decodeFunc (c : Code) (max : Z) : result Code :=
  decodeLoop (Z.to_nat max) max c 0 (u_rex u) false.
End Decode.

(** ** Printer: the assertions on the way of [instr2string]

    The emulator prints every instruction before it runs it.  Only the
    conditions under which the printer returns matter here. *)

(** [regName] returns for the sixteen general purpose registers. *)
Definition regName_chk (r : Reg) : result unit :=
  assert ((Reg_AX <=? r) && (r <=? Reg_15)).

Definition op2string_chk (o : Operand) : result unit :=
  match op_type o with
  | OT_Reg32 | OT_Reg64 => regName_chk (op_reg o)
  | OT_Imm32 => assert (op_val o <? 2 ^ 32)
  | OT_Imm64 => Ok tt
  | OT_Ind8 | OT_Ind16 | OT_Ind32 | OT_Ind64 =>
      if op_scale o =? 0 then regName_chk (op_reg o)
      else
        (if op_reg o =? Reg_None then Ok tt else regName_chk (op_reg o)) ;;
        regName_chk (op_ireg o)
  | _ => Err AssertFail
  end.

Definition instr2string_chk (i : Instr) : result unit :=
  match i_type i with
  | IT_PUSH | IT_POP => op2string_chk (i_dst i)
  | IT_MOV | IT_ADD | IT_SUB => op2string_chk (i_src i) ;; op2string_chk (i_dst i)
  | _ => Ok tt
  end.

(** ** Emulator *)

(** Emulator state.  For memory, the emulator uses the real memory of the
    process, of which its stack is the region
    [[stack, stack + stack_capacity)]. *)
Record EmuState : Type := mkEmuState {
  es_r : list Z;             (* general registers: r[Reg_Max] *)
  es_stack_capacity : Z;
  es_stack : Z               (* address of the stack buffer *)
}.

Abbreviation Mem := (Z -> Z).   (* the byte at an address *)

Definition getReg (es : EmuState) (i : Reg) : result Z :=
  if i <? 0 then Err BadIndex
  else match es_r es !! Z.to_nat i with
       | Some v => Ok v
       | None => Err BadIndex
       end.

Definition setReg (es : EmuState) (i : Reg) (v : Z) : result EmuState :=
  if (i <? 0) || (Z.of_nat (length (es_r es)) <=? i) then Err BadIndex
  else Ok (mkEmuState (<[Z.to_nat i := v]> (es_r es)) (es_stack_capacity es) (es_stack es)).

(** Little-endian access to [n] bytes at address [a]. *)
Fixpoint load (n : nat) (m : Mem) (a : Z) : Z :=
  match n with
  | O => 0
  | S n => m a + 256 * load n m (a + 1)
  end.

Fixpoint store (n : nat) (m : Mem) (a : Z) (v : Z) : Mem :=
  match n with
  | O => m
  | S n => store n (<[a := v mod 256]> m) (a + 1) (v / 256)
  end.

Definition isInd (t : OpType) : bool :=
  match t with
  | OT_Ind8 | OT_Ind16 | OT_Ind32 | OT_Ind64 => true
  | _ => false
  end.

Definition getOpAddr (es : EmuState) (o : Operand) : result Z :=
  assert (isInd (op_type o)) ;;
  let a := op_val o in
  a ← (if op_reg o =? Reg_None then Ok a
       else r ← getReg es (op_reg o); Ok (u64 (a + r)));
  if op_scale o >? 0 then
    r ← getReg es (op_ireg o);
    Ok (u64 (a + u64 (op_scale o * r)))
  else Ok a.

(** Returned value should be casted to expected type (8/16/32 bit). *)
Definition getOpValue (es : EmuState) (m : Mem) (o : Operand) : result Z :=
  match op_type o with
  | OT_Reg32 => r ← getReg es (op_reg o); Ok (u32 r)
  | OT_Reg64 => getReg es (op_reg o)
  | OT_Ind32 => a ← getOpAddr es o; Ok (load 4 m a)
  | OT_Ind64 => a ← getOpAddr es o; Ok (load 8 m a)
  | _ => Err AssertFail
  end.

(** Only the bits of [v] are used which are required for operand type. *)
Definition setOpValue (es : EmuState) (m : Mem) (o : Operand) (v : Z)
  : result (EmuState * Mem) :=
  let v := u64 v in
  match op_type o with
  | OT_Reg32 => es ← setReg es (op_reg o) (u32 v); Ok (es, m)
  | OT_Reg64 => es ← setReg es (op_reg o) v; Ok (es, m)
  | OT_Ind32 => a ← getOpAddr es o; Ok (es, store 4 m a (u32 v))
  | OT_Ind64 => a ← getOpAddr es o; Ok (es, store 8 m a v)
  | _ => Err AssertFail
  end.

Definition checkStackAddr (es : EmuState) : result unit :=
  a ← getReg es Reg_SP;
  assert ((a >=? es_stack es) && (a <? es_stack es + es_stack_capacity es)).

(** The [switch] of the emulator loop: state and memory after the
    instruction, and [foundRet]. *)
Definition emulateInstr (es : EmuState) (m : Mem) (instr : Instr)
  : result (EmuState * Mem * bool) :=
  match i_type instr with
  | IT_PUSH =>
      match op_type (i_dst instr) with
      | OT_Reg32 =>
          sp ← getReg es Reg_SP;
          es ← setReg es Reg_SP (u64 (sp - 4));
          checkStackAddr es ;;
          a32 ← getReg es Reg_SP;
          v ← getOpValue es m (i_dst instr);
          Ok (es, store 4 m a32 (u32 v), false)
      | OT_Reg64 =>
          sp ← getReg es Reg_SP;
          es ← setReg es Reg_SP (u64 (sp - 8));
          checkStackAddr es ;;
          a64 ← getReg es Reg_SP;
          v ← getOpValue es m (i_dst instr);
          Ok (es, store 8 m a64 (u64 v), false)
      | _ => Err AssertFail
      end
  | IT_POP =>
      match op_type (i_dst instr) with
      | OT_Reg32 =>
          checkStackAddr es ;;
          a32 ← getReg es Reg_SP;
          '(es, m) ← setOpValue es m (i_dst instr) (load 4 m a32);
          sp ← getReg es Reg_SP;
          es ← setReg es Reg_SP (u64 (sp + 4));
          Ok (es, m, false)
      | OT_Reg64 =>
          checkStackAddr es ;;
          a64 ← getReg es Reg_SP;
          '(es, m) ← setOpValue es m (i_dst instr) (load 8 m a64);
          sp ← getReg es Reg_SP;
          es ← setReg es Reg_SP (u64 (sp + 8));
          Ok (es, m, false)
      | _ => Err AssertFail
      end
  | IT_MOV =>
      match op_type (i_src instr) with
      | OT_Reg32 | OT_Ind32 =>
          w ← opWidth (op_type (i_dst instr));
          assert (w =? 32) ;;
          v ← getOpValue es m (i_src instr);
          let v32 := u32 v in
          '(es, m) ← setOpValue es m (i_dst instr) v32;
          Ok (es, m, false)
      | OT_Reg64 | OT_Ind64 =>
          w ← opWidth (op_type (i_dst instr));
          assert (w =? 64) ;;
          v ← getOpValue es m (i_src instr);
          let v64 := u64 v in
          '(es, m) ← setOpValue es m (i_dst instr) v64;
          Ok (es, m, false)
      | _ => Err AssertFail
      end
  | IT_ADD =>
      match op_type (i_src instr) with
      | OT_Reg32 | OT_Ind32 =>
          w ← opWidth (op_type (i_dst instr));
          assert (w =? 32) ;;
          v ← getOpValue es m (i_src instr);
          let v32 := u32 v in
          d ← getOpValue es m (i_dst instr);
          let v32 := u32 (v32 + u32 d) in
          '(es, m) ← setOpValue es m (i_dst instr) v32;
          Ok (es, m, false)
      | OT_Reg64 | OT_Ind64 =>
          w ← opWidth (op_type (i_dst instr));
          assert (w =? 64) ;;
          v ← getOpValue es m (i_src instr);
          let v64 := u64 v in
          d ← getOpValue es m (i_dst instr);
          let v64 := u64 (v64 + u64 d) in
          '(es, m) ← setOpValue es m (i_dst instr) v64;
          Ok (es, m, false)
      | _ => Err AssertFail
      end
  | IT_RET => Ok (es, m, true)
  | _ => Err AssertFail
  end.

(** The emulator loop over the instructions from index [i] on. *)
Fixpoint emulateLoop (instrs : list Instr) (es : EmuState) (m : Mem)
  : result (EmuState * Mem) :=
  match instrs with
  | [] => Ok (es, m)
  | instr :: rest =>
      instr2string_chk instr ;;
      rbind (emulateInstr es m instr) (fun '(es, m, foundRet) =>
      if (foundRet : bool) then Ok (es, m) else emulateLoop rest es m)
  end.

(** [emulate c, a1, ..., a5]: the integer parameters go to the registers
    of the x86_64 calling convention; the result is the value of [rax]. *)
Definition emulate (c : Code) (es : EmuState) (m : Mem) (args : list Z)
  : result (Z * EmuState * Mem) :=
  let arg k := u64 (nth k args 0) in
  es ← setReg es Reg_DI (arg 0%nat);
  es ← setReg es Reg_SI (arg 1%nat);
  es ← setReg es Reg_DX (arg 2%nat);
  es ← setReg es Reg_CX (arg 3%nat);
  es ← setReg es Reg_8 (arg 4%nat);
  es ← setReg es Reg_SP (u64 (es_stack es + es_stack_capacity es));
  assert (c_count c <=? Z.of_nat (length (c_instr c))) ;;
  '(es, m) ← emulateLoop (take (Z.to_nat (c_count c)) (c_instr c)) es m;
  v ← getReg es Reg_AX;
  Ok (v, es, m).

(** ** Operands as objects in memory

    [copyOperand] takes two pointers.  An operand holds no pointer itself,
    so a store from addresses to operands is all the sharing there is. *)

Definition copyOperandAt (h : gmap Z Operand) (dst src : Z) : result (gmap Z Operand) :=
  match h !! dst, h !! src with
  | Some d, Some s =>
      d' ← copyOperand d s;
      Ok (<[dst := d']> h)
  | _, _ => Err MemFault
  end.

(** ** Predicates of the specification *)

(** Modelled from the spec: operand equality.  [opIsEqual] is declared in
    [include/priv/instr.h] and defined in no source file at hand.  The
    specification has operands as a tagged variant (an immediate carries
    its payload, a register its id, an indirect its base, displacement,
    scale and, when the scale is positive, its index) and calls two
    operands equal when they have the same tag and width, the same
    register ids, the same displacement and the same scale. *)
Definition opIsEqual (o1 o2 : Operand) : bool :=
  bool_decide (op_type o1 = op_type o2) &&
  match op_type o1 with
  | OT_Imm8 | OT_Imm16 | OT_Imm32 | OT_Imm64 =>
      op_val o1 =? op_val o2
  | OT_Reg8 | OT_Reg16 | OT_Reg32 | OT_Reg64 =>
      op_reg o1 =? op_reg o2
  | OT_Ind8 | OT_Ind16 | OT_Ind32 | OT_Ind64 =>
      (op_reg o1 =? op_reg o2) && (op_val o1 =? op_val o2) &&
      (op_scale o1 =? op_scale o2) &&
      ((op_scale o1 <=? 0) || (op_ireg o1 =? op_ireg o2))
  | OT_None => true
  end.

(** The invariant of indirect operands as the specification words it:
    a positive scale is 1, 2, 4 or 8 and comes with an index register. *)
Definition ind_inv (o : Operand) : Prop :=
  isInd (op_type o) = true -> op_scale o > 0 ->
  op_ireg o <> Reg_None /\
  (op_scale o = 1 \/ op_scale o = 2 \/ op_scale o = 4 \/ op_scale o = 8).

(** The invariant that the code keeps: with a positive scale the index
    register is any id of the enumeration, [Reg_None] included. *)
Definition ind_ok (o : Operand) : Prop :=
  isInd (op_type o) = true -> op_scale o > 0 ->
  Reg_None <= op_ireg o < Reg_Max /\
  (op_scale o = 1 \/ op_scale o = 2 \/ op_scale o = 4 \/ op_scale o = 8).

(** The fields of the ModR/M and SIB bytes. *)
Definition modrm_mod (b : Z) : Z := Z.shiftr (Z.land b 192) 6.
Definition modrm_reg (b : Z) : Z := Z.shiftr (Z.land b 56) 3.
Definition modrm_rm (b : Z) : Z := Z.land b 7.

(** Slot [k] of the instruction array. *)
Definition slot (c : Code) (k : Z) : option Instr :=
  if k <? 0 then None else c_instr c !! Z.to_nat k.

(** A code buffer as [allocCode] makes it: [capacity] slots. *)
Definition code_wf (c : Code) : Prop :=
  0 <= c_count c /\ Z.of_nat (length (c_instr c)) = c_capacity c.

(** Register [k] of the emulator state. *)
Definition reg_at (es : EmuState) (k : Z) : option Z := es_r es !! Z.to_nat k.

(** All registers but those of [rs] have the same value in both states. *)
Definition regs_same_except (rs : list Reg) (es es' : EmuState) : Prop :=
  length (es_r es') = length (es_r es) /\
  forall k : Z, 0 <= k -> Forall (fun r => r <> k) rs -> reg_at es' k = reg_at es k.

(** All bytes outside [[a, a + n)] are the same in both memories. *)
Definition mem_same_except (a n : Z) (m m' : Mem) : Prop :=
  forall b : Z, ~ (a <= b < a + n) -> m' b = m b.

(** The address is in the stack of the emulator. *)
Definition in_stack (es : EmuState) (a : Z) : Prop :=
  es_stack es <= a < es_stack es + es_stack_capacity es.

(** Width in bytes of a 32 or 64 bit operand type. *)
Definition opBytes (t : OpType) : Z :=
  match t with
  | OT_Imm32 | OT_Reg32 | OT_Ind32 => 4
  | OT_Imm64 | OT_Reg64 | OT_Ind64 => 8
  | _ => 0
  end.

(** What the assertions of [copyOperand] ask of the source operand. *)
Definition copy_pre (s : Operand) : Prop :=
  match op_type s with
  | OT_Imm32 => op_val s < 2 ^ 32
  | OT_Imm64 => True
  | OT_Reg32 | OT_Reg64 => Reg_None < op_reg s < Reg_Max
  | OT_Ind32 | OT_Ind64 =>
      Reg_None <= op_reg s < Reg_Max /\
      (op_scale s > 0 ->
       (op_scale s = 1 \/ op_scale s = 2 \/ op_scale s = 4 \/ op_scale s = 8) /\
       Reg_None <= op_ireg s < Reg_Max)
  | _ => False
  end.

(** The opcode bytes of the [switch] in [decodeFunc]. *)
Definition knownOpcode (b : Z) : bool :=
  (b =? 0xc3) || ((0x50 <=? b) && (b <=? 0x57)) || ((0x58 <=? b) && (b <=? 0x5F)) ||
  (b =? 0x89) || (b =? 0x8B) || (b =? 0x01).

(** The bytes at [fp] can be decoded up to the budget [max]: a byte [j]
    at or after the last budgeted offset is no prefix, and the image has
    the six bytes that ModR/M, SIB and displacement can take after it. *)
Definition readable (fp : list Z) (max : Z) : Prop :=
  exists j b, max - 1 <= j /\ 0 <= j /\ j + 7 <= Z.of_nat (length fp) /\
              rd fp j = Ok b /\ isRexPrefix b = false.


(** ** Allocation

    [mmap] and [malloc] are the environment: the address that [mmap]
    returns for a length ([None] for [MAP_FAILED]) and the contents of
    fresh [malloc]ed memory are arguments. *)

(** [initCodeStorage]: the size is rounded up to a multiple of a page
    size.  The field [used] is not written: it keeps what [malloc] left
    there, [used0]. *)
Definition initCodeStorage (mmap : Z -> option Z) (used0 : Z) (size : Z) : result CStorage :=
  let fullsize := Z.land (size + 4095) (Z.lnot 4095) in
  match mmap fullsize with
  | None => Err ExitFail
  | Some buf => Ok (mkCStorage size fullsize used0 buf)
  end.

(** [allocCode]: [slots] is the fresh array of [capacity] instructions. *)
Definition allocCode (slots : list Instr) (capacity : Z) : Code :=
  mkCode 0 capacity slots.

(** The number of bytes that a ModR/M byte announces, itself included:
    a SIB byte for rm 4, one displacement byte for mod 1, four for mod 2
    and for mod 0 with rm 5. *)
Definition modrm_len (modrm : Z) : Z :=
  if modrm_mod modrm =? 3 then 1
  else 1 + (if modrm_rm modrm =? 4 then 1 else 0)
         + (if modrm_mod modrm =? 1 then 1
            else if (modrm_mod modrm =? 2) ||
                    ((modrm_mod modrm =? 0) && (modrm_rm modrm =? 5)) then 4
            else 0).

(** [c'] is [c] with the instruction [i] put into the next free slot. *)
Definition appended (c c' : Code) (i : Instr) : Prop :=
  code_wf c' /\ c_count c < c_capacity c /\
  c_count c' = c_count c + 1 /\ c_capacity c' = c_capacity c /\
  slot c' (c_count c) = Some i /\
  forall k, k <> c_count c -> slot c' k = slot c k.

(** An operand of width [w] that is a register or an indirect operand
    and passes the assertions of [copyOperand]. *)
Definition reg_or_ind (w : Z) (o : Operand) : Prop :=
  copy_pre o /\
  if w =? 64 then op_type o = OT_Reg64 \/ op_type o = OT_Ind64
  else op_type o = OT_Reg32 \/ op_type o = OT_Ind32.

(** The instructions that the decoder makes. *)
Definition decoded_instr (i : Instr) : Prop :=
  match i_type i with
  | IT_RET | IT_Invalid => True
  | IT_PUSH | IT_POP =>
      op_type (i_dst i) = OT_Reg64 /\ Reg_AX <= op_reg (i_dst i) <= Reg_DI
  | IT_MOV | IT_ADD =>
      exists w, (w = 32 \/ w = 64) /\
                reg_or_ind w (i_dst i) /\ reg_or_ind w (i_src i)
  | _ => False
  end.

(** [a[i] = 0] for [i] from 0 to [n - 1]. *)
Fixpoint zeroFill (n : nat) (m : Mem) (a : Z) : Mem :=
  match n with
  | O => m
  | S n => zeroFill n (<[a := 0]> m) (a + 1)
  end.

(** [initEmulatorState]: [stack] is the address that [malloc] returns;
    the stack bytes and all [Reg_Max] registers are set to 0. *)
Definition initEmulatorState (stack : Z) (m : Mem) (stacksize : Z) : EmuState * Mem :=
  (mkEmuState (replicate (Z.to_nat Reg_Max) 0) stacksize stack,
   zeroFill (Z.to_nat stacksize) m stack).

(** The registers in which [emulate] passes its five integer parameters,
    in the order of the parameters. *)
Definition argRegs : list Reg := [Reg_DI; Reg_SI; Reg_DX; Reg_CX; Reg_8].

(** ** [spec2] *)

(** The [n] bytes that [memcpy] reads from offset [o] of the image on. *)
Fixpoint readBytes (fp : list Z) (o : Z) (n : nat) : result (list Z) :=
  match n with
  | O => Ok []
  | S n => rbind (rd fp o) (fun b =>
           rbind (readBytes fp (o + 1) n) (fun bs => Ok (b :: bs)))
  end.

(** [spec2 f]: decodes up to 100 bytes of [f] into a fresh code buffer,
    takes 50 bytes from a fresh code storage of one page and copies the
    first 50 bytes of [f] there.  The result is the address of the copy;
    the second component is the contents of the 50 bytes at that
    address.  [slots] and [used0] are what [malloc] left in the
    instruction array and in the field [used]. *)
Definition spec2 (u : Indet) (slots : list Instr) (mmap : Z -> option Z) (used0 : Z)
    (f : Z) (fp : list Z) : result (Z * list Z) :=
  let c := allocCode slots 100 in
  decodeFunc u f fp true c 100 ;;
  cs ← initCodeStorage mmap used0 4096;
  '(p, _) ← getCodeStorage cs 50;
  bytes ← readBytes fp 0 50;
  Ok (p, bytes).

(** ** Printer: the strings

    [sprintf] is modelled by the string it writes; the conversions used
    are [%s], [%-6s], [%lx] and [%d]. *)

(** [regName]: no name for [Reg_None] or for a value outside the
    enumeration ([assert(0)]). *)
Definition regName (r : Reg) : result string :=
  if r =? Reg_AX then Ok "ax"
  else if r =? Reg_BX then Ok "bx"
  else if r =? Reg_CX then Ok "cx"
  else if r =? Reg_DX then Ok "dx"
  else if r =? Reg_DI then Ok "di"
  else if r =? Reg_SI then Ok "si"
  else if r =? Reg_BP then Ok "bp"
  else if r =? Reg_SP then Ok "sp"
  else if r =? Reg_8 then Ok "8"
  else if r =? Reg_9 then Ok "9"
  else if r =? Reg_10 then Ok "10"
  else if r =? Reg_11 then Ok "11"
  else if r =? Reg_12 then Ok "12"
  else if r =? Reg_13 then Ok "13"
  else if r =? Reg_14 then Ok "14"
  else if r =? Reg_15 then Ok "15"
  else Err AssertFail.

Definition digit (d : Z) : string :=
  nth (Z.to_nat d)
      ["0"; "1"; "2"; "3"; "4"; "5"; "6"; "7"; "8"; "9"; "a"; "b"; "c"; "d"; "e"; "f"] "0".

(** The digits of [v >= 0] in base [base], most significant first, put
    before [acc]; at least one digit. *)
Fixpoint digits (base : Z) (fuel : nat) (v : Z) (acc : string) : string :=
  match fuel with
  | O => acc
  | S fuel =>
      let acc := digit (v mod base) +:+ acc in
      if v / base =? 0 then acc else digits base fuel (v / base) acc
  end.

(** [%lx] of an [unsigned long]. *)
Definition fmt_lx (v : Z) : string := digits 16 64 (u64 v) "".

(** [%d] of an [int]. *)
Definition fmt_d (n : Z) : string :=
  if n <? 0 then "-" +:+ digits 10 64 (- n) "" else digits 10 64 n "".

Fixpoint spaces (n : nat) : string :=
  match n with
  | O => ""
  | S n => " " +:+ spaces n
  end.

(** [%-6s]: left-justified in a field of at least six characters. *)
Definition fmt_s6 (s : string) : string := s +:+ spaces (6 - String.length s).

(** [op2string]: the string written to the static buffer [buf[30]]. *)
Definition op2string (o : Operand) : result string :=
  match op_type o with
  | OT_Reg32 => n ← regName (op_reg o); Ok ("%e" +:+ n)
  | OT_Reg64 => n ← regName (op_reg o); Ok ("%r" +:+ n)
  | OT_Imm32 => assert (op_val o <? 2 ^ 32) ;; Ok ("$0x" +:+ fmt_lx (op_val o))
  | OT_Imm64 => Ok ("$0x" +:+ fmt_lx (op_val o))
  | OT_Ind8 | OT_Ind16 | OT_Ind32 | OT_Ind64 =>
      let pre := if Z.testbit (op_val o) 63
                 then "-0x" +:+ fmt_lx (Z.lnot (op_val o) + 1)
                 else "0x" +:+ fmt_lx (op_val o) in
      if op_scale o =? 0 then
        n ← regName (op_reg o); Ok (pre +:+ "(%r" +:+ n +:+ ")")
      else
        rb ← (if op_reg o =? Reg_None then Ok "" else regName (op_reg o));
        ri ← regName (op_ireg o);
        Ok (pre +:+ "(" +:+ rb +:+ "," +:+ ri +:+ "," +:+ fmt_d (op_scale o) +:+ ")")
  | _ => Err AssertFail
  end.

(** [instr2string]: the string written to the static buffer [buf[100]]. *)
Definition instr2string (i : Instr) : result string :=
  let '(n, oc) :=
    match i_type i with
    | IT_NOP => ("nop", 0)
    | IT_RET => ("ret", 0)
    | IT_PUSH => ("push", 1)
    | IT_POP => ("pop", 1)
    | IT_MOV => ("mov", 2)
    | IT_ADD => ("add", 2)
    | IT_SUB => ("sub", 2)
    | _ => ("<Invalid>", 0)
    end in
  let s := fmt_s6 n in
  if oc =? 1 then d ← op2string (i_dst i); Ok (s +:+ d)
  else if oc =? 2 then
    a ← op2string (i_src i);
    d ← op2string (i_dst i);
    Ok (s +:+ a +:+ "," +:+ d)
  else Ok s.

(** * Properties *)

(** ** Code storage *)

Section Arena.
Variable cs : CStorage.
Variable size : Z.

Lemma reserveCodeStorage_spec :
  reserveCodeStorage cs size =
  if cs_used cs + size >? cs_fullsize cs then Err ExitFail
  else Ok (cs_buf cs + cs_used cs, cs).
Proof.
  unfold reserveCodeStorage.
  destruct (Z.ltb_spec (cs_fullsize cs - cs_used cs) size);
    destruct (Z.gtb_spec (cs_used cs + size) (cs_fullsize cs)); trivial; lia.
Qed.

Lemma getCodeStorage_spec :
  getCodeStorage cs size =
  if cs_used cs + size >? cs_fullsize cs then Err AssertFail
  else Ok (cs_buf cs + cs_used cs,
           mkCStorage (cs_size cs) (cs_fullsize cs) (cs_used cs + size) (cs_buf cs)).
Proof.
  unfold getCodeStorage.
  destruct (Z.geb_spec (cs_fullsize cs - cs_used cs) size);
    destruct (Z.gtb_spec (cs_used cs + size) (cs_fullsize cs)); trivial; lia.
Qed.
End Arena.

(** C7, as the code has it.  For a size that is not negative and an arena
    with [0 <= used <= fullsize]: [reserveCodeStorage] and [getCodeStorage]
    fail exactly when [used + size > fullsize]; otherwise both return
    [buf + used], the first leaves the arena as it is, the second adds
    [size] to [used] and changes no other field, and [0 <= used <= fullsize]
    holds afterwards. *)
Theorem arena_reserve_commit (cs : CStorage) (size : Z) :
  arena_inv cs -> 0 <= size ->
  if cs_used cs + size >? cs_fullsize cs
  then reserveCodeStorage cs size = Err ExitFail /\
       getCodeStorage cs size = Err AssertFail
  else reserveCodeStorage cs size = Ok (cs_buf cs + cs_used cs, cs) /\
       exists cs',
         getCodeStorage cs size = Ok (cs_buf cs + cs_used cs, cs') /\
         cs_used cs' = cs_used cs + size /\
         cs_size cs' = cs_size cs /\
         cs_fullsize cs' = cs_fullsize cs /\
         cs_buf cs' = cs_buf cs /\
         arena_inv cs'.
Proof.
  intros [Hlo Hhi] Hsize.
  rewrite reserveCodeStorage_spec, getCodeStorage_spec.
  destruct (Z.gtb_spec (cs_used cs + size) (cs_fullsize cs)) as [Hgt | Hle].
  - split; reflexivity.
  - split; [reflexivity |].
    eexists; split; [reflexivity |].
    unfold arena_inv; simpl. repeat split; lia.
Qed.

Lemma arena_reserve_commit_witness :
  let cs := mkCStorage 4096 4096 0 65536 in
  reserveCodeStorage cs 50 = Ok (65536, cs) /\
  exists cs', getCodeStorage cs 50 = Ok (65536, cs') /\ cs_used cs' = 50 /\ arena_inv cs'.
Proof.
  intros cs.
  assert (Hinv : arena_inv cs) by (unfold arena_inv; simpl; lia).
  assert (Hsz : 0 <= 50) by lia.
  pose proof (arena_reserve_commit cs 50 Hinv Hsz) as H.
  simpl in H. destruct H as [Hr (cs' & Hg & Hu & _ & _ & _ & Hi)].
  split; [exact Hr |]. exists cs'. repeat split; try assumption; apply Hi.
Defined.

(** C7 as stated fails for a negative size: [getCodeStorage cs (-1)] on
    an empty arena passes the capacity check and leaves [used = -1]. *)
Lemma arena_commit_negative_size :
  let cs := mkCStorage 4096 4096 0 65536 in
  arena_inv cs /\
  exists p cs', getCodeStorage cs (-1) = Ok (p, cs') /\ ~ arena_inv cs'.
Proof.
  intros cs. split.
  - unfold arena_inv; simpl; lia.
  - eexists _, _. split; [reflexivity |].
    unfold arena_inv; simpl; lia.
Qed.

(** ** Decoder: register fields and the REX prefix *)

Lemma land_7_range (x : Z) : 0 <= Z.land x 7 <= 7.
Proof.
  assert (E : Z.land x 7 = x mod 8) by (apply (Z.land_ones x 3); lia).
  rewrite E. pose proof (Z.mod_pos_bound x 8 eq_refl). lia.
Qed.

Lemma modrm_rm_range (b : Z) : 0 <= modrm_rm b <= 7.
Proof. apply land_7_range. Qed.

Lemma modrm_reg_range (b : Z) : 0 <= modrm_reg b <= 7.
Proof.
  unfold modrm_reg. rewrite Z.shiftr_land. change (Z.shiftr 56 3) with 7.
  apply land_7_range.
Qed.

Lemma modrm_mod_range (b : Z) : 0 <= modrm_mod b <= 3.
Proof.
  unfold modrm_mod. rewrite Z.shiftr_land. change (Z.shiftr 192 6) with 3.
  assert (E : Z.land (Z.shiftr b 6) 3 = Z.shiftr b 6 mod 4)
    by (apply (Z.land_ones _ 2); lia).
  rewrite E. pose proof (Z.mod_pos_bound (Z.shiftr b 6) 4 eq_refl). lia.
Qed.

(** The register-side operand never depends on REX.R: the code adds 8 to
    [reg] after the register id [r] has been computed from it. *)
Lemma parseModRM_reg_side p rex o1 o2 n o1' o2' :
  parseModRM p rex o1 o2 = Ok (n, o1', o2') ->
  exists modrm, rd p 0 = Ok modrm /\ op_reg o2' = Reg_AX + modrm_reg modrm.
Proof.
  unfold parseModRM. destruct (rd p 0) as [modrm|] eqn:Hrd; simpl; [|discriminate].
  intros H. exists modrm. split; [reflexivity|].
  repeat match type of H with
  | context [if ?b then _ else _] => destruct b; simpl in H
  | context [rd ?q ?k] => destruct (rd q k); simpl in H
  | _ = _ => first [discriminate H | injection H as <- <- <- ]
  end; reflexivity.
Qed.

(** C1 at ModR/M = 0xC0 (mod 3, reg 0, rm 0) under REX.R (rex = 4): the
    register-side operand comes out as [Reg_AX], where the claim, and the
    instruction set, have [Reg_8].  So the bytes 0x44 0x89 0xC0
    ([mov %r8d,%eax]) decode to a MOV from [Reg_AX]. *)
Theorem parseModRM_rexR_dropped (u : Indet) (f : Z) (s0 : Instr) (o1 o2 : Operand) :
  (exists o1' o2',
     parseModRM [0xC0] 4 o1 o2 = Ok (1, o1', o2') /\
     op_type o2' = OT_Reg32 /\ op_reg o2' = Reg_AX /\ op_reg o2' <> Reg_8) /\
  (exists c i,
     decodeFunc u f [0x44; 0x89; 0xC0] true (mkCode 0 1 [s0]) 3 = Ok c /\
     slot c 0 = Some i /\ i_type i = IT_MOV /\
     op_type (i_src i) = OT_Reg32 /\ op_reg (i_src i) = Reg_AX /\
     op_reg (i_src i) <> Reg_8).
Proof. split; eexists _, _; repeat split; discriminate. Qed.

(** C2 at ModR/M = 0x04 (mod 0, rm 4), SIB = 0x25 (base 5, index 4),
    followed by the displacement 0x12345678: the base is [Reg_None], but
    two bytes are reported as read and the displacement is 0: the four
    displacement bytes are not read. *)
Theorem parseModRM_sib_base5_no_disp (o1 o2 : Operand) :
  exists o1' o2',
    parseModRM [0x04; 0x25; 0x78; 0x56; 0x34; 0x12] 0 o1 o2 = Ok (2, o1', o2') /\
    op_type o1' = OT_Ind32 /\ op_reg o1' = Reg_None /\ op_val o1' = 0.
Proof. eexists _, _. repeat split. Qed.

(** With a SIB byte, a displacement is read for mod 1 and mod 2 only. *)
Lemma parseModRM_sib_mod0_length p rex o1 o2 n o1' o2' modrm :
  parseModRM p rex o1 o2 = Ok (n, o1', o2') ->
  rd p 0 = Ok modrm -> modrm_mod modrm = 0 -> modrm_rm modrm = 4 ->
  n = 2 /\ op_val o1' = 0.
Proof.
  unfold parseModRM, modrm_mod, modrm_rm. intros H Hrd Hm Hr.
  rewrite Hrd in H. simpl in H. rewrite Hm, Hr in H. simpl in H.
  destruct (rd p 1); simpl in H; [|discriminate].
  destruct (_ =? 0); injection H as <- <- <-; split; reflexivity.
Qed.

(** C3 at the bytes 0x41 0x50 ([push %r8]) and 0x41 0x58 ([pop %r8]): the
    decoder stores a PUSH, and a POP, of the 64-bit register [Reg_AX]; the
    REX prefix is consumed and has no effect on the operand. *)
Theorem decodeFunc_push_pop_rexB_dropped (u : Indet) (f : Z) (s0 : Instr) :
  (exists c i,
     decodeFunc u f [0x41; 0x50] true (mkCode 0 1 [s0]) 2 = Ok c /\
     c_count c = 1 /\ slot c 0 = Some i /\
     i_type i = IT_PUSH /\ op_type (i_dst i) = OT_Reg64 /\
     op_reg (i_dst i) = Reg_AX /\ op_reg (i_dst i) <> Reg_8) /\
  (exists c i,
     decodeFunc u f [0x41; 0x58] true (mkCode 0 1 [s0]) 2 = Ok c /\
     c_count c = 1 /\ slot c 0 = Some i /\
     i_type i = IT_POP /\ op_type (i_dst i) = OT_Reg64 /\
     op_reg (i_dst i) = Reg_AX /\ op_reg (i_dst i) <> Reg_8).
Proof. split; eexists _, _; repeat split; discriminate. Qed.

(** ** Decoder: the shape of parsed operands *)

Lemma sib_scale_values (sib : Z) :
  let s := Z.shiftl 1 (modrm_mod sib) in
  s = 1 \/ s = 2 \/ s = 4 \/ s = 8.
Proof.
  pose proof (modrm_mod_range sib) as Hk. simpl.
  assert (Hc : modrm_mod sib = 0 \/ modrm_mod sib = 1 \/
               modrm_mod sib = 2 \/ modrm_mod sib = 3) by lia.
  destruct Hc as [-> | [-> | [-> | ->]]]; compute; tauto.
Qed.

Ltac bool_to_Z :=
  repeat match goal with
  | H : (_ && _)%bool = true |- _ => apply andb_prop in H; destruct H
  | H : (_ || _)%bool = true |- _ => apply orb_prop in H
  | H : (_ && _)%bool = false |- _ => apply andb_false_iff in H
  | H : (_ || _)%bool = false |- _ => apply orb_false_iff in H; destruct H
  | H : negb _ = true |- _ => apply negb_true_iff in H
  | H : negb _ = false |- _ => apply negb_false_iff in H
  | H : (_ =? _) = true |- _ => apply Z.eqb_eq in H
  | H : (_ =? _) = false |- _ => apply Z.eqb_neq in H
  | H : (_ <? _) = true |- _ => apply Z.ltb_lt in H
  | H : (_ <? _) = false |- _ => apply Z.ltb_ge in H
  | H : (_ <=? _) = true |- _ => apply Z.leb_le in H
  | H : (_ <=? _) = false |- _ => apply Z.leb_gt in H
  | H : (_ >? _) = true |- _ => rewrite Z.gtb_ltb in H
  | H : (_ >? _) = false |- _ => rewrite Z.gtb_ltb in H
  | H : (_ >=? _) = true |- _ => rewrite Z.geb_leb in H
  | H : (_ >=? _) = false |- _ => rewrite Z.geb_leb in H
  end.

Lemma copyOperand_ok (d s : Operand) :
  copy_pre s -> exists d', copyOperand d s = Ok d'.
Proof.
  unfold copy_pre, copyOperand.
  destruct (op_type s) eqn:Ht; try contradiction; intros H; simpl.
  - replace (op_val s <? 2 ^ 32) with true by (symmetry; apply Z.ltb_lt; exact H).
    simpl. eauto.
  - eauto.
  - replace (op_reg s >? Reg_None) with true by (symmetry; rewrite Z.gtb_ltb; apply Z.ltb_lt; lia).
    replace (op_reg s <? Reg_Max) with true by (symmetry; apply Z.ltb_lt; lia).
    simpl. eauto.
  - replace (op_reg s >? Reg_None) with true by (symmetry; rewrite Z.gtb_ltb; apply Z.ltb_lt; lia).
    replace (op_reg s <? Reg_Max) with true by (symmetry; apply Z.ltb_lt; lia).
    simpl. eauto.
  - destruct H as [Hr Hs].
    replace (op_reg s >=? Reg_None) with true by (symmetry; rewrite Z.geb_leb; apply Z.leb_le; lia).
    replace (op_reg s <? Reg_Max) with true by (symmetry; apply Z.ltb_lt; lia).
    simpl. destruct (Z.gtb_spec (op_scale s) 0) as [Hp | Hn]; [|eauto].
    destruct Hs as [Hv Hi]; [lia|].
    replace (op_ireg s >=? Reg_None) with true by (symmetry; rewrite Z.geb_leb; apply Z.leb_le; lia).
    replace (op_ireg s <? Reg_Max) with true by (symmetry; apply Z.ltb_lt; lia).
    destruct Hv as [-> | [-> | [-> | ->]]]; simpl; eauto.
  - destruct H as [Hr Hs].
    replace (op_reg s >=? Reg_None) with true by (symmetry; rewrite Z.geb_leb; apply Z.leb_le; lia).
    replace (op_reg s <? Reg_Max) with true by (symmetry; apply Z.ltb_lt; lia).
    simpl. destruct (Z.gtb_spec (op_scale s) 0) as [Hp | Hn]; [|eauto].
    destruct Hs as [Hv Hi]; [lia|].
    replace (op_ireg s >=? Reg_None) with true by (symmetry; rewrite Z.geb_leb; apply Z.leb_le; lia).
    replace (op_ireg s <? Reg_Max) with true by (symmetry; apply Z.ltb_lt; lia).
    destruct Hv as [-> | [-> | [-> | ->]]]; simpl; eauto.
Qed.

Ltac split_parse H :=
  repeat match type of H with
  | context [rd ?q ?k] => destruct (rd q k) eqn:?; simpl in H
  | context [if ?b then _ else _] => destruct b eqn:?; simpl in H
  end.

(** Every pair of operands that [parseModRM] returns: the register side
    is one of [Reg_AX .. Reg_DI]; the other side is a register, or an
    indirect operand whose scale is 0 or, after a SIB byte, 1, 2, 4 or 8
    with an index register that is [Reg_None] exactly for index field 4. *)
Lemma parseModRM_shape p rex o1 o2 n o1' o2' :
  parseModRM p rex o1 o2 = Ok (n, o1', o2') ->
  1 <= n <= 6 /\
  (op_type o2' = OT_Reg32 \/ op_type o2' = OT_Reg64) /\
  Reg_AX <= op_reg o2' <= Reg_DI /\
  ((op_type o1' = OT_Reg32 \/ op_type o1' = OT_Reg64) /\
   Reg_AX <= op_reg o1' <= Reg_15
   \/
   (op_type o1' = OT_Ind32 \/ op_type o1' = OT_Ind64) /\
   Reg_None <= op_reg o1' <= Reg_15 /\
   (op_scale o1' = 0 \/
    (op_scale o1' = 1 \/ op_scale o1' = 2 \/ op_scale o1' = 4 \/ op_scale o1' = 8) /\
    Reg_None <= op_ireg o1' <= Reg_15 /\
    exists sib, rd p 1 = Ok sib /\
      (op_ireg o1' = Reg_None <-> modrm_reg sib = 4))).
Proof.
  unfold parseModRM. intros H.
  destruct (rd p 0) as [modrm|] eqn:Hm; simpl in H; [|discriminate].
  fold (modrm_mod modrm) (modrm_reg modrm) (modrm_rm modrm) in H.
  pose proof (modrm_reg_range modrm) as Hreg.
  pose proof (modrm_rm_range modrm) as Hrm.
  destruct (modrm_mod modrm =? 3) eqn:E3.
  - assert (exists r, o1' = set_reg r (set_type (op_type o2') o1) /\
                      Reg_AX <= r <= Reg_15 /\
                      o2' = set_reg (Reg_AX + modrm_reg modrm) (set_type (op_type o2') o2) /\
                      (op_type o2' = OT_Reg32 \/ op_type o2' = OT_Reg64) /\ n = 1)
      as (r & -> & Hr & -> & Ht & ->).
    { split_parse H; injection H as <- <- <-; eexists; simpl;
        (split; [reflexivity|]); unfold Reg_AX, Reg_15; repeat split; auto; lia. }
    simpl. unfold Reg_AX, Reg_DI in *. repeat split; try lia; auto.
  - destruct (modrm_rm modrm =? 4) eqn:E4.
    + destruct (rd p 1) as [sib|] eqn:Hs; simpl in H; [|discriminate].
      fold (modrm_mod sib) (modrm_reg sib) (modrm_rm sib) in H.
      pose proof (sib_scale_values sib) as Hsc. simpl in Hsc.
      pose proof (modrm_reg_range sib) as Hidx.
      pose proof (modrm_rm_range sib) as Hbase.
      destruct (Z.shiftl 1 (modrm_mod sib) =? 0) eqn:Ez;
        [apply Z.eqb_eq in Ez; lia|].
      split_parse H; try discriminate; injection H as <- <- <-; simpl;
        bool_to_Z; unfold Reg_AX, Reg_DI, Reg_15, Reg_None in *;
        (split; [lia|]); (split; [auto|]); (split; [lia|]);
        right; (split; [auto|]); (split; [lia|]);
        right; (split; [assumption|]); (split; [lia|]);
        exists sib; (split; [reflexivity|]); lia.
    + split_parse H; try discriminate; injection H as <- <- <-; simpl;
        bool_to_Z; unfold Reg_AX, Reg_DI, Reg_15, Reg_None in *;
        (split; [lia|]); (split; [auto|]); (split; [lia|]);
        right; (split; [auto|]); (split; [lia|]); left; reflexivity.
Qed.

(** ** Operand copy *)

Ltac split_copy H :=
  unfold copyOperand in H;
  repeat match type of H with
  | context [match op_type ?s with _ => _ end] => destruct (op_type s) eqn:?; simpl in H
  | context [assert ?b] => destruct b eqn:?; simpl in H
  | context [if ?b then _ else _] => destruct b eqn:?; simpl in H
  end;
  try discriminate H.

(** A copy that returns has checked its source. *)
Lemma copyOperand_pre d s d' : copyOperand d s = Ok d' -> copy_pre s.
Proof.
  intros H. unfold copy_pre. split_copy H; bool_to_Z;
    unfold Reg_None, Reg_Max in *; try lia; (split; [lia|intros; try lia]).
  all: split; [|lia].
  all: match goal with H : _ \/ _ |- _ => clear - H; intuition lia end.
Qed.

(** The type is copied, and with it the fields that the type uses. *)
Lemma copyOperand_fields d s d' :
  copyOperand d s = Ok d' ->
  op_type d' = op_type s /\
  match op_type s with
  | OT_Imm32 | OT_Imm64 =>
      op_val d' = op_val s /\
      op_reg d' = op_reg d /\ op_ireg d' = op_ireg d /\ op_scale d' = op_scale d
  | OT_Reg32 | OT_Reg64 =>
      op_reg d' = op_reg s /\
      op_val d' = op_val d /\ op_ireg d' = op_ireg d /\ op_scale d' = op_scale d
  | _ =>
      op_reg d' = op_reg s /\ op_val d' = op_val s /\ op_scale d' = op_scale s /\
      op_ireg d' = if op_scale s >? 0 then op_ireg s else op_ireg d
  end.
Proof.
  intros H. split_copy H; injection H as <-; simpl; repeat split; auto.
Qed.

Lemma copyOperand_equal d s d' : copyOperand d s = Ok d' -> opIsEqual d' s = true.
Proof.
  intros H. destruct (copyOperand_fields _ _ _ H) as [Ht Hf].
  pose proof (copyOperand_pre _ _ _ H) as Hp. unfold copy_pre in Hp.
  unfold opIsEqual. rewrite Ht, bool_decide_eq_true_2 by reflexivity. simpl.
  destruct (op_type s); try contradiction.
  - destruct Hf as [-> _]. apply Z.eqb_refl.
  - destruct Hf as [-> _]. apply Z.eqb_refl.
  - destruct Hf as [-> _]. apply Z.eqb_refl.
  - destruct Hf as [-> _]. apply Z.eqb_refl.
  - destruct Hf as (-> & -> & -> & ->). rewrite !Z.eqb_refl. simpl.
    destruct (Z.gtb_spec (op_scale s) 0); [rewrite Z.eqb_refl; apply orb_true_r|].
    apply orb_true_iff; left; apply Z.leb_le; lia.
  - destruct Hf as (-> & -> & -> & ->). rewrite !Z.eqb_refl. simpl.
    destruct (Z.gtb_spec (op_scale s) 0); [rewrite Z.eqb_refl; apply orb_true_r|].
    apply orb_true_iff; left; apply Z.leb_le; lia.
Qed.

(** The fields that the type of the source does not use are not written:
    the destination keeps what it held, so the two structs need not agree
    field by field. *)
Lemma copyOperand_keeps_unused_fields :
  let s := mkOperand OT_Reg64 Reg_AX 0 0 0 in
  let d := mkOperand OT_Ind32 Reg_BP Reg_CX 16 4 in
  copyOperand d s = Ok (mkOperand OT_Reg64 Reg_AX Reg_CX 16 4).
Proof. reflexivity. Qed.

(** C6.  Wherever [copyOperand] returns, the destination is equal to the
    source as an operand (same tag and width, and the same register ids,
    displacement, scale for the fields that the tag carries), the source
    object is as before, and so it stays under any later write to the
    destination object. *)
Theorem copyOperand_fidelity (h h' : gmap Z Operand) (dst src : Z) :
  copyOperandAt h dst src = Ok h' ->
  exists s d',
    h !! src = Some s /\ h' !! dst = Some d' /\
    opIsEqual d' s = true /\
    (dst <> src ->
       h' !! src = Some s /\
       forall x : Operand, <[dst := x]> h' !! src = Some s).
Proof.
  unfold copyOperandAt. intros H.
  destruct (h !! dst) as [d|] eqn:Hd; [|discriminate].
  destruct (h !! src) as [s|] eqn:Hs; [|discriminate].
  destruct (copyOperand d s) as [d'|] eqn:Hc; simpl in H; [|discriminate].
  injection H as <-. exists s, d'. split; [reflexivity|].
  split; [apply lookup_insert_eq|].
  split; [eapply copyOperand_equal; eassumption|].
  intros Hne. split.
  - rewrite lookup_insert_ne by assumption. assumption.
  - intros x. rewrite !lookup_insert_ne by assumption. assumption.
Qed.

Lemma copyOperand_fidelity_witness :
  let s := mkOperand OT_Ind64 Reg_BP 0 16 0 in
  let d := mkOperand OT_Reg32 Reg_AX Reg_CX 7 2 in
  let h : gmap Z Operand := <[8 := d]> (<[4 := s]> ∅) in
  exists h', copyOperandAt h 8 4 = Ok h' /\
    exists d', h' !! 8 = Some d' /\ opIsEqual d' s = true /\
      forall x : Operand, <[8 := x]> h' !! 4 = Some s.
Proof.
  intros s d h.
  assert (Hrun : copyOperandAt h 8 4 =
                 Ok (<[8 := mkOperand OT_Ind64 Reg_BP Reg_CX 16 0]> h))
    by (vm_compute; reflexivity).
  eexists. split; [exact Hrun|].
  destruct (copyOperand_fidelity h _ 8 4 Hrun) as (s' & d' & Hs & Hd & He & Hn).
  assert (Hl : h !! 4 = Some s) by (vm_compute; reflexivity).
  rewrite Hl in Hs. injection Hs as <-.
  exists d'. split; [exact Hd|]. split; [exact He|].
  apply Hn. lia.
Defined.

(** ** The invariant of indirect operands *)

Lemma copyOperand_ind_ok d s d' : copyOperand d s = Ok d' -> ind_ok d'.
Proof.
  intros H Hind Hpos.
  destruct (copyOperand_fields _ _ _ H) as [Ht Hf].
  pose proof (copyOperand_pre _ _ _ H) as Hp. unfold copy_pre in Hp.
  rewrite Ht in Hind.
  destruct (op_type s); try discriminate Hind; try contradiction;
    destruct Hf as (_ & _ & Hsc & Hi); rewrite Hsc in *;
    destruct Hp as [_ Hp]; specialize (Hp Hpos); destruct Hp as [Hv Hr];
    (replace (op_scale s >? 0) with true in Hi
       by (symmetry; rewrite Z.gtb_ltb; apply Z.ltb_lt; lia));
    rewrite Hi; split; assumption.
Qed.

(** C5 as stated fails: the bytes 0x04 0x24 (mod 0, rm 4; SIB with scale
    field 0, index field 4, base [rsp]: the operand [(%rsp)]) parse to an
    indirect operand with scale 1 and index register [Reg_None], and so
    is its copy. *)
Lemma sib_without_index_breaks_ind_inv :
  let o0 := mkOperand OT_None 0 0 0 0 in
  exists o1 o2 d,
    parseModRM [0x04; 0x24] 0 o0 o0 = Ok (2, o1, o2) /\
    copyOperand o0 o1 = Ok d /\
    ~ ind_inv o1 /\ ~ ind_inv d.
Proof.
  intros o0. eexists _, _, _. split; [reflexivity|]. split; [reflexivity|].
  split; intros H; destruct H as [H _]; try reflexivity; apply H; reflexivity.
Qed.

(** C5, as the code has it.  An indirect operand that [parseModRM]
    returns, and the destination of any [copyOperand] that returns,
    satisfy: a positive scale is 1, 2, 4 or 8 and the index register is
    an id of the enumeration, possibly [Reg_None].  After [parseModRM]
    a positive scale means that a SIB byte was read; the index register
    is [Reg_None] only when the index field of that byte is 4, and it is
    [Reg_None] when the field is 4 and REX.X is not set.  The copy takes
    the index register over only when the scale is positive. *)
Theorem indirect_operand_invariant p rex o1 o2 n o1' o2' d s d' :
  parseModRM p rex o1 o2 = Ok (n, o1', o2') ->
  copyOperand d s = Ok d' ->
  (ind_ok o1' /\
   (isInd (op_type o1') = true -> op_scale o1' > 0 ->
    exists sib, rd p 1 = Ok sib /\
      (op_ireg o1' = Reg_None -> modrm_reg sib = 4) /\
      ((rex >? 0) && rexBit rex REX_MASK_X = false -> modrm_reg sib = 4 ->
       op_ireg o1' = Reg_None))) /\
  (ind_ok d' /\
   (isInd (op_type s) = true ->
    op_scale d' = op_scale s /\
    op_ireg d' = if op_scale s >? 0 then op_ireg s else op_ireg d)).
Proof.
  intros Hparse Hcopy. split.
  - destruct (parseModRM_shape _ _ _ _ _ _ _ Hparse)
      as (_ & _ & _ & [[Ht _] | (Ht & _ & Hsc)]).
    + split; intros Hind; destruct Ht as [Ht | Ht]; rewrite Ht in Hind; discriminate.
    + destruct Hsc as [Hz | (Hv & Hr & sib & Hsib & Hiff)].
      * split; intros _ Hpos; lia.
      * split; intros _ _.
        -- split; [unfold Reg_Max, Reg_15 in *; lia | assumption].
        -- exists sib. split; [assumption|]. split; [apply Hiff|].
           intros _. apply Hiff.
  - split; [eapply copyOperand_ind_ok; eassumption|].
    intros Hind. destruct (copyOperand_fields _ _ _ Hcopy) as [_ Hf].
    destruct (op_type s); try discriminate Hind;
      destruct Hf as (_ & _ & Hsc & Hi); split; assumption.
Qed.

Lemma indirect_operand_invariant_witness :
  let o0 := mkOperand OT_None 0 0 0 0 in
  let o1 := mkOperand OT_Ind32 Reg_BX Reg_CX 0 4 in
  ind_ok o1 /\
  exists sib, rd [0x04; 0x8B] 1 = Ok sib /\ (op_ireg o1 = Reg_None -> modrm_reg sib = 4).
Proof.
  intros o0 o1.
  assert (Hp : parseModRM [0x04; 0x8B] 0 o0 o0 =
               Ok (2, o1, mkOperand OT_Reg32 Reg_AX 0 0 0)) by reflexivity.
  assert (Hc : copyOperand o0 o1 = Ok o1) by reflexivity.
  destruct (indirect_operand_invariant _ _ _ _ _ _ _ _ _ _ Hp Hc) as [[Hok Hsib] _].
  split; [exact Hok|].
  destruct Hsib as (sib & Hrd & Hnone & _); [reflexivity | simpl; lia |].
  exists sib. split; assumption.
Defined.

(** The printer does not take such an operand: [regName] has no name for
    [Reg_None], so the emulator, which prints before it runs, stops at
    [mov (%rsp),%eax] (bytes 0x8B 0x04 0x24). *)
Lemma printer_rejects_sib_without_index (u : Indet) (f : Z) (s0 : Instr) :
  exists c i,
    decodeFunc u f [0x8B; 0x04; 0x24] true (mkCode 0 1 [s0]) 3 = Ok c /\
    slot c 0 = Some i /\ i_type i = IT_MOV /\
    op_scale (i_src i) = 1 /\ op_ireg (i_src i) = Reg_None /\
    instr2string_chk i = Err AssertFail.
Proof. eexists _, _. repeat split. Qed.

(** ** Appending to the code buffer *)

Lemma slot_lookup (c : Code) (k : Z) :
  code_wf c -> 0 <= k < c_capacity c -> exists s, c_instr c !! Z.to_nat k = Some s.
Proof.
  intros [_ Hlen] Hk. apply lookup_lt_is_Some. lia.
Qed.

(** The three [add] functions: [nextInstr], then writes to the slot. *)
Lemma add_slot (c : Code) (a : Z) (g : Instr -> result Instr) :
  code_wf c -> c_count c < c_capacity c ->
  (forall s, exists s', g s = Ok s') ->
  exists s0 s',
    c_instr c !! Z.to_nat (c_count c) = Some s0 /\
    g (mkInstr a (i_type s0) (i_dst s0) (i_src s0)) = Ok s' /\
    rbind (nextInstr c a) (fun '(c, i) => updSlot c i g) =
    Ok (mkCode (c_count c + 1) (c_capacity c)
               (<[Z.to_nat (c_count c) := s']> (c_instr c))).
Proof.
  intros Hwf Hlt Hg. pose proof Hwf as [Hc Hlen].
  destruct (slot_lookup c (c_count c) Hwf ltac:(lia)) as [s0 Hs0].
  destruct (Hg (mkInstr a (i_type s0) (i_dst s0) (i_src s0))) as [s' Hs'].
  exists s0, s'. split; [assumption|]. split; [assumption|].
  assert (E1 : (c_count c <? c_capacity c) = true) by (apply Z.ltb_lt; lia).
  assert (E2 : (c_count c <? 0) = false) by (apply Z.ltb_ge; lia).
  unfold nextInstr, updSlot. simpl.
  rewrite E1, E2. simpl. rewrite Hs0. simpl. rewrite E2.
  rewrite list_lookup_insert_eq by (apply lookup_lt_Some in Hs0; assumption).
  rewrite Hs'. simpl. rewrite list_insert_insert_eq. reflexivity.
Qed.

Lemma code_wf_add (c : Code) (k : nat) (s : Instr) :
  code_wf c ->
  code_wf (mkCode (c_count c + 1) (c_capacity c) (<[k := s]> (c_instr c))).
Proof.
  intros [Hc Hlen]. split; simpl; [lia|]. rewrite length_insert. assumption.
Qed.

Lemma slot_add (c : Code) (s : Instr) :
  code_wf c -> c_count c < c_capacity c ->
  slot (mkCode (c_count c + 1) (c_capacity c)
               (<[Z.to_nat (c_count c) := s]> (c_instr c))) (c_count c) = Some s.
Proof.
  intros [Hc Hlen] Hlt. unfold slot; simpl.
  replace (c_count c <? 0) with false by (symmetry; apply Z.ltb_ge; lia).
  apply list_lookup_insert_eq. lia.
Qed.

Lemma addSimple_ok c a it :
  code_wf c -> c_count c < c_capacity c ->
  exists c' i, addSimple c a it = Ok c' /\
    code_wf c' /\ c_count c' = c_count c + 1 /\ c_capacity c' = c_capacity c /\
    slot c' (c_count c) = Some i /\ i_type i = it /\ i_addr i = a.
Proof.
  intros Hwf Hlt. unfold addSimple.
  destruct (add_slot c a (fun s => Ok (mkInstr (i_addr s) it (i_dst s) (i_src s))) Hwf Hlt)
    as (s0 & s' & Hs0 & Hs' & Hrun); [eauto|].
  eexists _, s'. split; [exact Hrun|].
  split; [apply code_wf_add; assumption|]. split; [reflexivity|]. split; [reflexivity|].
  split; [apply slot_add; assumption|]. injection Hs' as <-. split; reflexivity.
Qed.

Lemma addUnaryOp_ok c a it o :
  code_wf c -> c_count c < c_capacity c -> copy_pre o ->
  exists c' i, addUnaryOp c a it o = Ok c' /\
    code_wf c' /\ c_count c' = c_count c + 1 /\ c_capacity c' = c_capacity c /\
    slot c' (c_count c) = Some i /\ i_type i = it /\ i_addr i = a /\
    opIsEqual (i_dst i) o = true.
Proof.
  intros Hwf Hlt Hpre. unfold addUnaryOp.
  destruct (add_slot c a (fun s => d ← copyOperand (i_dst s) o;
                                   Ok (mkInstr (i_addr s) it d (i_src s))) Hwf Hlt)
    as (s0 & s' & Hs0 & Hs' & Hrun).
  { intros s. destruct (copyOperand_ok (i_dst s) o Hpre) as [d' Hd'].
    rewrite Hd'. simpl. eauto. }
  eexists _, s'. split; [exact Hrun|].
  split; [apply code_wf_add; assumption|]. split; [reflexivity|]. split; [reflexivity|].
  split; [apply slot_add; assumption|].
  simpl in Hs'. destruct (copyOperand (i_dst s0) o) as [d'|] eqn:Hd'; simpl in Hs'; [|discriminate].
  injection Hs' as <-. simpl. repeat split. eapply copyOperand_equal; eassumption.
Qed.

Lemma addBinaryOp_ok c a it o1 o2 :
  code_wf c -> c_count c < c_capacity c -> copy_pre o1 -> copy_pre o2 ->
  exists c' i, addBinaryOp c a it o1 o2 = Ok c' /\
    code_wf c' /\ c_count c' = c_count c + 1 /\ c_capacity c' = c_capacity c /\
    slot c' (c_count c) = Some i /\ i_type i = it /\ i_addr i = a /\
    opIsEqual (i_dst i) o1 = true /\ opIsEqual (i_src i) o2 = true.
Proof.
  intros Hwf Hlt Hpre1 Hpre2. unfold addBinaryOp.
  destruct (add_slot c a (fun s => d ← copyOperand (i_dst s) o1;
                                   s' ← copyOperand (i_src s) o2;
                                   Ok (mkInstr (i_addr s) it d s')) Hwf Hlt)
    as (s0 & s' & Hs0 & Hs' & Hrun).
  { intros s. destruct (copyOperand_ok (i_dst s) o1 Hpre1) as [d1 Hd1].
    destruct (copyOperand_ok (i_src s) o2 Hpre2) as [d2 Hd2].
    rewrite Hd1. simpl. rewrite Hd2. simpl. eauto. }
  eexists _, s'. split; [exact Hrun|].
  split; [apply code_wf_add; assumption|]. split; [reflexivity|]. split; [reflexivity|].
  split; [apply slot_add; assumption|].
  simpl in Hs'.
  destruct (copyOperand (i_dst s0) o1) as [d1|] eqn:Hd1; simpl in Hs'; [|discriminate].
  destruct (copyOperand (i_src s0) o2) as [d2|] eqn:Hd2; simpl in Hs'; [|discriminate].
  injection Hs' as <-. simpl. repeat split; eapply copyOperand_equal; eassumption.
Qed.

(** A full buffer: [nextInstr] fails its assertion. *)
Lemma nextInstr_full c a : c_capacity c <= c_count c -> nextInstr c a = Err AssertFail.
Proof.
  intros H. unfold nextInstr.
  replace (c_count c <? c_capacity c) with false by (symmetry; apply Z.ltb_ge; lia).
  reflexivity.
Qed.

(** ** Decoder: reads inside the image succeed *)

Lemma rd_Ok (p : list Z) (k b : Z) :
  rd p k = Ok b <-> 0 <= k /\ p !! Z.to_nat k = Some b.
Proof.
  unfold rd. destruct (Z.ltb_spec k 0) as [Hneg | Hpos].
  - split; [discriminate | lia].
  - destruct (p !! Z.to_nat k) as [x|]; split.
    + intros [= ->]. split; [lia | reflexivity].
    + intros [_ [= ->]]. reflexivity.
    + discriminate.
    + intros [_ [=]].
Qed.

Lemma rd_in_range (p : list Z) (k : Z) :
  0 <= k < Z.of_nat (length p) -> exists b, rd p k = Ok b.
Proof.
  intros Hk. destruct (lookup_lt_is_Some_2 p (Z.to_nat k)) as [b Hb]; [lia|].
  exists b. apply rd_Ok. split; [lia | assumption].
Qed.

Lemma scanPrefixes_ok (fp : list Z) (n : nat) :
  forall (o : Z) (hr : bool) (rex b : Z),
    0 <= o -> rd fp (o + Z.of_nat n) = Ok b -> isRexPrefix b = false ->
    exists o' hr' rex' b',
      scanPrefixes (drop (Z.to_nat o) fp) o hr rex = Ok (o', hr', rex') /\
      o <= o' <= o + Z.of_nat n /\
      rd fp o' = Ok b' /\ isRexPrefix b' = false.
Proof.
  induction n as [|n IH]; intros o hr rex b Ho Hrd Hb.
  - replace (o + Z.of_nat 0) with o in * by lia.
    apply rd_Ok in Hrd as Hl. destruct Hl as [_ Hl].
    rewrite (drop_S _ _ _ Hl). simpl. rewrite Hb.
    exists o, hr, rex, b. repeat split; try lia; assumption.
  - apply rd_Ok in Hrd as Hl. destruct Hl as [_ Hl].
    destruct (rd_in_range fp o) as [x Hx].
    { apply lookup_lt_Some in Hl. lia. }
    apply rd_Ok in Hx as Hlx. destruct Hlx as [_ Hlx].
    rewrite (drop_S _ _ _ Hlx). simpl.
    destruct (isRexPrefix x) eqn:Ex.
    + replace (S (Z.to_nat o)) with (Z.to_nat (o + 1)) by lia.
      destruct (IH (o + 1) true (Z.land x 15) b) as (o' & hr' & rex' & b' & Hs & Hr & Hb' & Hn);
        [lia | replace (o + 1 + Z.of_nat n) with (o + Z.of_nat (S n)) by lia; assumption
        | assumption |].
      exists o', hr', rex', b'. repeat split; try lia; assumption.
    + exists o, hr, rex, x. repeat split; try lia; assumption.
Qed.

Lemma parseModRM_total (p : list Z) (rex : Z) (o1 o2 : Operand) :
  (6 <= length p)%nat -> exists n o1' o2', parseModRM p rex o1 o2 = Ok (n, o1', o2').
Proof.
  intros Hlen.
  do 6 (destruct p as [|? p]; [simpl in Hlen; lia|]).
  unfold parseModRM. simpl.
  repeat match goal with
  | |- context [if ?b then _ else _] => destruct b; simpl
  end; eauto.
Qed.

Lemma parseModRM_copy_pre p rex o1 o2 n o1' o2' :
  parseModRM p rex o1 o2 = Ok (n, o1', o2') ->
  copy_pre o1' /\ copy_pre o2' /\ 1 <= n <= 6.
Proof.
  intros H. destruct (parseModRM_shape _ _ _ _ _ _ _ H) as (Hn & Ht2 & Hr2 & H1).
  unfold copy_pre, Reg_None, Reg_Max, Reg_AX, Reg_DI, Reg_15 in *.
  split; [|split; [|assumption]].
  - destruct H1 as [[Ht Hr] | (Ht & Hr & Hs)].
    + destruct Ht as [-> | ->]; lia.
    + assert (Hi : op_scale o1' > 0 ->
                   (op_scale o1' = 1 \/ op_scale o1' = 2 \/ op_scale o1' = 4 \/ op_scale o1' = 8) /\
                   0 <= op_ireg o1' < 17).
      { intros Hpos. destruct Hs as [Hz | (Hv & Hi & _)]; [lia|]. split; [assumption | lia]. }
      destruct Ht as [-> | ->]; (split; [lia | assumption]).
  - destruct Ht2 as [-> | ->]; lia.
Qed.

Lemma getRegOp_64_ok (o : Operand) (r : Reg) :
  Reg_None < r < Reg_Max ->
  exists op, getRegOp o 64 r = Ok op /\ copy_pre op /\
             op_type op = OT_Reg64 /\ op_reg op = r.
Proof.
  intros Hr. unfold getRegOp. simpl.
  replace (r >? Reg_None) with true by (symmetry; rewrite Z.gtb_ltb; apply Z.ltb_lt; lia).
  replace (r <? Reg_Max) with true by (symmetry; apply Z.ltb_lt; lia).
  simpl. eexists. split; [reflexivity|]. unfold copy_pre. simpl. auto.
Qed.

Lemma opIsEqual_reg64 (a b : Operand) :
  opIsEqual a b = true -> op_type b = OT_Reg64 ->
  op_type a = OT_Reg64 /\ op_reg a = op_reg b.
Proof.
  unfold opIsEqual. intros H Hb.
  apply andb_prop in H as [Ht H]. apply bool_decide_eq_true_1 in Ht.
  rewrite Ht, Hb in *. split; [reflexivity|]. apply Z.eqb_eq. exact H.
Qed.

(** PUSH after any REX prefix: the operand is the register of the low
    three bits of the opcode, one of [Reg_AX .. Reg_DI]. *)
Lemma decodeInstr_push_any_rex (u : Indet) (f : Z) (stopAtRet : bool)
    (c : Code) (px opc rex : Z) (rest : list Z) :
  code_wf c -> c_count c < c_capacity c ->
  isRexPrefix px = true -> 0x50 <= opc <= 0x57 ->
  exists c' i,
    decodeInstr u f (px :: opc :: rest) stopAtRet c 0 rex =
      Ok (c', 2, Z.land px 15, false) /\
    slot c' (c_count c) = Some i /\ i_type i = IT_PUSH /\
    op_type (i_dst i) = OT_Reg64 /\ op_reg (i_dst i) = Reg_AX + (opc - 0x50).
Proof.
  intros Hwf Hlt Hpx Hopc. unfold decodeInstr. simpl.
  rewrite Hpx.
  assert (Hn : isRexPrefix opc = false).
  { unfold isRexPrefix. apply andb_false_iff. right. apply Z.leb_gt. lia. }
  rewrite Hn. simpl.
  replace (opc =? 195) with false by (symmetry; apply Z.eqb_neq; lia).
  replace (80 <=? opc) with true by (symmetry; apply Z.leb_le; lia).
  replace (opc <=? 87) with true by (symmetry; apply Z.leb_le; lia).
  simpl.
  destruct (getRegOp_64_ok (u_regop u) (Reg_AX + (opc - 80))) as (op & Hop & Hpre & Hty & Hreg);
    [unfold Reg_AX, Reg_None, Reg_Max; lia|].
  rewrite Hop. simpl.
  destruct (addUnaryOp_ok c (u64 (f + 0)) IT_PUSH op Hwf Hlt Hpre)
    as (c' & i & Hadd & _ & _ & _ & Hslot & Hit & _ & Heq).
  rewrite Hadd. simpl. exists c', i.
  destruct (opIsEqual_reg64 _ _ Heq Hty) as [Ht' Hr'].
  repeat split; try assumption. rewrite Hr', Hreg. reflexivity.
Qed.

(** ** Decoder: one instruction, and the loop *)

Section DecodeProps.
Variable u : Indet.
Variable f : Z.
Variable fp : list Z.
Variable stopAtRet : bool.

(** With a free slot and a readable image, an iteration of the loop
    returns, has filled one slot and has moved on by a byte or more. *)
Lemma decodeInstr_ok (c : Code) (o rex j bj : Z) :
  code_wf c -> c_count c < c_capacity c ->
  0 <= o <= j -> j + 7 <= Z.of_nat (length fp) ->
  rd fp j = Ok bj -> isRexPrefix bj = false ->
  exists c' o' rex' rf,
    decodeInstr u f fp stopAtRet c o rex = Ok (c', o', rex', rf) /\
    code_wf c' /\ c_count c' = c_count c + 1 /\ c_capacity c' = c_capacity c /\
    o < o'.
Proof.
  intros Hwf Hlt Ho Hlen Hj Hbj. unfold decodeInstr.
  destruct (scanPrefixes_ok fp (Z.to_nat (j - o)) o false rex bj)
    as (o' & hr & rex' & b & Hscan & Ho' & Hb & Hnb);
    [lia | replace (o + Z.of_nat (Z.to_nat (j - o))) with j by lia; assumption
    | assumption |].
  rewrite Hscan. simpl. rewrite Hb. simpl.
  assert (Hparse : forall r o1 o2, exists n o1' o2',
             parseModRM (drop (Z.to_nat (o' + 1)) fp) r o1 o2 = Ok (n, o1', o2')).
  { intros. apply parseModRM_total. rewrite length_drop. lia. }
  destruct (b =? 195).
  { destruct (addSimple_ok c (u64 (f + o)) IT_RET Hwf Hlt)
      as (c' & i & Hadd & Hwf' & Hc' & Hcap & _).
    rewrite Hadd. simpl. eexists _, _, _, _. split; [reflexivity|].
    repeat split; try assumption; try apply Hwf'; lia. }
  destruct ((80 <=? b) && (b <=? 87)) eqn:Epush.
  { bool_to_Z.
    destruct (getRegOp_64_ok (u_regop u) (Reg_AX + (b - 80))) as (op & Hop & Hpre & _);
      [unfold Reg_AX, Reg_None, Reg_Max; lia|].
    rewrite Hop. simpl.
    destruct (addUnaryOp_ok c (u64 (f + o)) IT_PUSH op Hwf Hlt Hpre)
      as (c' & i & Hadd & Hwf' & Hc' & Hcap & _).
    rewrite Hadd. simpl. eexists _, _, _, _. split; [reflexivity|].
    repeat split; try assumption; try apply Hwf'; lia. }
  destruct ((88 <=? b) && (b <=? 95)) eqn:Epop.
  { bool_to_Z.
    destruct (getRegOp_64_ok (u_regop u) (Reg_AX + (b - 88))) as (op & Hop & Hpre & _);
      [unfold Reg_AX, Reg_None, Reg_Max; lia|].
    rewrite Hop. simpl.
    destruct (addUnaryOp_ok c (u64 (f + o)) IT_POP op Hwf Hlt Hpre)
      as (c' & i & Hadd & Hwf' & Hc' & Hcap & _).
    rewrite Hadd. simpl. eexists _, _, _, _. split; [reflexivity|].
    repeat split; try assumption; try apply Hwf'; lia. }
  destruct (b =? 137).
  { destruct (Hparse (if hr then rex' else 0) (u_o1 u) (u_o2 u)) as (n & o1 & o2 & Hp).
    rewrite Hp. simpl.
    destruct (parseModRM_copy_pre _ _ _ _ _ _ _ Hp) as (Hp1 & Hp2 & Hn).
    destruct (addBinaryOp_ok c (u64 (f + o)) IT_MOV o1 o2 Hwf Hlt Hp1 Hp2)
      as (c' & i & Hadd & Hwf' & Hc' & Hcap & _).
    rewrite Hadd. simpl. eexists _, _, _, _. split; [reflexivity|].
    repeat split; try assumption; try apply Hwf'; lia. }
  destruct (b =? 139).
  { destruct (Hparse (if hr then rex' else 0) (u_o2 u) (u_o1 u)) as (n & o2 & o1 & Hp).
    rewrite Hp. simpl.
    destruct (parseModRM_copy_pre _ _ _ _ _ _ _ Hp) as (Hp2 & Hp1 & Hn).
    destruct (addBinaryOp_ok c (u64 (f + o)) IT_MOV o1 o2 Hwf Hlt Hp1 Hp2)
      as (c' & i & Hadd & Hwf' & Hc' & Hcap & _).
    rewrite Hadd. simpl. eexists _, _, _, _. split; [reflexivity|].
    repeat split; try assumption; try apply Hwf'; lia. }
  destruct (b =? 1).
  { destruct (Hparse (if hr then rex' else 0) (u_o1 u) (u_o2 u)) as (n & o1 & o2 & Hp).
    rewrite Hp. simpl.
    destruct (parseModRM_copy_pre _ _ _ _ _ _ _ Hp) as (Hp1 & Hp2 & Hn).
    destruct (addBinaryOp_ok c (u64 (f + o)) IT_ADD o1 o2 Hwf Hlt Hp1 Hp2)
      as (c' & i & Hadd & Hwf' & Hc' & Hcap & _).
    rewrite Hadd. simpl. eexists _, _, _, _. split; [reflexivity|].
    repeat split; try assumption; try apply Hwf'; lia. }
  destruct (addSimple_ok c (u64 (f + o)) IT_Invalid Hwf Hlt)
    as (c' & i & Hadd & Hwf' & Hc' & Hcap & _).
  rewrite Hadd. simpl. eexists _, _, _, _. split; [reflexivity|].
  repeat split; try assumption; try apply Hwf'; lia.
Qed.

(** The loop returns when the buffer has a slot for every byte of the
    budget that is left; [max - o] iterations are enough. *)
Lemma decodeLoop_total (max j bj : Z) (fuel : nat) :
  forall (c : Code) (o rex : Z) (rf : bool),
    code_wf c -> 0 <= o ->
    c_count c + (max - o) <= c_capacity c ->
    max - 1 <= j -> j + 7 <= Z.of_nat (length fp) ->
    rd fp j = Ok bj -> isRexPrefix bj = false ->
    (Z.to_nat (max - o) <= fuel)%nat ->
    exists c', decodeLoop u f fp stopAtRet fuel max c o rex rf = Ok c' /\
               code_wf c' /\ c_capacity c' = c_capacity c /\
               c_count c <= c_count c'.
Proof.
  induction fuel as [|fuel IH]; intros c o rex rf Hwf Ho Hroom Hj Hlen Hbj Hnb Hfuel.
  - simpl. replace (o <? max) with false by (symmetry; apply Z.ltb_ge; lia).
    simpl. exists c. repeat split; try apply Hwf; lia.
  - simpl. destruct (Z.ltb_spec o max) as [Hlt | Hge]; simpl.
    + destruct rf; simpl; [exists c; repeat split; try apply Hwf; lia|].
      destruct (decodeInstr_ok c o rex j bj) as (c1 & o1 & rex1 & rf1 & Hstep & Hwf1 & Hc1 & Hcap1 & Ho1);
        try assumption; try lia.
      rewrite Hstep. simpl.
      destruct (Z.ltb_spec o1 max) as [Hlt1 | Hge1].
      * destruct (IH c1 o1 rex1 rf1) as (c' & Hrun & Hwf' & Hcap' & Hcnt');
          try assumption; try lia.
        exists c'. repeat split; try assumption; try apply Hwf'; lia.
      * exists c1. destruct fuel; simpl;
          (replace (o1 <? max) with false by (symmetry; apply Z.ltb_ge; lia));
          simpl; repeat split; try apply Hwf1; lia.
    + exists c. repeat split; try apply Hwf; lia.
Qed.

End DecodeProps.




(** ** Emulator: memory and registers *)

Lemma store_other (n : nat) :
  forall (m : Mem) (a v b : Z), ~ (a <= b < a + Z.of_nat n) -> store n m a v b = m b.
Proof.
  induction n as [|n IH]; intros m a v b Hb; simpl; [reflexivity|].
  rewrite IH by lia. apply fn_lookup_insert_ne. lia.
Qed.

Lemma load_store (n : nat) :
  forall (m : Mem) (a v : Z), load n (store n m a v) a = v mod 256 ^ Z.of_nat n.
Proof.
  induction n as [|n IH]; intros m a v.
  - simpl. symmetry. apply Z.mod_1_r.
  - cbn [load store]. rewrite IH.
    rewrite store_other by lia. rewrite fn_lookup_insert.
    replace (256 ^ Z.of_nat (S n)) with (256 * 256 ^ Z.of_nat n)
      by (rewrite Nat2Z.inj_succ, Z.pow_succ_r by lia; reflexivity).
    assert (Hp : 0 < 256 ^ Z.of_nat n) by (apply Z.pow_pos_nonneg; lia).
    rewrite Z.rem_mul_r by lia. reflexivity.
Qed.

Lemma load_store_4 (m : Mem) (a v : Z) : load 4 (store 4 m a v) a = u32 v.
Proof. apply (load_store 4). Qed.

Lemma load_store_8 (m : Mem) (a v : Z) : load 8 (store 8 m a v) a = u64 v.
Proof. apply (load_store 8). Qed.

Lemma u32_idem (z : Z) : u32 (u32 z) = u32 z.
Proof. unfold u32. apply Z.mod_mod. discriminate. Qed.

Lemma u64_idem (z : Z) : u64 (u64 z) = u64 z.
Proof. unfold u64. apply Z.mod_mod. discriminate. Qed.

Lemma u32_u64 (z : Z) : u32 (u64 z) = u32 z.
Proof.
  unfold u32, u64. apply Z.mod_mod_divide.
  exists (2 ^ 32). reflexivity.
Qed.



Lemma getReg_Ok (es : EmuState) (i v : Z) :
  getReg es i = Ok v <-> 0 <= i /\ reg_at es i = Some v.
Proof.
  unfold getReg, reg_at. destruct (Z.ltb_spec i 0).
  - split; [discriminate | lia].
  - destruct (es_r es !! Z.to_nat i); split.
    + intros [= ->]. split; [lia | reflexivity].
    + intros [_ [= ->]]. reflexivity.
    + discriminate.
    + intros [_ [=]].
Qed.

Lemma setReg_Ok (es es' : EmuState) (i v : Z) :
  setReg es i v = Ok es' ->
  0 <= i < Z.of_nat (length (es_r es)) /\
  es' = mkEmuState (<[Z.to_nat i := v]> (es_r es)) (es_stack_capacity es) (es_stack es).
Proof.
  unfold setReg. destruct (Z.ltb_spec i 0); simpl; [discriminate|].
  destruct (Z.leb_spec (Z.of_nat (length (es_r es))) i); [discriminate|].
  intros [= <-]. split; [lia | reflexivity].
Qed.

Lemma setReg_same (es es' : EmuState) (i v : Z) :
  setReg es i v = Ok es' -> reg_at es' i = Some v /\ getReg es' i = Ok v.
Proof.
  intros H. apply setReg_Ok in H as [Hi ->].
  assert (Hl : reg_at (mkEmuState (<[Z.to_nat i := v]> (es_r es))
                         (es_stack_capacity es) (es_stack es)) i = Some v).
  { unfold reg_at. simpl. apply list_lookup_insert_eq. lia. }
  split; [exact Hl|]. apply getReg_Ok. split; [lia | exact Hl].
Qed.

Lemma setReg_frame (es es' : EmuState) (i v : Z) :
  setReg es i v = Ok es' ->
  es_stack es' = es_stack es /\ es_stack_capacity es' = es_stack_capacity es /\
  regs_same_except [i] es es'.
Proof.
  intros H. apply setReg_Ok in H as [Hi ->]. simpl.
  split; [reflexivity|]. split; [reflexivity|]. split.
  - simpl. apply length_insert.
  - intros k Hk Hne. apply Forall_cons in Hne as [Hne _].
    unfold reg_at. simpl. apply list_lookup_insert_ne. lia.
Qed.


Lemma mem_same_except_store (n : nat) (m : Mem) (a v : Z) :
  mem_same_except a (Z.of_nat n) m (store n m a v).
Proof. intros b Hb. apply store_other. exact Hb. Qed.



(** ** Emulator: writing an operand *)

#[local] Arguments load : simpl never.
#[local] Arguments store : simpl never.
#[local] Arguments u32 : simpl never.
#[local] Arguments u64 : simpl never.

Ltac split_emu H :=
  repeat match type of H with
  | context [getReg ?e ?i] => destruct (getReg e i) eqn:?; simpl in H
  | context [setReg ?e ?i ?v] => destruct (setReg e i v) eqn:?; simpl in H
  | context [getOpAddr ?e ?o] => destruct (getOpAddr e o) eqn:?; simpl in H
  | context [getOpValue ?e ?m ?o] => destruct (getOpValue e m o) eqn:?; simpl in H
  | context [setOpValue ?e ?m ?o ?v] =>
      destruct (setOpValue e m o v) as [[? ?]|] eqn:?; simpl in H
  | context [checkStackAddr ?e] => destruct (checkStackAddr e) as [[]|] eqn:?; simpl in H
  | context [opWidth ?t] => destruct (opWidth t) eqn:?; simpl in H
  | context [assert ?b] => destruct b eqn:?; simpl in H
  end;
  try discriminate H.

Lemma setOpValue_frame es m o v es' m' :
  setOpValue es m o v = Ok (es', m') ->
  es_stack es' = es_stack es /\ es_stack_capacity es' = es_stack_capacity es /\
  if isInd (op_type o)
  then es' = es /\
       exists a, getOpAddr es o = Ok a /\ mem_same_except a (opBytes (op_type o)) m m'
  else m' = m /\ regs_same_except [op_reg o] es es'.
Proof.
  unfold setOpValue. intros H.
  destruct (op_type o) eqn:Ht; simpl in H; try discriminate H;
    split_emu H; injection H as <- <-; simpl.
  - match goal with H : setReg _ _ _ = Ok _ |- _ =>
      destruct (setReg_frame _ _ _ _ H) as (? & ? & ?) end. auto.
  - match goal with H : setReg _ _ _ = Ok _ |- _ =>
      destruct (setReg_frame _ _ _ _ H) as (? & ? & ?) end. auto.
  - repeat split. eexists. split; [reflexivity|]. apply (mem_same_except_store 4).
  - repeat split. eexists. split; [reflexivity|]. apply (mem_same_except_store 8).
Qed.

(** Reading the operand back gives the value, truncated to its width;
    a register holds it in the whole 64-bit slot. *)
Lemma setOpValue_read es m o v es' m' :
  setOpValue es m o v = Ok (es', m') ->
  exists w, opWidth (op_type o) = Ok w /\ (w = 32 \/ w = 64) /\
    getOpValue es' m' o = Ok (v mod 2 ^ w) /\
    (isInd (op_type o) = false -> reg_at es' (op_reg o) = Some (v mod 2 ^ w)).
Proof.
  unfold setOpValue. intros H.
  destruct (op_type o) eqn:Ht; simpl in H; try discriminate H;
    split_emu H; injection H as <- <-; unfold getOpValue; rewrite Ht; simpl.
  - exists 32. split; [reflexivity|]. split; [auto|].
    match goal with H : setReg _ _ _ = Ok _ |- _ =>
      destruct (setReg_same _ _ _ _ H) as [Hat Hget] end.
    rewrite Hget. simpl. rewrite u32_idem, u32_u64 in *. split; [reflexivity|].
    intros _. exact Hat.
  - exists 64. split; [reflexivity|]. split; [auto|].
    match goal with H : setReg _ _ _ = Ok _ |- _ =>
      destruct (setReg_same _ _ _ _ H) as [Hat Hget] end.
    rewrite Hget. split; [reflexivity|]. intros _. exact Hat.
  - exists 32. split; [reflexivity|]. split; [auto|].
    match goal with H : getOpAddr _ _ = Ok _ |- _ => rewrite H end. simpl.
    rewrite load_store_4, u32_idem, u32_u64. split; [reflexivity | discriminate].
  - exists 64. split; [reflexivity|]. split; [auto|].
    match goal with H : getOpAddr _ _ = Ok _ |- _ => rewrite H end. simpl.
    rewrite load_store_8, u64_idem. split; [reflexivity | discriminate].
Qed.

(** ** Emulator: ADD *)



(** ADD on two registers of the same width always runs. *)
Lemma emulate_add_regs_ok es m a dst src t :
  t = OT_Reg32 \/ t = OT_Reg64 ->
  op_type dst = t -> op_type src = t ->
  0 <= op_reg dst < Z.of_nat (length (es_r es)) ->
  0 <= op_reg src < Z.of_nat (length (es_r es)) ->
  exists es', emulateInstr es m (mkInstr a IT_ADD dst src) = Ok (es', m, false).
Proof.
  intros Ht Hd Hs Hrd Hrs.
  destruct (lookup_lt_is_Some_2 (es_r es) (Z.to_nat (op_reg dst))) as [vd Hvd]; [lia|].
  destruct (lookup_lt_is_Some_2 (es_r es) (Z.to_nat (op_reg src))) as [vs Hvs]; [lia|].
  assert (Hgd : getReg es (op_reg dst) = Ok vd) by (apply getReg_Ok; split; [lia|exact Hvd]).
  assert (Hgs : getReg es (op_reg src) = Ok vs) by (apply getReg_Ok; split; [lia|exact Hvs]).
  assert (Hset : forall v, setReg es (op_reg dst) v =
            Ok (mkEmuState (<[Z.to_nat (op_reg dst) := v]> (es_r es))
                           (es_stack_capacity es) (es_stack es))).
  { intros v. unfold setReg.
    replace (op_reg dst <? 0) with false by (symmetry; apply Z.ltb_ge; lia).
    replace (Z.of_nat (length (es_r es)) <=? op_reg dst) with false
      by (symmetry; apply Z.leb_gt; lia).
    reflexivity. }
  unfold emulateInstr, getOpValue, setOpValue. simpl.
  destruct Ht as [-> | ->]; rewrite Hd, Hs; simpl; rewrite Hgs, Hgd; simpl;
    rewrite Hset; simpl; eauto.
Qed.

(** ** Emulator: what a step leaves alone *)



(** ** Emulator: the stack guard *)


Lemma checkStackAddr_spec es sp :
  getReg es Reg_SP = Ok sp ->
  (in_stack es sp -> checkStackAddr es = Ok tt) /\
  (~ in_stack es sp -> checkStackAddr es = Err AssertFail).
Proof.
  intros Hsp. unfold checkStackAddr, in_stack. rewrite Hsp. simpl.
  destruct (Z.geb_spec sp (es_stack es));
    destruct (Z.ltb_spec sp (es_stack es + es_stack_capacity es)); simpl;
    split; intros; try reflexivity; lia.
Qed.





(** An instruction that fails ends the run of the emulator. *)
Lemma emulateLoop_abort instr rest es m e :
  instr2string_chk instr = Ok tt ->
  emulateInstr es m instr = Err e ->
  emulateLoop (instr :: rest) es m = Err e.
Proof. intros Hp He. simpl. rewrite Hp. simpl. rewrite He. reflexivity. Qed.

(** ** A run of decoder and emulator

    The function [push %rbp; mov %rsp,%rbp; mov %edi,%eax; pop %rbp; ret]
    decodes to five instructions, and its emulation returns the low 32
    bits of the first argument. *)
Example identity_function_run :
  let o0 := mkOperand OT_Reg64 Reg_AX 0 0 0 in
  let s0 := mkInstr 0 IT_None o0 o0 in
  let es := mkEmuState (replicate 17 0) 64 4096 in
  exists c es' m',
    decodeFunc (mkIndet 0 o0 o0 o0) 8192
               [0x55; 0x48; 0x89; 0xE5; 0x89; 0xF8; 0x5D; 0xC3] true
               (mkCode 0 8 (replicate 8 s0)) 8 = Ok c /\
    c_count c = 5 /\
    emulate c es (fun _ => 0) [4294967296 + 42; 0; 0; 0; 0] = Ok (42, es', m') /\
    reg_at es' Reg_SP = Some (4096 + 64).
Proof.
  intros o0 s0 es. eexists _, _, _.
  split; [vm_compute; reflexivity|].
  split; [reflexivity|].
  split; vm_compute; reflexivity.
Qed.

(** * Further properties of the code *)

(** ** Code storage: creation and successive allocations *)

Lemma page_round (x : Z) :
  Z.land x (Z.lnot 4095) = 4096 * (x / 4096).
Proof.
  rewrite <- Z.ldiff_land. change 4095 with (Z.ones 12).
  rewrite Z.ldiff_ones_r by lia.
  rewrite Z.shiftl_mul_pow2, Z.shiftr_div_pow2 by lia.
  change (2 ^ 12) with 4096. lia.
Qed.

(** X1.  [initCodeStorage] fails (exit) exactly when [mmap] fails.
    Otherwise the arena has the mapped address, the requested size, and
    a capacity that is the size rounded up to the next multiple of 4096.
    The counter [used] is whatever the fresh struct held: the arena
    invariant holds after creation only if that word is in range. *)
Theorem initCodeStorage_rounds (mmap : Z -> option Z) (used0 size : Z) :
  0 <= size ->
  match mmap (4096 * ((size + 4095) / 4096)) with
  | None => initCodeStorage mmap used0 size = Err ExitFail
  | Some buf =>
      exists cs, initCodeStorage mmap used0 size = Ok cs /\
        cs_buf cs = buf /\ cs_size cs = size /\
        cs_fullsize cs mod 4096 = 0 /\
        size <= cs_fullsize cs < size + 4096 /\
        cs_used cs = used0 /\
        (arena_inv cs <-> 0 <= used0 <= cs_fullsize cs)
  end.
Proof.
  intros Hsize. unfold initCodeStorage. rewrite page_round.
  destruct (mmap (4096 * ((size + 4095) / 4096))) as [buf|]; [|reflexivity].
  eexists. split; [reflexivity|]. simpl.
  split; [reflexivity|]. split; [reflexivity|].
  split; [rewrite Z.mul_comm; apply Z.mod_mul; lia|].
  split.
  - pose proof (Z.div_mod (size + 4095) 4096 ltac:(lia)) as Hdm.
    pose proof (Z.mod_pos_bound (size + 4095) 4096 ltac:(lia)) as Hb. lia.
  - split; [reflexivity|]. unfold arena_inv. simpl. tauto.
Qed.

Lemma initCodeStorage_rounds_witness :
  exists cs, initCodeStorage (fun _ => Some 65536) 7 5000 = Ok cs /\
             cs_fullsize cs = 8192 /\ cs_used cs = 7.
Proof.
  assert (Hsize : 0 <= 5000) by lia.
  pose proof (initCodeStorage_rounds (fun _ => Some 65536) 7 5000 Hsize) as H.
  simpl in H. destruct H as (cs & Hrun & _ & _ & _ & _ & Hu & _).
  exists cs. split; [exact Hrun|]. split; [|exact Hu].
  vm_compute in Hrun. injection Hrun as <-. reflexivity.
Defined.

(** X2.  Two allocations in a row are adjacent and inside the buffer:
    the second starts where the first ends, so they do not overlap; and
    [reserveCodeStorage] before [getCodeStorage] of the same size
    announces the address that [getCodeStorage] then returns. *)
Theorem getCodeStorage_twice (cs cs1 cs2 : CStorage) (s1 s2 p1 p2 : Z) :
  arena_inv cs -> 0 <= s1 -> 0 <= s2 ->
  getCodeStorage cs s1 = Ok (p1, cs1) ->
  getCodeStorage cs1 s2 = Ok (p2, cs2) ->
  reserveCodeStorage cs s1 = Ok (p1, cs) /\
  p2 = p1 + s1 /\
  cs_buf cs <= p1 /\ p2 + s2 <= cs_buf cs + cs_fullsize cs /\
  cs_used cs2 = cs_used cs + s1 + s2 /\ arena_inv cs2.
Proof.
  intros [Hlo Hhi] Hs1 Hs2 H1 H2.
  rewrite getCodeStorage_spec in H1, H2. rewrite reserveCodeStorage_spec.
  destruct (Z.gtb_spec (cs_used cs + s1) (cs_fullsize cs)); [discriminate|].
  injection H1 as <- <-. simpl in H2.
  destruct (Z.gtb_spec (cs_used cs + s1 + s2) (cs_fullsize cs)); [discriminate|].
  injection H2 as <- <-. unfold arena_inv. simpl.
  repeat split; lia.
Qed.

Lemma getCodeStorage_twice_witness :
  let cs := mkCStorage 4096 4096 0 65536 in
  exists cs1 cs2,
    getCodeStorage cs 50 = Ok (65536, cs1) /\
    getCodeStorage cs1 30 = Ok (65586, cs2) /\ cs_used cs2 = 80.
Proof.
  intros cs.
  assert (Hinv : arena_inv cs) by (unfold arena_inv; simpl; lia).
  assert (H1 : getCodeStorage cs 50 = Ok (65536, mkCStorage 4096 4096 50 65536))
    by reflexivity.
  assert (H2 : getCodeStorage (mkCStorage 4096 4096 50 65536) 30 =
               Ok (65586, mkCStorage 4096 4096 80 65536)) by reflexivity.
  eexists _, _. split; [exact H1|]. split; [exact H2|].
  destruct (getCodeStorage_twice cs _ _ 50 30 _ _ Hinv ltac:(lia) ltac:(lia) H1 H2)
    as (_ & _ & _ & _ & Hu & _).
  exact Hu.
Defined.

(** ** Operand copy: what is read, and copies of copies *)

(** [copyOperand] reads the type of the source and the fields that the
    type uses, and nothing else: on two sources that are equal as
    operands it does the same. *)
Lemma copyOperand_reads_used (d s s' : Operand) :
  opIsEqual s s' = true -> copyOperand d s = copyOperand d s'.
Proof.
  unfold opIsEqual. intros H. apply andb_prop in H as [Ht H].
  apply bool_decide_eq_true_1 in Ht. unfold copyOperand. rewrite <- Ht.
  destruct (op_type s); try reflexivity; bool_to_Z;
    repeat match goal with
    | H : _ s = _ s' |- _ => rewrite <- H; clear H
    end; try reflexivity.
  all: destruct (Z.gtb_spec (op_scale s) 0) as [Hp | Hn]; [|reflexivity].
  all: match goal with H : _ \/ _ |- _ => destruct H as [Hs | Hi] end;
    [apply Z.leb_le in Hs; lia | apply Z.eqb_eq in Hi; rewrite Hi; reflexivity].
Qed.

Lemma copyOperand_again (d s d' : Operand) :
  copyOperand d s = Ok d' -> copyOperand d' s = Ok d'.
Proof.
  intros H. pose proof H as H0. split_copy H; injection H as <-;
    unfold copyOperand; simpl;
    repeat match goal with E : op_type s = _ |- _ => rewrite E end; simpl;
    repeat match goal with E : _ = true |- _ => rewrite E end;
    repeat match goal with E : _ = false |- _ => rewrite E end; simpl;
    reflexivity.
Qed.

(** X3.  Copies compose.  Where [copyOperand dst src] returns, copying
    [src] once more into the result changes nothing, the result can
    itself be copied into any operand, and that second copy is equal to
    [src] as an operand and is what a direct copy of [src] gives. *)
Theorem copyOperand_compose (d s d' e : Operand) :
  copyOperand d s = Ok d' ->
  copyOperand d' s = Ok d' /\
  exists e', copyOperand e d' = Ok e' /\
             opIsEqual e' s = true /\
             copyOperand e s = Ok e'.
Proof.
  intros H. split; [apply (copyOperand_again d); exact H|].
  pose proof (copyOperand_equal _ _ _ H) as Heq.
  pose proof (copyOperand_pre _ _ _ H) as Hpre.
  destruct (copyOperand_ok e s Hpre) as [e' He'].
  exists e'. rewrite (copyOperand_reads_used e d' s Heq).
  split; [exact He'|]. split; [eapply copyOperand_equal; exact He' | exact He'].
Qed.

Lemma copyOperand_compose_witness :
  let s := mkOperand OT_Ind64 Reg_BP Reg_CX 16 2 in
  let d := mkOperand OT_Reg32 Reg_AX Reg_DX 7 0 in
  let e := mkOperand OT_None 0 0 0 0 in
  exists d' e', copyOperand d s = Ok d' /\ copyOperand e d' = Ok e' /\
                copyOperand e s = Ok e'.
Proof.
  intros s d e.
  assert (H : copyOperand d s = Ok s) by reflexivity.
  destruct (copyOperand_compose d s s e H) as (_ & e' & H1 & _ & H2).
  exists s, e'. repeat split; assumption.
Defined.

(** X4.  [copyOperand] returns exactly for the six operand types
    Imm32, Imm64, Reg32, Reg64, Ind32, Ind64 whose fields pass its
    assertions; every other operand (any 8 or 16 bit type, [OT_None], a
    register operand on [Reg_None], an Imm32 of 2^32 or more, a positive
    scale other than 1, 2, 4, 8) fails an assertion, whatever the
    destination holds. *)
Theorem copyOperand_defined (d s : Operand) :
  (copy_pre s -> exists d', copyOperand d s = Ok d') /\
  (~ copy_pre s -> copyOperand d s = Err AssertFail).
Proof.
  split; [apply copyOperand_ok|].
  intros Hn. destruct (copyOperand d s) as [d'|e] eqn:H.
  - exfalso. apply Hn. eapply copyOperand_pre. exact H.
  - f_equal. unfold copyOperand in H.
    repeat match type of H with
    | context [match op_type ?s with _ => _ end] => destruct (op_type s); simpl in H
    | context [assert ?b] => destruct b; simpl in H
    | context [if ?b then _ else _] => destruct b; simpl in H
    end; congruence.
Qed.

(** ** The code buffer is append-only *)

Lemma slot_insert_ne (c : Code) (cnt : Z) (n : nat) (s : Instr) (k : Z) :
  0 <= k -> Z.to_nat k <> n ->
  slot (mkCode cnt (c_capacity c) (<[n := s]> (c_instr c))) k = slot c k.
Proof.
  intros Hk Hne. unfold slot. simpl.
  destruct (k <? 0); [reflexivity|]. apply list_lookup_insert_ne. congruence.
Qed.

(** What a successful [nextInstr] followed by writes to the slot did. *)
Lemma add_slot_inv (c c' : Code) (a : Z) (g : Instr -> result Instr) :
  code_wf c ->
  rbind (nextInstr c a) (fun '(c, i) => updSlot c i g) = Ok c' ->
  c_count c < c_capacity c /\
  exists s0 s',
    c_instr c !! Z.to_nat (c_count c) = Some s0 /\
    g (mkInstr a (i_type s0) (i_dst s0) (i_src s0)) = Ok s' /\
    c' = mkCode (c_count c + 1) (c_capacity c)
                (<[Z.to_nat (c_count c) := s']> (c_instr c)).
Proof.
  intros Hwf H. pose proof Hwf as [Hc Hlen].
  destruct (Z.lt_ge_cases (c_count c) (c_capacity c)) as [Hlt | Hge].
  - split; [assumption|].
    destruct (slot_lookup c (c_count c) Hwf ltac:(lia)) as [s0 Hs0].
    assert (E1 : (c_count c <? c_capacity c) = true) by (apply Z.ltb_lt; lia).
    assert (E2 : (c_count c <? 0) = false) by (apply Z.ltb_ge; lia).
    unfold nextInstr, updSlot in H. simpl in H.
    rewrite E1 in H. simpl in H. rewrite E2, Hs0 in H. simpl in H. rewrite E2 in H.
    rewrite list_lookup_insert_eq in H by (apply lookup_lt_Some in Hs0; assumption).
    destruct (g _) as [s'|] eqn:Hg; simpl in H; [|discriminate].
    rewrite list_insert_insert_eq in H. injection H as <-.
    exists s0, s'. repeat split; assumption.
  - rewrite nextInstr_full in H by lia. discriminate.
Qed.

Lemma copyOperand_err (d s : Operand) (e : error) :
  copyOperand d s = Err e -> e = AssertFail.
Proof.
  unfold copyOperand. intros H.
  repeat match type of H with
  | context [match op_type ?s with _ => _ end] => destruct (op_type s); simpl in H
  | context [assert ?b] => destruct b; simpl in H
  | context [if ?b then _ else _] => destruct b; simpl in H
  end; congruence.
Qed.

(** X5.  [addBinaryOp] is defined exactly when the buffer has a free
    slot and both operands pass the assertions of [copyOperand], and
    fails an assertion otherwise.  When it returns, the count has grown
    by one, the capacity is the same, the slot at the old count holds the
    address, the type and operands equal to the two given, and every
    other slot is as before. *)
Theorem addBinaryOp_appends (c : Code) (a : Z) (it : InstrType) (o1 o2 : Operand) :
  code_wf c ->
  (c_count c < c_capacity c /\ copy_pre o1 /\ copy_pre o2 ->
   exists c' i,
     addBinaryOp c a it o1 o2 = Ok c' /\ code_wf c' /\
     c_count c' = c_count c + 1 /\ c_capacity c' = c_capacity c /\
     slot c' (c_count c) = Some i /\
     i_addr i = a /\ i_type i = it /\
     opIsEqual (i_dst i) o1 = true /\ opIsEqual (i_src i) o2 = true /\
     forall k, k <> c_count c -> slot c' k = slot c k) /\
  (~ (c_count c < c_capacity c /\ copy_pre o1 /\ copy_pre o2) ->
   addBinaryOp c a it o1 o2 = Err AssertFail).
Proof.
  intros Hwf. split.
  - intros (Hlt & Hp1 & Hp2).
    destruct (addBinaryOp_ok c a it o1 o2 Hwf Hlt Hp1 Hp2)
      as (c' & i & Hrun & Hwf' & Hcnt & Hcap & Hslot & Hty & Haddr & Hd & Hs).
    exists c', i. repeat split; try assumption; try apply Hwf'.
    intros k Hk. unfold addBinaryOp in Hrun.
    apply add_slot_inv in Hrun as (_ & s0 & s' & _ & _ & ->); [|assumption].
    destruct (Z.ltb_spec k 0) as [Hneg | Hpos].
    + unfold slot. replace (k <? 0) with true by (symmetry; apply Z.ltb_lt; lia).
      reflexivity.
    + apply slot_insert_ne; [assumption|]. destruct Hwf. lia.
  - intros Hn. destruct (addBinaryOp c a it o1 o2) as [c'|e] eqn:H.
    + exfalso. apply Hn. unfold addBinaryOp in H.
      apply add_slot_inv in H as (Hlt & s0 & s' & _ & Hg & _); [|assumption].
      split; [assumption|]. simpl in Hg.
      destruct (copyOperand (i_dst s0) o1) as [d1|] eqn:Hd1; simpl in Hg; [|discriminate].
      destruct (copyOperand (i_src s0) o2) as [d2|] eqn:Hd2; simpl in Hg; [|discriminate].
      split; eapply copyOperand_pre; eassumption.
    + f_equal. destruct (Z.lt_ge_cases (c_count c) (c_capacity c)) as [Hlt | Hge].
      * pose proof Hwf as [Hc Hlen].
        destruct (slot_lookup c (c_count c) Hwf ltac:(lia)) as [s0 Hs0].
        assert (E1 : (c_count c <? c_capacity c) = true) by (apply Z.ltb_lt; lia).
        assert (E2 : (c_count c <? 0) = false) by (apply Z.ltb_ge; lia).
        unfold addBinaryOp, nextInstr, updSlot in H. simpl in H.
        rewrite E1 in H. simpl in H. rewrite E2, Hs0 in H. simpl in H. rewrite E2 in H.
        rewrite list_lookup_insert_eq in H by (apply lookup_lt_Some in Hs0; assumption).
        simpl in H.
        destruct (copyOperand (i_dst s0) o1) as [d1|e1] eqn:Hd1; simpl in H.
        -- destruct (copyOperand (i_src s0) o2) as [d2|e2] eqn:Hd2; simpl in H;
             [discriminate|].
           injection H as <-. eapply copyOperand_err. exact Hd2.
        -- injection H as <-. eapply copyOperand_err. exact Hd1.
      * unfold addBinaryOp in H. rewrite nextInstr_full in H by lia.
        simpl in H. congruence.
Qed.

Lemma addBinaryOp_appends_witness :
  let o0 := mkOperand OT_None 0 0 0 0 in
  let s0 := mkInstr 0 IT_None o0 o0 in
  let c := mkCode 1 2 [s0; s0] in
  let rax := mkOperand OT_Reg64 Reg_AX 0 0 0 in
  let rcx := mkOperand OT_Reg64 Reg_CX 0 0 0 in
  (exists c', addBinaryOp c 4096 IT_MOV rax rcx = Ok c' /\
              c_count c' = 2 /\ slot c' 0 = Some s0) /\
  addBinaryOp c 4096 IT_MOV rax o0 = Err AssertFail.
Proof.
  intros o0 s0 c rax rcx.
  assert (Hwf : code_wf c) by (split; simpl; lia).
  split.
  - destruct (addBinaryOp_appends c 4096 IT_MOV rax rcx Hwf) as [Hok _].
    destruct Hok as (c' & i & Hrun & _ & Hcnt & _ & _ & _ & _ & _ & _ & Hframe).
    { split; [simpl; lia|]. split; cbv; auto. }
    exists c'. split; [exact Hrun|]. split; [exact Hcnt|].
    rewrite Hframe by (simpl; lia). reflexivity.
  - destruct (addBinaryOp_appends c 4096 IT_MOV rax o0 Hwf) as [_ Hfail].
    apply Hfail. intros (_ & _ & Hp). exact Hp.
Defined.

(** ** Decoder: the length of a ModR/M operand *)

Lemma modrm_len_range (modrm : Z) : 1 <= modrm_len modrm <= 6.
Proof.
  unfold modrm_len.
  repeat match goal with |- context [if ?b then _ else _] => destruct b end; lia.
Qed.

(** [parseModRM] on bytes that agree with [p] below the announced length
    does what it does on [p]. *)
Lemma parseModRM_ext (p p' : list Z) (rex modrm : Z) (o1 o2 : Operand) :
  rd p 0 = Ok modrm ->
  (forall k, 0 <= k < modrm_len modrm -> rd p' k = rd p k) ->
  parseModRM p' rex o1 o2 = parseModRM p rex o1 o2.
Proof.
  intros Hm Hext.
  assert (H0 : rd p' 0 = Ok modrm)
    by (rewrite Hext; [exact Hm | pose proof (modrm_len_range modrm); lia]).
  unfold parseModRM. rewrite H0, Hm. simpl.
  fold (modrm_mod modrm) (modrm_rm modrm). unfold modrm_len in Hext.
  destruct (modrm_mod modrm =? 3) eqn:E3; [reflexivity|].
  destruct (modrm_rm modrm =? 4) eqn:E4.
  - rewrite (Hext 1) by (destruct (_ =? 1); [|destruct (_ || _)]; lia).
    destruct (rd p 1) as [sib|]; simpl; [|reflexivity].
    destruct (modrm_mod modrm =? 1) eqn:E1.
    + rewrite !Hext by lia. reflexivity.
    + destruct ((modrm_mod modrm =? 2) || _) eqn:E2; [|reflexivity].
      rewrite !Hext by lia. reflexivity.
  - simpl. destruct (modrm_mod modrm =? 1) eqn:E1.
    + rewrite !Hext by lia. reflexivity.
    + destruct ((modrm_mod modrm =? 2) || _) eqn:E2; [|reflexivity].
      rewrite !Hext by lia. reflexivity.
Qed.

Ltac step_reads p Hin Hout :=
  repeat match goal with
  | |- context [rd p ?k] =>
      let Hk := fresh "Hk" in
      destruct (Z.lt_ge_cases k (Z.of_nat (length p))) as [Hk | Hk];
      [ let b := fresh "b" in
        let Hb := fresh "Hb" in
        destruct (Hin k) as [b Hb]; [lia|]; rewrite Hb; simpl
      | rewrite (Hout k) by lia; simpl; try reflexivity; try lia ]
  end.

Lemma parseModRM_len (p : list Z) (rex modrm : Z) (o1 o2 : Operand) :
  rd p 0 = Ok modrm ->
  (modrm_len modrm <= Z.of_nat (length p) ->
   exists o1' o2', parseModRM p rex o1 o2 = Ok (modrm_len modrm, o1', o2')) /\
  (Z.of_nat (length p) < modrm_len modrm ->
   parseModRM p rex o1 o2 = Err MemFault).
Proof.
  intros Hm.
  assert (Hin : forall k, 0 <= k < Z.of_nat (length p) -> exists b, rd p k = Ok b)
    by (intros; apply rd_in_range; assumption).
  assert (Hout : forall k, Z.of_nat (length p) <= k -> rd p k = Err MemFault).
  { intros k Hk. unfold rd. destruct (k <? 0); [reflexivity|].
    rewrite lookup_ge_None_2 by lia. reflexivity. }
  assert (Hlen1 : 1 <= Z.of_nat (length p))
    by (apply rd_Ok in Hm as [_ Hl]; apply lookup_lt_Some in Hl; lia).
  unfold parseModRM, modrm_len. rewrite Hm. simpl.
  fold (modrm_mod modrm) (modrm_rm modrm).
  destruct (modrm_mod modrm =? 3) eqn:E3.
  { split; [eauto | intros; lia]. }
  destruct (modrm_rm modrm =? 4) eqn:E4;
    destruct (modrm_mod modrm =? 1) eqn:E1;
    try destruct ((modrm_mod modrm =? 2) || _) eqn:E2; simpl; split; intros Hlen;
    step_reads p Hin Hout;
    repeat match goal with
    | |- context [if ?b then _ else _] => destruct b; simpl
    end; eauto; lia.
Qed.

Lemma rd_take_app (p q : list Z) (n : nat) (k : Z) :
  (n <= length p)%nat -> 0 <= k < Z.of_nat n -> rd (take n p ++ q) k = rd p k.
Proof.
  intros Hn Hk. unfold rd. destruct (k <? 0); [reflexivity|].
  rewrite lookup_app_l by (rewrite length_take; lia).
  rewrite lookup_take_lt by lia. reflexivity.
Qed.

(** X6.  The length that [parseModRM] returns is the one that the ModR/M
    byte announces ([modrm_len]: 1 to 6 bytes), and these are the bytes
    it has read: the image holds that many, with fewer bytes the parse
    faults, and whatever follows them has no influence on the result. *)
Theorem parseModRM_length p rex o1 o2 n o1' o2' :
  parseModRM p rex o1 o2 = Ok (n, o1', o2') ->
  exists modrm,
    rd p 0 = Ok modrm /\ n = modrm_len modrm /\ 1 <= n <= 6 /\
    n <= Z.of_nat (length p) /\
    (forall q, parseModRM (take (Z.to_nat n) p ++ q) rex o1 o2 = Ok (n, o1', o2')) /\
    (forall j, (j < Z.to_nat n)%nat -> parseModRM (take j p) rex o1 o2 = Err MemFault).
Proof.
  intros H.
  destruct (rd p 0) as [modrm|] eqn:Hm;
    [|unfold parseModRM in H; rewrite Hm in H; discriminate].
  exists modrm. split; [reflexivity|].
  destruct (parseModRM_len p rex modrm o1 o2 Hm) as [Hok Hfail].
  destruct (Z.lt_ge_cases (Z.of_nat (length p)) (modrm_len modrm)) as [Hlt | Hge];
    [rewrite Hfail in H by assumption; discriminate|].
  destruct (Hok ltac:(lia)) as (a & b & Hrun). rewrite Hrun in H.
  injection H as <- <- <-.
  pose proof (modrm_len_range modrm) as Hr.
  split; [reflexivity|]. split; [assumption|]. split; [lia|]. split.
  - intros q. rewrite <- Hrun. apply (parseModRM_ext p _ rex modrm); [assumption|].
    intros k Hk. apply rd_take_app; lia.
  - intros j Hj. destruct j as [|j].
    + reflexivity.
    + assert (Hm' : rd (take (S j) p) 0 = Ok modrm).
      { apply rd_Ok in Hm as [_ Hl]. apply rd_Ok. split; [lia|].
        rewrite lookup_take_lt by (simpl; lia). exact Hl. }
      destruct (parseModRM_len (take (S j) p) rex modrm o1 o2 Hm') as [_ Hf].
      apply Hf. rewrite length_take. lia.
Qed.

Lemma parseModRM_length_witness :
  let o0 := mkOperand OT_None 0 0 0 0 in
  exists o1 o2,
    parseModRM [0x45; 0xF0; 0x99] 0 o0 o0 = Ok (2, o1, o2) /\
    parseModRM [0x45; 0xF0; 0x01; 0x02] 0 o0 o0 = Ok (2, o1, o2) /\
    parseModRM [0x45] 0 o0 o0 = Err MemFault.
Proof.
  intros o0.
  assert (H : parseModRM [0x45; 0xF0; 0x99] 0 o0 o0 =
              Ok (2, mkOperand OT_Ind32 Reg_BP 0 (2 ^ 64 - 16) 0,
                     mkOperand OT_Reg32 Reg_AX 0 0 0)) by reflexivity.
  destruct (parseModRM_length _ _ _ _ _ _ _ H) as (modrm & _ & _ & _ & _ & Hext & Hshort).
  eexists _, _. split; [exact H|]. split.
  - exact (Hext [0x01; 0x02]).
  - exact (Hshort 1%nat ltac:(simpl; lia)).
Defined.

(** ** Decoder: what one iteration has done *)

Lemma add_slot_appended (c c' : Code) (a : Z) (g : Instr -> result Instr) :
  code_wf c ->
  rbind (nextInstr c a) (fun '(c, i) => updSlot c i g) = Ok c' ->
  exists s0 i,
    c_instr c !! Z.to_nat (c_count c) = Some s0 /\
    g (mkInstr a (i_type s0) (i_dst s0) (i_src s0)) = Ok i /\
    appended c c' i.
Proof.
  intros Hwf H. apply add_slot_inv in H as (Hlt & s0 & s' & Hs0 & Hg & ->); [|assumption].
  exists s0, s'. split; [assumption|]. split; [assumption|].
  split; [apply code_wf_add; assumption|]. split; [assumption|].
  split; [reflexivity|]. split; [reflexivity|].
  split; [apply slot_add; assumption|].
  intros k Hk. destruct (Z.ltb_spec k 0) as [Hneg | Hpos].
  - unfold slot. replace (k <? 0) with true by (symmetry; apply Z.ltb_lt; lia).
    reflexivity.
  - apply slot_insert_ne; [assumption|]. destruct Hwf. lia.
Qed.

Lemma addSimple_inv c a it c' :
  code_wf c -> addSimple c a it = Ok c' ->
  exists i, appended c c' i /\ i_type i = it /\ i_addr i = a.
Proof.
  intros Hwf H. unfold addSimple in H.
  apply add_slot_appended in H as (s0 & i & _ & Hg & Happ); [|assumption].
  injection Hg as <-. exists (mkInstr a it (i_dst s0) (i_src s0)). auto.
Qed.

Lemma addUnaryOp_inv c a it o c' :
  code_wf c -> addUnaryOp c a it o = Ok c' ->
  exists i, appended c c' i /\ i_type i = it /\ i_addr i = a /\
            opIsEqual (i_dst i) o = true.
Proof.
  intros Hwf H. unfold addUnaryOp in H.
  apply add_slot_appended in H as (s0 & i & _ & Hg & Happ); [|assumption].
  simpl in Hg.
  destruct (copyOperand (i_dst s0) o) as [d|] eqn:Hd; simpl in Hg; [|discriminate].
  injection Hg as <-. eexists. split; [exact Happ|]. simpl.
  repeat split. eapply copyOperand_equal; eassumption.
Qed.

Lemma addBinaryOp_inv c a it o1 o2 c' :
  code_wf c -> addBinaryOp c a it o1 o2 = Ok c' ->
  exists i, appended c c' i /\ i_type i = it /\ i_addr i = a /\
            opIsEqual (i_dst i) o1 = true /\ opIsEqual (i_src i) o2 = true.
Proof.
  intros Hwf H. unfold addBinaryOp in H.
  apply add_slot_appended in H as (s0 & i & _ & Hg & Happ); [|assumption].
  simpl in Hg.
  destruct (copyOperand (i_dst s0) o1) as [d1|] eqn:Hd1; simpl in Hg; [|discriminate].
  destruct (copyOperand (i_src s0) o2) as [d2|] eqn:Hd2; simpl in Hg; [|discriminate].
  injection Hg as <-. eexists. split; [exact Happ|]. simpl.
  repeat split; eapply copyOperand_equal; eassumption.
Qed.

Lemma scanPrefixes_inv (bs : list Z) :
  forall (o : Z) (hr : bool) (rex o' rex' : Z) (hr' : bool),
    scanPrefixes bs o hr rex = Ok (o', hr', rex') ->
    o <= o' /\ (hr = true -> hr' = true) /\ (hr' = false -> rex' = rex).
Proof.
  induction bs as [|b bs IH]; intros o hr rex o' rex' hr' H; simpl in H; [discriminate|].
  destruct (isRexPrefix b).
  - apply IH in H as (Ho & Hh & Hr). split; [lia|]. split; [auto|].
    intros E. rewrite Hh in E by reflexivity. discriminate.
  - injection H as <- <- <-. split; [lia|]. auto.
Qed.

Lemma opIsEqual_type (a b : Operand) : opIsEqual a b = true -> op_type a = op_type b.
Proof.
  unfold opIsEqual. intros H. apply andb_prop in H as [Ht _].
  apply bool_decide_eq_true_1 in Ht. exact Ht.
Qed.

Section DecodeInv.
Variable u : Indet.
Variable f : Z.
Variable fp : list Z.
Variable stopAtRet : bool.

(** The cases of the [switch], read back from a successful iteration. *)
Lemma decodeInstr_inv (c c1 : Code) (o rex o1 rex1 : Z) (rf : bool) :
  code_wf c ->
  decodeInstr u f fp stopAtRet c o rex = Ok (c1, o1, rex1, rf) ->
  exists (o' b : Z) (hr : bool) (i : Instr),
    scanPrefixes (drop (Z.to_nat o) fp) o false rex = Ok (o', hr, rex1) /\
    rd fp o' = Ok b /\ o <= o' < o1 /\
    appended c c1 i /\ i_addr i = u64 (f + o) /\
    ((b = 0xc3 /\ i_type i = IT_RET /\ o1 = o' + 1 /\ rf = stopAtRet) \/
     (0x50 <= b <= 0x57 /\ i_type i = IT_PUSH /\ o1 = o' + 1 /\ rf = false /\
      op_type (i_dst i) = OT_Reg64 /\ op_reg (i_dst i) = Reg_AX + (b - 0x50)) \/
     (0x58 <= b <= 0x5F /\ i_type i = IT_POP /\ o1 = o' + 1 /\ rf = false /\
      op_type (i_dst i) = OT_Reg64 /\ op_reg (i_dst i) = Reg_AX + (b - 0x58)) \/
     ((b = 0x89 \/ b = 0x01) /\ i_type i = (if b =? 0x89 then IT_MOV else IT_ADD) /\
      rf = false /\
      exists n rm r,
        parseModRM (drop (Z.to_nat (o' + 1)) fp) (if hr then rex1 else 0)
                   (u_o1 u) (u_o2 u) = Ok (n, rm, r) /\
        o1 = o' + 1 + n /\
        opIsEqual (i_dst i) rm = true /\ opIsEqual (i_src i) r = true) \/
     (b = 0x8B /\ i_type i = IT_MOV /\ rf = false /\
      exists n rm r,
        parseModRM (drop (Z.to_nat (o' + 1)) fp) (if hr then rex1 else 0)
                   (u_o2 u) (u_o1 u) = Ok (n, rm, r) /\
        o1 = o' + 1 + n /\
        opIsEqual (i_dst i) r = true /\ opIsEqual (i_src i) rm = true) \/
     (knownOpcode b = false /\ i_type i = IT_Invalid /\ o1 = o' + 1 /\ rf = false)).
Proof.
  intros Hwf H. unfold decodeInstr in H.
  destruct (scanPrefixes _ o false rex) as [[[o' hr] rex']|] eqn:Hscan; simpl in H;
    [|discriminate].
  destruct (rd fp o') as [b|] eqn:Hb; simpl in H; [|discriminate].
  apply scanPrefixes_inv in Hscan as Hinv. destruct Hinv as (Ho & _ & _).
  destruct (Z.eqb_spec b 195) as [E1 | E1].
  { destruct (addSimple _ _ _) as [cx|] eqn:Hadd; simpl in H; [|discriminate].
    injection H as <- <- <- <-.
    apply addSimple_inv in Hadd as (i & Happ & Hty & Haddr); [|assumption].
    exists o', b, hr, i.
    split; [reflexivity|]. split; [assumption|]. split; [lia|].
    split; [assumption|]. split; [assumption|].
    left. auto. }
  destruct ((80 <=? b) && (b <=? 87)) eqn:E2.
  { bool_to_Z.
    destruct (getRegOp _ _ _) as [op|] eqn:Hop; simpl in H; [|discriminate].
    destruct (addUnaryOp _ _ _ _) as [cx|] eqn:Hadd; simpl in H; [|discriminate].
    injection H as <- <- <- <-.
    apply addUnaryOp_inv in Hadd as (i & Happ & Hty & Haddr & Heq); [|assumption].
    destruct (getRegOp_64_ok (u_regop u) (Reg_AX + (b - 80))) as (op' & Hop' & _ & Ht & Hr);
      [unfold Reg_AX, Reg_None, Reg_Max; lia|].
    rewrite Hop in Hop'. injection Hop' as <-.
    destruct (opIsEqual_reg64 _ _ Heq Ht) as [Ht' Hr'].
    exists o', b, hr, i.
    split; [reflexivity|]. split; [assumption|]. split; [lia|].
    split; [assumption|]. split; [assumption|].
    right. left. repeat split; try assumption; try lia; try congruence. }
  destruct ((88 <=? b) && (b <=? 95)) eqn:E3.
  { bool_to_Z.
    destruct (getRegOp _ _ _) as [op|] eqn:Hop; simpl in H; [|discriminate].
    destruct (addUnaryOp _ _ _ _) as [cx|] eqn:Hadd; simpl in H; [|discriminate].
    injection H as <- <- <- <-.
    apply addUnaryOp_inv in Hadd as (i & Happ & Hty & Haddr & Heq); [|assumption].
    destruct (getRegOp_64_ok (u_regop u) (Reg_AX + (b - 88))) as (op' & Hop' & _ & Ht & Hr);
      [unfold Reg_AX, Reg_None, Reg_Max; lia|].
    rewrite Hop in Hop'. injection Hop' as <-.
    destruct (opIsEqual_reg64 _ _ Heq Ht) as [Ht' Hr'].
    exists o', b, hr, i.
    split; [reflexivity|]. split; [assumption|]. split; [lia|].
    split; [assumption|]. split; [assumption|].
    right. right. left. repeat split; try assumption; try lia; try congruence. }
  destruct (Z.eqb_spec b 137) as [E4 | E4].
  { destruct (parseModRM _ _ _ _) as [[[n rm] r]|] eqn:Hp; simpl in H; [|discriminate].
    destruct (addBinaryOp _ _ _ _ _) as [cx|] eqn:Hadd; simpl in H; [|discriminate].
    injection H as <- <- <- <-.
    apply addBinaryOp_inv in Hadd as (i & Happ & Hty & Haddr & Hd & Hs); [|assumption].
    destruct (parseModRM_copy_pre _ _ _ _ _ _ _ Hp) as (_ & _ & Hn).
    exists o', b, hr, i.
    split; [reflexivity|]. split; [assumption|]. split; [lia|].
    split; [assumption|]. split; [assumption|].
    right. right. right. left. subst b. simpl.
    split; [auto|]. split; [assumption|]. split; [reflexivity|].
    exists n, rm, r. auto. }
  destruct (Z.eqb_spec b 139) as [E5 | E5].
  { destruct (parseModRM _ _ _ _) as [[[n rm] r]|] eqn:Hp; simpl in H; [|discriminate].
    destruct (addBinaryOp _ _ _ _ _) as [cx|] eqn:Hadd; simpl in H; [|discriminate].
    injection H as <- <- <- <-.
    apply addBinaryOp_inv in Hadd as (i & Happ & Hty & Haddr & Hd & Hs); [|assumption].
    destruct (parseModRM_copy_pre _ _ _ _ _ _ _ Hp) as (_ & _ & Hn).
    exists o', b, hr, i.
    split; [reflexivity|]. split; [assumption|]. split; [lia|].
    split; [assumption|]. split; [assumption|].
    right. right. right. right. left.
    split; [assumption|]. split; [assumption|]. split; [reflexivity|].
    exists n, rm, r. auto. }
  destruct (Z.eqb_spec b 1) as [E6 | E6].
  { destruct (parseModRM _ _ _ _) as [[[n rm] r]|] eqn:Hp; simpl in H; [|discriminate].
    destruct (addBinaryOp _ _ _ _ _) as [cx|] eqn:Hadd; simpl in H; [|discriminate].
    injection H as <- <- <- <-.
    apply addBinaryOp_inv in Hadd as (i & Happ & Hty & Haddr & Hd & Hs); [|assumption].
    destruct (parseModRM_copy_pre _ _ _ _ _ _ _ Hp) as (_ & _ & Hn).
    exists o', b, hr, i.
    split; [reflexivity|]. split; [assumption|]. split; [lia|].
    split; [assumption|]. split; [assumption|].
    right. right. right. left. subst b. simpl.
    split; [auto|]. split; [assumption|]. split; [reflexivity|].
    exists n, rm, r. auto. }
  destruct (addSimple _ _ _) as [cx|] eqn:Hadd; simpl in H; [|discriminate].
  injection H as <- <- <- <-.
  apply addSimple_inv in Hadd as (i & Happ & Hty & Haddr); [|assumption].
  exists o', b, hr, i.
    split; [reflexivity|]. split; [assumption|]. split; [lia|].
    split; [assumption|]. split; [assumption|].
  do 5 right. split; [|auto].
  unfold knownOpcode. rewrite E2, E3.
  repeat match goal with
  | Hne : b <> ?x |- _ =>
      replace (b =? x) with false by (symmetry; apply Z.eqb_neq; exact Hne); clear Hne
  end. reflexivity.
Qed.
End DecodeInv.

(** ** Decoder: what the loop has done *)

Section DecodeLoopInv.
Variable u : Indet.
Variable f : Z.
Variable fp : list Z.
Variable stopAtRet : bool.

Lemma decodeLoop_inv (max : Z) (fuel : nat) :
  forall (c c' : Code) (o rex : Z) (rf : bool),
    code_wf c -> 0 <= o ->
    decodeLoop u f fp stopAtRet fuel max c o rex rf = Ok c' ->
    code_wf c' /\ c_capacity c' = c_capacity c /\
    c_count c <= c_count c' <= c_count c + Z.max 0 (max - o) /\
    (forall k, k < c_count c \/ c_count c' <= k -> slot c' k = slot c k) /\
    (forall k, c_count c <= k < c_count c' ->
       exists i off, slot c' k = Some i /\ o <= off < max /\ i_addr i = u64 (f + off)) /\
    (stopAtRet = true ->
     forall k i, c_count c <= k < c_count c' - 1 -> slot c' k = Some i ->
                 i_type i <> IT_RET).
Proof.
  induction fuel as [|fuel IH]; intros c c' o rex rf Hwf Ho H; simpl in H.
  - destruct ((o <? max) && negb rf); [discriminate|]. injection H as <-.
    split; [assumption|]. split; [reflexivity|]. split; [lia|].
    split; [reflexivity|]. split; intros; lia.
  - destruct ((o <? max) && negb rf) eqn:Econd.
    + apply andb_prop in Econd as [Hlt Hrf]. apply Z.ltb_lt in Hlt.
      destruct (decodeInstr u f fp stopAtRet c o rex) as [[[[c1 o1] rex1] rf1]|] eqn:Hstep;
        simpl in H; [|discriminate].
      destruct (decodeInstr_inv u f fp stopAtRet c c1 o rex o1 rex1 rf1 Hwf Hstep)
        as (o' & b & hr & i & _ & _ & Hoo & Happ & Haddr & Hcases).
      destruct Happ as (Hwf1 & Hfree & Hcnt1 & Hcap1 & Hslot1 & Hframe1).
      destruct (IH c1 c' o1 rex1 rf1 Hwf1 ltac:(lia) H)
        as (Hwf' & Hcap' & Hcnt' & Hframe' & Haddrs' & Hret').
      split; [assumption|]. split; [congruence|]. split; [lia|].
      split; [|split].
      * intros k Hk. rewrite Hframe' by lia. apply Hframe1. lia.
      * intros k Hk. destruct (Z.eq_dec k (c_count c)) as [-> | Hne].
        -- exists i, o. rewrite Hframe' by lia. repeat split; try assumption; lia.
        -- destruct (Haddrs' k ltac:(lia)) as (i' & off & Hs & Hoff & Ha).
           exists i', off. repeat split; try assumption; lia.
      * intros Hstop k i' Hk Hs. destruct (Z.eq_dec k (c_count c)) as [-> | Hne].
        -- rewrite Hframe' in Hs by lia. rewrite Hslot1 in Hs. injection Hs as <-.
           assert (Hrf1 : rf1 = false).
           { destruct rf1; [|reflexivity]. exfalso.
             destruct fuel; simpl in H;
               rewrite andb_false_r in H; injection H as <-; lia. }
           destruct Hcases as [(_ & _ & _ & Hr) | [(_ & Ht & _) | [(_ & Ht & _) |
                              [(Hb & Ht & _) | [(_ & Ht & _) | (_ & Ht & _)]]]]].
           ++ congruence.
           ++ congruence.
           ++ congruence.
           ++ rewrite Ht. destruct (b =? 137); discriminate.
           ++ congruence.
           ++ congruence.
        -- apply (Hret' Hstop k i'); [lia | assumption].
    + injection H as <-.
      split; [assumption|]. split; [reflexivity|]. split; [lia|].
      split; [reflexivity|]. split; intros; lia.
Qed.
End DecodeLoopInv.

(** X7.  [decodeFunc] only appends.  When it returns, the capacity is
    the same, at most [max] instructions were added (none for
    [max <= 0]), every slot outside the added range is as before, and
    every added instruction carries the address of a byte inside the
    budget: [f + off] with [0 <= off < max]. *)
Theorem decodeFunc_appends (u : Indet) (f : Z) (fp : list Z) (stopAtRet : bool)
    (c c' : Code) (max : Z) :
  code_wf c ->
  decodeFunc u f fp stopAtRet c max = Ok c' ->
  code_wf c' /\ c_capacity c' = c_capacity c /\
  c_count c <= c_count c' <= c_count c + Z.max 0 max /\
  (forall k, k < c_count c \/ c_count c' <= k -> slot c' k = slot c k) /\
  (forall k, c_count c <= k < c_count c' ->
     exists i off, slot c' k = Some i /\ 0 <= off < max /\ i_addr i = u64 (f + off)).
Proof.
  intros Hwf H. unfold decodeFunc in H.
  destruct (decodeLoop_inv u f fp stopAtRet max _ c c' 0 _ false Hwf ltac:(lia) H)
    as (H1 & H2 & H3 & H4 & H5 & _).
  replace (max - 0) with max in H3 by lia. auto.
Qed.

Lemma decodeFunc_appends_witness :
  let o0 := mkOperand OT_None 0 0 0 0 in
  let s0 := mkInstr 7 IT_NOP o0 o0 in
  let c := mkCode 1 4 [s0; s0; s0; s0] in
  exists c', decodeFunc (mkIndet 0 o0 o0 o0) 4096 [0x55; 0xc3; 0x90] true c 3 = Ok c' /\
             c_count c' = 3 /\ slot c' 0 = Some s0 /\ slot c' 3 = Some s0.
Proof.
  intros o0 s0 c.
  assert (Hwf : code_wf c) by (split; simpl; lia).
  destruct (decodeFunc (mkIndet 0 o0 o0 o0) 4096 [0x55; 0xc3; 0x90] true c 3)
    as [c'|] eqn:Hrun; [|vm_compute in Hrun; discriminate].
  destruct (decodeFunc_appends _ _ _ _ c c' 3 Hwf Hrun) as (_ & _ & _ & Hframe & _).
  assert (Hcnt : c_count c' = 3) by (vm_compute in Hrun; injection Hrun as <-; reflexivity).
  exists c'. split; [reflexivity|]. split; [exact Hcnt|]. split.
  - rewrite Hframe by (simpl; lia). reflexivity.
  - rewrite Hframe by (rewrite Hcnt; lia). reflexivity.
Defined.

(** X8.  With [stopAtRet] set, decoding ends with the first RET: of the
    instructions that [decodeFunc] has added, none but the last is a
    RET. *)
Theorem decodeFunc_stops_at_ret (u : Indet) (f : Z) (fp : list Z)
    (c c' : Code) (max k : Z) (i : Instr) :
  code_wf c ->
  decodeFunc u f fp true c max = Ok c' ->
  c_count c <= k < c_count c' - 1 -> slot c' k = Some i ->
  i_type i <> IT_RET.
Proof.
  intros Hwf H Hk Hs. unfold decodeFunc in H.
  destruct (decodeLoop_inv u f fp true max _ c c' 0 _ false Hwf ltac:(lia) H)
    as (_ & _ & _ & _ & _ & Hret).
  exact (Hret eq_refl k i Hk Hs).
Qed.

Lemma decodeFunc_stops_at_ret_witness :
  let o0 := mkOperand OT_None 0 0 0 0 in
  let s0 := mkInstr 7 IT_NOP o0 o0 in
  let c := mkCode 0 4 [s0; s0; s0; s0] in
  exists c' i, decodeFunc (mkIndet 0 o0 o0 o0) 4096 [0x55; 0xc3; 0xc3; 0xc3] true c 4 = Ok c' /\
               c_count c' = 2 /\ slot c' 0 = Some i /\ i_type i <> IT_RET.
Proof.
  intros o0 s0 c.
  assert (Hwf : code_wf c) by (split; simpl; lia).
  destruct (decodeFunc (mkIndet 0 o0 o0 o0) 4096 [0x55; 0xc3; 0xc3; 0xc3] true c 4)
    as [c'|] eqn:Hrun; [|vm_compute in Hrun; discriminate].
  assert (Hcnt : c_count c' = 2) by (vm_compute in Hrun; injection Hrun as <-; reflexivity).
  destruct (slot c' 0) as [i|] eqn:Hs;
    [|vm_compute in Hrun; injection Hrun as <-; vm_compute in Hs; discriminate].
  exists c', i. split; [reflexivity|]. split; [exact Hcnt|]. split; [exact Hs|].
  apply (decodeFunc_stops_at_ret _ _ _ c c' 4 0 i Hwf Hrun); [simpl; lia | exact Hs].
Defined.

(** ** Decoder: indeterminate values do not reach the result *)

(** Two runs of [parseModRM] on the same bytes, whatever the operand
    objects held before: the same outcome, with equal operands. *)
Lemma parseModRM_indet (p : list Z) (rex : Z) (o1 o2 o1b o2b : Operand) :
  match parseModRM p rex o1 o2, parseModRM p rex o1b o2b with
  | Ok (n, a, b), Ok (n', a', b') =>
      n = n' /\ opIsEqual a a' = true /\ opIsEqual b b' = true
  | Err e, Err e' => e = e'
  | _, _ => False
  end.
Proof.
  unfold parseModRM.
  destruct (rd p 0) as [modrm|]; simpl; [|reflexivity].
  destruct (_ =? 3).
  { destruct (_ && _); destruct (_ && _); simpl;
      (split; [reflexivity|]); split; unfold opIsEqual; simpl;
      rewrite Z.eqb_refl; reflexivity. }
  destruct (Z.land modrm 7 =? 4).
  - destruct (rd p 1) as [sib|]; simpl; [|reflexivity].
    destruct (_ =? 1).
    + destruct (rd p (1 + 1)) as [d|]; simpl; [|reflexivity].
      destruct (Z.eqb_spec (Z.shiftl 1 (Z.shiftr (Z.land sib 192) 6)) 0) as [Ez | Ez];
        repeat match goal with |- context [if ?b then _ else _] => destruct b end;
        (split; [reflexivity|]); split; unfold opIsEqual; simpl;
        rewrite ?Z.eqb_refl; simpl; rewrite ?orb_true_r; try reflexivity;
        rewrite Ez; reflexivity.
    + destruct (_ || _).
      * destruct (rd p (1 + 1)) as [d0|]; simpl; [|reflexivity].
        destruct (rd p (1 + 1 + 1)) as [d1|]; simpl; [|reflexivity].
        destruct (rd p (1 + 1 + 2)) as [d2|]; simpl; [|reflexivity].
        destruct (rd p (1 + 1 + 3)) as [d3|]; simpl; [|reflexivity].
        destruct (Z.eqb_spec (Z.shiftl 1 (Z.shiftr (Z.land sib 192) 6)) 0) as [Ez | Ez];
          repeat match goal with |- context [if ?b then _ else _] => destruct b end;
          (split; [reflexivity|]); split; unfold opIsEqual; simpl;
          rewrite ?Z.eqb_refl; simpl; rewrite ?orb_true_r; try reflexivity;
          rewrite Ez; reflexivity.
      * simpl.
        destruct (Z.eqb_spec (Z.shiftl 1 (Z.shiftr (Z.land sib 192) 6)) 0) as [Ez | Ez];
          repeat match goal with |- context [if ?b then _ else _] => destruct b end;
          (split; [reflexivity|]); split; unfold opIsEqual; simpl;
          rewrite ?Z.eqb_refl; simpl; rewrite ?orb_true_r; try reflexivity;
          rewrite Ez; reflexivity.
  - simpl. destruct (_ =? 1).
    + destruct (rd p 1) as [d|]; simpl; [|reflexivity].
      repeat match goal with |- context [if ?b then _ else _] => destruct b end;
        (split; [reflexivity|]); split; unfold opIsEqual; simpl;
        rewrite ?Z.eqb_refl; reflexivity.
    + destruct (_ || _).
      * destruct (rd p 1) as [d0|]; simpl; [|reflexivity].
        destruct (rd p (1 + 1)) as [d1|]; simpl; [|reflexivity].
        destruct (rd p (1 + 2)) as [d2|]; simpl; [|reflexivity].
        destruct (rd p (1 + 3)) as [d3|]; simpl; [|reflexivity].
        repeat match goal with |- context [if ?b then _ else _] => destruct b end;
          (split; [reflexivity|]); split; unfold opIsEqual; simpl;
          rewrite ?Z.eqb_refl; reflexivity.
      * simpl.
        repeat match goal with |- context [if ?b then _ else _] => destruct b end;
          (split; [reflexivity|]); split; unfold opIsEqual; simpl;
          rewrite ?Z.eqb_refl; reflexivity.
Qed.

Lemma scanPrefixes_indet (bs : list Z) :
  forall (o : Z) (hr : bool) (rex1 rex2 : Z),
    (hr = true -> rex1 = rex2) ->
    match scanPrefixes bs o hr rex1, scanPrefixes bs o hr rex2 with
    | Ok (o1, h1, r1), Ok (o2, h2, r2) => o1 = o2 /\ h1 = h2 /\ (h1 = true -> r1 = r2)
    | Err e, Err e' => e = e'
    | _, _ => False
    end.
Proof.
  induction bs as [|b bs IH]; intros o hr rex1 rex2 Hr; simpl; [reflexivity|].
  destruct (isRexPrefix b).
  - apply IH. reflexivity.
  - auto.
Qed.

Lemma updSlot_ext (c : Code) (k : Z) (g g' : Instr -> result Instr) :
  (forall s, g s = g' s) -> updSlot c k g = updSlot c k g'.
Proof.
  intros H. unfold updSlot. destruct (k <? 0); [reflexivity|].
  destruct (c_instr c !! Z.to_nat k); [|reflexivity]. rewrite H. reflexivity.
Qed.

Lemma addUnaryOp_reads_used c a it (o o' : Operand) :
  opIsEqual o o' = true -> addUnaryOp c a it o = addUnaryOp c a it o'.
Proof.
  intros H. unfold addUnaryOp.
  destruct (nextInstr c a) as [[c1 i]|]; simpl; [|reflexivity].
  apply updSlot_ext. intros s. rewrite (copyOperand_reads_used _ o o' H). reflexivity.
Qed.

Lemma addBinaryOp_reads_used c a it (o1 o1' o2 o2' : Operand) :
  opIsEqual o1 o1' = true -> opIsEqual o2 o2' = true ->
  addBinaryOp c a it o1 o2 = addBinaryOp c a it o1' o2'.
Proof.
  intros H1 H2. unfold addBinaryOp.
  destruct (nextInstr c a) as [[c1 i]|]; simpl; [|reflexivity].
  apply updSlot_ext. intros s.
  rewrite (copyOperand_reads_used _ o1 o1' H1), (copyOperand_reads_used _ o2 o2' H2).
  reflexivity.
Qed.

Lemma getRegOp_indet (o o' : Operand) (w : Z) (r : Reg) :
  match getRegOp o w r, getRegOp o' w r with
  | Ok a, Ok b => opIsEqual a b = true
  | Err e, Err e' => e = e'
  | _, _ => False
  end.
Proof.
  unfold getRegOp.
  destruct (w =? 32); [|destruct (w =? 64)]; try reflexivity;
    destruct (_ && _); simpl; try reflexivity;
    unfold opIsEqual; simpl; apply Z.eqb_refl.
Qed.

Section DecodeIndet.
Variables u u' : Indet.
Variable f : Z.
Variable fp : list Z.
Variable stopAtRet : bool.

Lemma decodeInstr_indet (c : Code) (o rex rex' : Z) :
  match decodeInstr u f fp stopAtRet c o rex, decodeInstr u' f fp stopAtRet c o rex' with
  | Ok (c1, o1, _, rf1), Ok (c2, o2, _, rf2) => c1 = c2 /\ o1 = o2 /\ rf1 = rf2
  | Err e, Err e' => e = e'
  | _, _ => False
  end.
Proof.
  unfold decodeInstr.
  pose proof (scanPrefixes_indet (drop (Z.to_nat o) fp) o false rex rex'
                ltac:(discriminate)) as Hscan.
  destruct (scanPrefixes _ o false rex) as [[[o1 h1] r1]|];
    destruct (scanPrefixes _ o false rex') as [[[o2 h2] r2]|]; simpl;
    try contradiction; [|exact Hscan].
  destruct Hscan as (<- & <- & Hr).
  assert (Hrex : (if h1 then r1 else 0) = (if h1 then r2 else 0))
    by (destruct h1; [apply Hr|]; reflexivity).
  destruct (rd fp o1) as [b|]; simpl; [|reflexivity].
  destruct (b =? 195).
  { destruct (addSimple _ _ _); simpl; auto. }
  destruct ((80 <=? b) && (b <=? 87)).
  { pose proof (getRegOp_indet (u_regop u) (u_regop u') 64 (Reg_AX + (b - 80))) as Hg.
    destruct (getRegOp (u_regop u) _ _) as [op|];
      destruct (getRegOp (u_regop u') _ _) as [op'|]; simpl; try contradiction;
      [|exact Hg].
    rewrite (addUnaryOp_reads_used c _ IT_PUSH op op' Hg).
    destruct (addUnaryOp _ _ _ _); simpl; auto. }
  destruct ((88 <=? b) && (b <=? 95)).
  { pose proof (getRegOp_indet (u_regop u) (u_regop u') 64 (Reg_AX + (b - 88))) as Hg.
    destruct (getRegOp (u_regop u) _ _) as [op|];
      destruct (getRegOp (u_regop u') _ _) as [op'|]; simpl; try contradiction;
      [|exact Hg].
    rewrite (addUnaryOp_reads_used c _ IT_POP op op' Hg).
    destruct (addUnaryOp _ _ _ _); simpl; auto. }
  rewrite <- Hrex.
  destruct (b =? 137).
  { pose proof (parseModRM_indet (drop (Z.to_nat (o1 + 1)) fp) (if h1 then r1 else 0)
                  (u_o1 u) (u_o2 u) (u_o1 u') (u_o2 u')) as Hp.
    destruct (parseModRM _ _ (u_o1 u) (u_o2 u)) as [[[n a] x]|];
      destruct (parseModRM _ _ (u_o1 u') (u_o2 u')) as [[[n' a'] x']|]; simpl;
      try contradiction; [|exact Hp].
    destruct Hp as (<- & Ha & Hx).
    rewrite (addBinaryOp_reads_used c _ IT_MOV a a' x x' Ha Hx).
    destruct (addBinaryOp _ _ _ _ _); simpl; auto. }
  destruct (b =? 139).
  { pose proof (parseModRM_indet (drop (Z.to_nat (o1 + 1)) fp) (if h1 then r1 else 0)
                  (u_o2 u) (u_o1 u) (u_o2 u') (u_o1 u')) as Hp.
    destruct (parseModRM _ _ (u_o2 u) (u_o1 u)) as [[[n a] x]|];
      destruct (parseModRM _ _ (u_o2 u') (u_o1 u')) as [[[n' a'] x']|]; simpl;
      try contradiction; [|exact Hp].
    destruct Hp as (<- & Ha & Hx).
    rewrite (addBinaryOp_reads_used c _ IT_MOV x x' a a' Hx Ha).
    destruct (addBinaryOp _ _ _ _ _); simpl; auto. }
  destruct (b =? 1).
  { pose proof (parseModRM_indet (drop (Z.to_nat (o1 + 1)) fp) (if h1 then r1 else 0)
                  (u_o1 u) (u_o2 u) (u_o1 u') (u_o2 u')) as Hp.
    destruct (parseModRM _ _ (u_o1 u) (u_o2 u)) as [[[n a] x]|];
      destruct (parseModRM _ _ (u_o1 u') (u_o2 u')) as [[[n' a'] x']|]; simpl;
      try contradiction; [|exact Hp].
    destruct Hp as (<- & Ha & Hx).
    rewrite (addBinaryOp_reads_used c _ IT_ADD a a' x x' Ha Hx).
    destruct (addBinaryOp _ _ _ _ _); simpl; auto. }
  destruct (addSimple _ _ _); simpl; auto.
Qed.

Lemma decodeLoop_indet (max : Z) (fuel : nat) :
  forall (c : Code) (o rex rex' : Z) (rf : bool),
    decodeLoop u f fp stopAtRet fuel max c o rex rf =
    decodeLoop u' f fp stopAtRet fuel max c o rex' rf.
Proof.
  induction fuel as [|fuel IH]; intros c o rex rex' rf; simpl; [reflexivity|].
  destruct ((o <? max) && negb rf); [|reflexivity].
  pose proof (decodeInstr_indet c o rex rex') as Hstep.
  destruct (decodeInstr u f fp stopAtRet c o rex) as [[[[c1 o1] r1] rf1]|];
    destruct (decodeInstr u' f fp stopAtRet c o rex') as [[[[c2 o2] r2] rf2]|]; simpl;
    try contradiction; [|congruence].
  destruct Hstep as (<- & <- & <-). apply IH.
Qed.
End DecodeIndet.

(** X9.  The result of [decodeFunc] does not depend on what the objects
    that it leaves uninitialised hold ([rex] before the first prefix, the
    local operands [o1] and [o2], the unwritten fields of the static
    operand of [getRegOp]): with any two such contents the outcome, code
    buffer or failure, is the same. *)
Theorem decodeFunc_indet (u u' : Indet) (f : Z) (fp : list Z) (stopAtRet : bool)
    (c : Code) (max : Z) :
  decodeFunc u f fp stopAtRet c max = decodeFunc u' f fp stopAtRet c max.
Proof. unfold decodeFunc. apply decodeLoop_indet. Qed.

(** ** Decoder and emulator: the instructions that are decoded *)

Lemma copy_pre_equal (a b : Operand) :
  opIsEqual a b = true -> copy_pre b -> copy_pre a.
Proof.
  unfold opIsEqual, copy_pre. intros H Hb. apply andb_prop in H as [Ht H].
  apply bool_decide_eq_true_1 in Ht. rewrite <- Ht in Hb.
  destruct (op_type a); try contradiction; bool_to_Z; try lia; try exact I.
Qed.

(** Both operands of [parseModRM] have the width that REX.W selects. *)
Lemma parseModRM_width p rex o1 o2 n o1' o2' :
  parseModRM p rex o1 o2 = Ok (n, o1', o2') ->
  let w := if (rex >? 0) && rexBit rex REX_MASK_W then 64 else 32 in
  (if w =? 64 then op_type o1' = OT_Reg64 \/ op_type o1' = OT_Ind64
   else op_type o1' = OT_Reg32 \/ op_type o1' = OT_Ind32) /\
  (if w =? 64 then op_type o2' = OT_Reg64 else op_type o2' = OT_Reg32).
Proof.
  unfold parseModRM. intros H.
  destruct ((rex >? 0) && rexBit rex REX_MASK_W); simpl;
    split_parse H; try discriminate; injection H as <- <- <-; simpl; auto.
Qed.

Section DecodedInstrs.
Variable u : Indet.
Variable f : Z.
Variable fp : list Z.
Variable stopAtRet : bool.

Lemma decodeInstr_decoded (c c1 : Code) (o rex o1 rex1 : Z) (rf : bool) (i : Instr) :
  code_wf c ->
  decodeInstr u f fp stopAtRet c o rex = Ok (c1, o1, rex1, rf) ->
  slot c1 (c_count c) = Some i -> decoded_instr i.
Proof.
  intros Hwf H Hs.
  destruct (decodeInstr_inv u f fp stopAtRet c c1 o rex o1 rex1 rf Hwf H)
    as (o' & b & hr & i' & _ & _ & _ & Happ & _ & Hcases).
  destruct Happ as (_ & _ & _ & _ & Hslot & _). rewrite Hslot in Hs. injection Hs as <-.
  unfold decoded_instr.
  destruct Hcases as [(_ & Ht & _) | [(Hb & Ht & _ & _ & Hty & Hr) |
                     [(Hb & Ht & _ & _ & Hty & Hr) |
                     [(Hb & Ht & _ & n & rm & r & Hp & _ & Hd & Hsrc) |
                     [(_ & Ht & _ & n & rm & r & Hp & _ & Hd & Hsrc) | (_ & Ht & _)]]]]].
  - rewrite Ht. exact I.
  - rewrite Ht. split; [assumption|]. unfold Reg_AX, Reg_DI in *. lia.
  - rewrite Ht. split; [assumption|]. unfold Reg_AX, Reg_DI in *. lia.
  - destruct (parseModRM_copy_pre _ _ _ _ _ _ _ Hp) as (Hp1 & Hp2 & _).
    pose proof (parseModRM_width _ _ _ _ _ _ _ Hp) as [Hw1 Hw2]. simpl in Hw1, Hw2.
    assert (Hres : exists w, (w = 32 \/ w = 64) /\
                     reg_or_ind w (i_dst i') /\ reg_or_ind w (i_src i')).
    { unfold reg_or_ind.
      rewrite (opIsEqual_type _ _ Hd), (opIsEqual_type _ _ Hsrc).
      destruct (_ && _) in Hw1, Hw2; simpl in Hw1, Hw2.
      - exists 64. simpl. split; [auto|]. split; (split; [eapply copy_pre_equal; eassumption|]);
          auto.
      - exists 32. simpl. split; [auto|]. split; (split; [eapply copy_pre_equal; eassumption|]);
          auto. }
    rewrite Ht. destruct (b =? 137); exact Hres.
  - destruct (parseModRM_copy_pre _ _ _ _ _ _ _ Hp) as (Hp1 & Hp2 & _).
    pose proof (parseModRM_width _ _ _ _ _ _ _ Hp) as [Hw1 Hw2]. simpl in Hw1, Hw2.
    rewrite Ht. unfold reg_or_ind.
    rewrite (opIsEqual_type _ _ Hd), (opIsEqual_type _ _ Hsrc).
    destruct (_ && _) in Hw1, Hw2; simpl in Hw1, Hw2.
    + exists 64. simpl. split; [auto|]. split; (split; [eapply copy_pre_equal; eassumption|]);
        auto.
    + exists 32. simpl. split; [auto|]. split; (split; [eapply copy_pre_equal; eassumption|]);
        auto.
  - rewrite Ht. exact I.
Qed.

Lemma decodeLoop_decoded (max : Z) (fuel : nat) :
  forall (c c' : Code) (o rex : Z) (rf : bool),
    code_wf c -> 0 <= o ->
    decodeLoop u f fp stopAtRet fuel max c o rex rf = Ok c' ->
    forall k i, c_count c <= k < c_count c' -> slot c' k = Some i -> decoded_instr i.
Proof.
  induction fuel as [|fuel IH]; intros c c' o rex rf Hwf Ho H k i Hk Hs; simpl in H.
  - destruct ((o <? max) && negb rf); [discriminate|]. injection H as <-. lia.
  - destruct ((o <? max) && negb rf); [|injection H as <-; lia].
    destruct (decodeInstr u f fp stopAtRet c o rex) as [[[[c1 o1] rex1] rf1]|] eqn:Hstep;
      simpl in H; [|discriminate].
    destruct (decodeInstr_inv u f fp stopAtRet c c1 o rex o1 rex1 rf1 Hwf Hstep)
      as (o' & b & hr & i' & _ & _ & Hoo & Happ & _ & _).
    destruct Happ as (Hwf1 & _ & Hcnt1 & _ & Hslot1 & _).
    destruct (decodeLoop_inv u f fp stopAtRet max fuel c1 c' o1 rex1 rf1 Hwf1 ltac:(lia) H)
      as (_ & _ & _ & Hframe & _).
    destruct (Z.eq_dec k (c_count c)) as [-> | Hne].
    + rewrite Hframe in Hs by lia.
      exact (decodeInstr_decoded c c1 o rex o1 rex1 rf1 i Hwf Hstep Hs).
    + apply (IH c1 c' o1 rex1 rf1 Hwf1 ltac:(lia) H k i); [lia | assumption].
Qed.
End DecodedInstrs.

(** X10.  Every instruction that [decodeFunc] adds is a RET, an
    [IT_Invalid], a PUSH or POP of a 64-bit register among
    [Reg_AX .. Reg_DI], or a MOV or ADD whose two operands are registers
    or indirect operands of one width, 32 or 64, with fields that pass
    the assertions of [copyOperand].  It never stores another type. *)
Theorem decodeFunc_decoded (u : Indet) (f : Z) (fp : list Z) (stopAtRet : bool)
    (c c' : Code) (max k : Z) (i : Instr) :
  code_wf c ->
  decodeFunc u f fp stopAtRet c max = Ok c' ->
  c_count c <= k < c_count c' -> slot c' k = Some i ->
  decoded_instr i.
Proof.
  intros Hwf H Hk Hs. unfold decodeFunc in H.
  exact (decodeLoop_decoded u f fp stopAtRet max _ c c' 0 _ false Hwf ltac:(lia) H k i Hk Hs).
Qed.

Lemma decodeFunc_decoded_witness :
  let o0 := mkOperand OT_None 0 0 0 0 in
  let s0 := mkInstr 7 IT_NOP o0 o0 in
  let c := mkCode 0 2 [s0; s0] in
  exists c' i, decodeFunc (mkIndet 0 o0 o0 o0) 4096 [0x48; 0x01; 0x45; 0xF8] true c 4 = Ok c' /\
               slot c' 0 = Some i /\ i_type i = IT_ADD /\ decoded_instr i.
Proof.
  intros o0 s0 c.
  assert (Hwf : code_wf c) by (split; simpl; lia).
  destruct (decodeFunc (mkIndet 0 o0 o0 o0) 4096 [0x48; 0x01; 0x45; 0xF8] true c 4)
    as [c'|] eqn:Hrun; [|vm_compute in Hrun; discriminate].
  assert (Hc : c_count c' = 1 /\ exists i, slot c' 0 = Some i /\ i_type i = IT_ADD).
  { vm_compute in Hrun. injection Hrun as <-. split; [reflexivity|].
    eexists. split; reflexivity. }
  destruct Hc as (Hcnt & i & Hs & Ht).
  exists c', i. split; [reflexivity|]. split; [exact Hs|]. split; [exact Ht|].
  apply (decodeFunc_decoded _ _ _ _ c c' 4 0 i Hwf Hrun); [simpl; lia | exact Hs].
Defined.

(** ** Emulator: decoded instructions *)

Lemma getReg_total (es : EmuState) (k : Z) :
  0 <= k < Z.of_nat (length (es_r es)) -> exists v, getReg es k = Ok v.
Proof.
  intros Hk. destruct (lookup_lt_is_Some_2 (es_r es) (Z.to_nat k)) as [v Hv]; [lia|].
  exists v. apply getReg_Ok. split; [lia | exact Hv].
Qed.

Lemma setReg_total (es : EmuState) (k v : Z) :
  0 <= k < Z.of_nat (length (es_r es)) ->
  exists es', setReg es k v = Ok es' /\ length (es_r es') = length (es_r es) /\
              es_stack es' = es_stack es /\ es_stack_capacity es' = es_stack_capacity es /\
              getReg es' k = Ok v.
Proof.
  intros Hk. unfold setReg.
  replace (k <? 0) with false by (symmetry; apply Z.ltb_ge; lia).
  replace (Z.of_nat (length (es_r es)) <=? k) with false by (symmetry; apply Z.leb_gt; lia).
  simpl. eexists. split; [reflexivity|]. simpl. split; [apply length_insert|].
  split; [reflexivity|]. split; [reflexivity|].
  apply getReg_Ok. split; [lia|]. unfold reg_at. simpl.
  apply list_lookup_insert_eq. lia.
Qed.

Lemma getOpAddr_total (es : EmuState) (o : Operand) :
  length (es_r es) = 17%nat -> isInd (op_type o) = true ->
  Reg_None <= op_reg o < Reg_Max ->
  (op_scale o > 0 -> Reg_None <= op_ireg o < Reg_Max) ->
  exists a, getOpAddr es o = Ok a.
Proof.
  intros Hlen Hind Hr Hi. unfold getOpAddr. rewrite Hind. simpl.
  unfold Reg_None, Reg_Max in *.
  destruct (op_reg o =? 0).
  - simpl. destruct (Z.gtb_spec (op_scale o) 0) as [Hp | Hn]; [|eauto].
    destruct (getReg_total es (op_ireg o)) as [v Hv]; [rewrite Hlen; lia|].
    rewrite Hv. simpl. eauto.
  - destruct (getReg_total es (op_reg o)) as [v Hv]; [rewrite Hlen; lia|].
    rewrite Hv. simpl. destruct (Z.gtb_spec (op_scale o) 0) as [Hp | Hn]; [|eauto].
    destruct (getReg_total es (op_ireg o)) as [v' Hv']; [rewrite Hlen; lia|].
    rewrite Hv'. simpl. eauto.
Qed.

Lemma reg_or_ind_cases (w : Z) (o : Operand) :
  (w = 32 \/ w = 64) -> reg_or_ind w o ->
  opWidth (op_type o) = Ok w /\
  ((op_type o = OT_Reg32 \/ op_type o = OT_Reg64) /\ Reg_None < op_reg o < Reg_Max \/
   (op_type o = OT_Ind32 \/ op_type o = OT_Ind64) /\
   Reg_None <= op_reg o < Reg_Max /\
   (op_scale o > 0 -> Reg_None <= op_ireg o < Reg_Max)).
Proof.
  intros Hw [Hpre Ht]. unfold copy_pre in Hpre.
  destruct Hw as [-> | ->]; simpl in Ht; destruct Ht as [Ht | Ht]; rewrite Ht in *; simpl;
    (split; [reflexivity|]).
  - left. auto.
  - right. split; [auto|]. split; [tauto|]. intros Hp. apply Hpre. exact Hp.
  - left. auto.
  - right. split; [auto|]. split; [tauto|]. intros Hp. apply Hpre. exact Hp.
Qed.

Lemma getOpValue_total (es : EmuState) (m : Mem) (w : Z) (o : Operand) :
  length (es_r es) = 17%nat -> (w = 32 \/ w = 64) -> reg_or_ind w o ->
  exists v, getOpValue es m o = Ok v.
Proof.
  intros Hlen Hw Ho. destruct (reg_or_ind_cases w o Hw Ho) as [_ Hc].
  unfold getOpValue, Reg_None, Reg_Max in *.
  destruct Hc as [[Ht Hr] | (Ht & Hr & Hi)].
  - destruct (getReg_total es (op_reg o)) as [v Hv]; [rewrite Hlen; lia|].
    destruct Ht as [-> | ->]; rewrite Hv; simpl; eauto.
  - destruct (getOpAddr_total es o Hlen) as [a Ha];
      [destruct Ht as [-> | ->]; reflexivity | assumption | assumption |].
    destruct Ht as [Ht | Ht]; rewrite Ht; rewrite Ha; simpl; eauto.
Qed.

Lemma setOpValue_total (es : EmuState) (m : Mem) (w : Z) (o : Operand) (v : Z) :
  length (es_r es) = 17%nat -> (w = 32 \/ w = 64) -> reg_or_ind w o ->
  exists es' m', setOpValue es m o v = Ok (es', m').
Proof.
  intros Hlen Hw Ho. destruct (reg_or_ind_cases w o Hw Ho) as [_ Hc].
  unfold setOpValue, Reg_None, Reg_Max in *.
  destruct Hc as [[Ht Hr] | (Ht & Hr & Hi)].
  - destruct Ht as [-> | ->].
    + destruct (setReg_total es (op_reg o) (u32 (u64 v))) as (es' & Hs & _);
        [rewrite Hlen; lia|]. rewrite Hs. simpl. eauto.
    + destruct (setReg_total es (op_reg o) (u64 v)) as (es' & Hs & _);
        [rewrite Hlen; lia|]. rewrite Hs. simpl. eauto.
  - destruct (getOpAddr_total es o Hlen) as [a Ha];
      [destruct Ht as [-> | ->]; reflexivity | assumption | assumption |].
    destruct Ht as [Ht | Ht]; rewrite Ht; rewrite Ha; simpl; eauto.
Qed.

(** X11.  On a state with its 17 registers, the emulator can stop at a
    decoded instruction only in three ways, each a failed assertion: at
    an [IT_Invalid]; at a PUSH whose new stack pointer, or a POP whose
    stack pointer, is not an address of the stack.  Every decoded MOV,
    ADD and RET runs, and so does every PUSH and POP inside the stack. *)
Theorem emulateInstr_decoded (es : EmuState) (m : Mem) (i : Instr) :
  decoded_instr i -> length (es_r es) = 17%nat ->
  exists sp, getReg es Reg_SP = Ok sp /\
  match i_type i with
  | IT_PUSH =>
      (in_stack es (u64 (sp - 8)) -> exists r, emulateInstr es m i = Ok r) /\
      (~ in_stack es (u64 (sp - 8)) -> emulateInstr es m i = Err AssertFail)
  | IT_POP =>
      (in_stack es sp -> exists r, emulateInstr es m i = Ok r) /\
      (~ in_stack es sp -> emulateInstr es m i = Err AssertFail)
  | IT_Invalid => emulateInstr es m i = Err AssertFail
  | _ => exists r, emulateInstr es m i = Ok r
  end.
Proof.
  intros Hd Hlen.
  destruct (getReg_total es Reg_SP) as [sp Hsp]; [rewrite Hlen; unfold Reg_SP; lia|].
  exists sp. split; [exact Hsp|].
  unfold decoded_instr in Hd. unfold emulateInstr.
  destruct (i_type i) eqn:Hty; try contradiction.
  - reflexivity.
  - (* PUSH *)
    destruct Hd as [Ht Hr]. rewrite Ht, Hsp. simpl.
    destruct (setReg_total es Reg_SP (u64 (sp - 8))) as (es1 & Hs1 & Hl1 & Hst & Hcap & Hg1);
      [rewrite Hlen; unfold Reg_SP; lia|].
    rewrite Hs1. simpl.
    destruct (checkStackAddr_spec es1 _ Hg1) as [Hin Hout].
    assert (Hio : in_stack es1 (u64 (sp - 8)) <-> in_stack es (u64 (sp - 8)))
      by (unfold in_stack; rewrite Hst, Hcap; tauto).
    split; intros Hs.
    + rewrite Hin by (apply Hio; exact Hs). simpl. rewrite Hg1. simpl.
      unfold getOpValue. rewrite Ht.
      destruct (getReg_total es1 (op_reg (i_dst i))) as [v Hv];
        [rewrite Hl1, Hlen; unfold Reg_AX, Reg_DI in *; lia|].
      rewrite Hv. simpl. eauto.
    + rewrite Hout by (intros Hx; apply Hs, Hio; exact Hx). reflexivity.
  - (* POP *)
    destruct Hd as [Ht Hr]. rewrite Ht.
    destruct (checkStackAddr_spec es sp Hsp) as [Hin Hout].
    split; intros Hs.
    + rewrite Hin by exact Hs. simpl. rewrite Hsp. simpl.
      unfold setOpValue. rewrite Ht.
      destruct (setReg_total es (op_reg (i_dst i)) (u64 (load 8 m sp)))
        as (es1 & Hs1 & Hl1 & _); [rewrite Hlen; unfold Reg_AX, Reg_DI in *; lia|].
      rewrite Hs1. simpl.
      destruct (getReg_total es1 Reg_SP) as [sp1 Hsp1];
        [rewrite Hl1, Hlen; unfold Reg_SP; lia|].
      rewrite Hsp1. simpl.
      destruct (setReg_total es1 Reg_SP (u64 (sp1 + 8))) as (es2 & Hs2 & _);
        [rewrite Hl1, Hlen; unfold Reg_SP; lia|].
      rewrite Hs2. simpl. eauto.
    + rewrite Hout by exact Hs. reflexivity.
  - (* MOV *)
    destruct Hd as (w & Hw & Hdst & Hsrc).
    destruct (reg_or_ind_cases w _ Hw Hdst) as [Hwd _].
    destruct (getOpValue_total es m w _ Hlen Hw Hsrc) as [vs Hvs].
    destruct Hsrc as [_ Hts]. rewrite Hwd. simpl.
    destruct Hw as [-> | ->]; simpl in Hts; destruct Hts as [Hts | Hts]; rewrite Hts;
      simpl; rewrite Hvs; simpl;
      match goal with
      | Hx : reg_or_ind ?w _ |- context [setOpValue ?e ?mm ?o ?v] =>
        destruct (setOpValue_total e mm w o v Hlen ltac:(lia) Hx) as (es' & m' & Hset);
        rewrite Hset; simpl; eauto
      end.
  - (* ADD *)
    destruct Hd as (w & Hw & Hdst & Hsrc).
    destruct (reg_or_ind_cases w _ Hw Hdst) as [Hwd _].
    destruct (getOpValue_total es m w _ Hlen Hw Hsrc) as [vs Hvs].
    destruct (getOpValue_total es m w _ Hlen Hw Hdst) as [vd Hvd].
    destruct Hsrc as [_ Hts]. rewrite Hwd. simpl.
    destruct Hw as [-> | ->]; simpl in Hts; destruct Hts as [Hts | Hts]; rewrite Hts;
      simpl; rewrite Hvs; simpl; rewrite Hvd; simpl;
      match goal with
      | Hx : reg_or_ind ?w _ |- context [setOpValue ?e ?mm ?o ?v] =>
        destruct (setOpValue_total e mm w o v Hlen ltac:(lia) Hx) as (es' & m' & Hset);
        rewrite Hset; simpl; eauto
      end.
  - (* RET *)
    eauto.
Qed.

Lemma emulateInstr_decoded_witness :
  let es := mkEmuState (<[5%nat := 4096]> (replicate 17 0)) 64 4096 in
  let m : Mem := fun _ => 0 in
  let pop := mkInstr 0 IT_POP (mkOperand OT_Reg64 Reg_BP 0 0 0) (mkOperand OT_None 0 0 0 0) in
  let push := mkInstr 0 IT_PUSH (mkOperand OT_Reg64 Reg_BP 0 0 0) (mkOperand OT_None 0 0 0 0) in
  (exists r, emulateInstr es m pop = Ok r) /\ emulateInstr es m push = Err AssertFail.
Proof.
  intros es m pop push.
  assert (Hlen : length (es_r es) = 17%nat) by reflexivity.
  assert (Hpop : decoded_instr pop) by (split; [reflexivity | cbv; split; discriminate]).
  assert (Hpush : decoded_instr push) by (split; [reflexivity | cbv; split; discriminate]).
  split.
  - destruct (emulateInstr_decoded es m pop Hpop Hlen) as (sp & Hsp & Hin & _).
    injection Hsp as <-. apply Hin. unfold in_stack. simpl. lia.
  - destruct (emulateInstr_decoded es m push Hpush Hlen) as (sp & Hsp & _ & Hout).
    injection Hsp as <-. apply Hout. unfold in_stack. simpl.
    change (u64 (4096 - 8)) with 4088. lia.
Defined.

(** ** Emulator: MOV, and the stack round trip *)

Lemma getReg_setReg_ne (es es' : EmuState) (i k v : Z) :
  setReg es i v = Ok es' -> 0 <= k -> k <> i -> getReg es' k = getReg es k.
Proof.
  intros H Hk Hne. apply setReg_Ok in H as [Hi ->]. unfold getReg. simpl.
  rewrite list_lookup_insert_ne by lia. reflexivity.
Qed.

(** X12.  Wherever the emulator runs MOV, the source had a value [vs],
    the destination has the width of the source, 32 or 64, and afterwards
    the destination reads as [vs mod 2^width]; a register destination
    holds that number in its whole 64-bit slot (a 32-bit MOV clears the
    upper half). *)
Theorem emulate_mov_value es m instr es' m' fr :
  i_type instr = IT_MOV ->
  emulateInstr es m instr = Ok (es', m', fr) ->
  exists vs w,
    getOpValue es m (i_src instr) = Ok vs /\
    opWidth (op_type (i_dst instr)) = Ok w /\ (w = 32 \/ w = 64) /\
    getOpValue es' m' (i_dst instr) = Ok (vs mod 2 ^ w) /\
    (isInd (op_type (i_dst instr)) = false ->
     reg_at es' (op_reg (i_dst instr)) = Some (vs mod 2 ^ w)) /\
    fr = false.
Proof.
  intros Hty H. unfold emulateInstr in H. rewrite Hty in H.
  destruct (op_type (i_src instr)) eqn:Hs; try discriminate H.
  all: destruct (opWidth (op_type (i_dst instr))) as [w|] eqn:Hw; simpl in H;
    [|discriminate H].
  all: destruct (w =? _) eqn:Ew; simpl in H; [|discriminate H]; apply Z.eqb_eq in Ew; subst w.
  all: destruct (getOpValue es m (i_src instr)) as [vs|] eqn:Hvs; simpl in H;
    [|discriminate H].
  all: match type of H with
       | context [setOpValue ?e ?mm ?o ?v] =>
           destruct (setOpValue e mm o v) as [[es1 m1]|] eqn:Hset; simpl in H;
           [|discriminate H]
       end.
  all: injection H as <- <- <-.
  all: destruct (setOpValue_read _ _ _ _ _ _ Hset) as (w' & Hw' & _ & Hget & Hreg).
  all: rewrite Hw in Hw'; injection Hw' as <-.
  all: exists vs; eexists; split; [reflexivity|]; split; [reflexivity|].
  1, 3: split; [left; reflexivity|].
  3, 4: split; [right; reflexivity|].
  1, 2: fold (u32 (u32 vs)) in Hget, Hreg; rewrite u32_idem in Hget, Hreg; auto.
  1, 2: fold (u64 (u64 vs)) in Hget, Hreg; rewrite u64_idem in Hget, Hreg; auto.
Qed.

Lemma emulate_mov_value_witness :
  let es := mkEmuState (<[8%nat := 2 ^ 40 + 5]> (<[1%nat := 2 ^ 63]> (replicate 17 0))) 64 4096 in
  let m : Mem := fun _ => 0 in
  let instr := mkInstr 0 IT_MOV (mkOperand OT_Reg32 Reg_AX 0 0 0)
                                (mkOperand OT_Reg32 Reg_DI 0 0 0) in
  exists es', emulateInstr es m instr = Ok (es', m, false) /\
              reg_at es' Reg_AX = Some 5.
Proof.
  intros es m instr.
  assert (Hty : i_type instr = IT_MOV) by reflexivity.
  assert (Hrun : emulateInstr es m instr =
                 Ok (mkEmuState (<[8%nat := 2 ^ 40 + 5]> (<[1%nat := 5]> (replicate 17 0)))
                                64 4096, m, false)) by reflexivity.
  eexists. split; [exact Hrun|].
  destruct (emulate_mov_value es m instr _ _ _ Hty Hrun)
    as (vs & w & Hvs & Hw & _ & _ & Hreg & _).
  injection Hvs as <-. injection Hw as <-. apply Hreg. reflexivity.
Defined.

(** X13.  PUSH of a register and POP into a register give the value
    back.  Let the state have its 17 registers, let [rs] and [rd] be
    registers other than SP, of the same type, Reg32 or Reg64, and let
    the stack pointer less the operand size be a stack address.  Then
    PUSH [rs] and POP [rd] both run; afterwards [rd] holds the value of
    [rs] (its low 32 bits for Reg32), SP is what it was (modulo 2^64),
    no register but [rd] and SP has changed, and no memory but the
    bytes under the old stack pointer. *)
Theorem push_pop_round_trip (es : EmuState) (m : Mem) (t : OpType) (rs rd sp v : Z)
    (a1 a2 : Z) (x1 x2 y1 y2 : Operand) :
  length (es_r es) = 17%nat ->
  t = OT_Reg32 \/ t = OT_Reg64 ->
  0 <= rs < Reg_Max -> rs <> Reg_SP -> 0 <= rd < Reg_Max -> rd <> Reg_SP ->
  getReg es Reg_SP = Ok sp -> getReg es rs = Ok v ->
  in_stack es (u64 (sp - opBytes t)) ->
  let push := mkInstr a1 IT_PUSH (mkOperand t rs (op_ireg x1) (op_val x1) (op_scale x1)) y1 in
  let pop := mkInstr a2 IT_POP (mkOperand t rd (op_ireg x2) (op_val x2) (op_scale x2)) y2 in
  exists es1 m1 es2,
    emulateInstr es m push = Ok (es1, m1, false) /\
    emulateInstr es1 m1 pop = Ok (es2, m1, false) /\
    getReg es2 rd = Ok (v mod 2 ^ (8 * opBytes t)) /\
    getReg es2 Reg_SP = Ok (u64 sp) /\
    (forall k, 0 <= k -> k <> rd -> k <> Reg_SP -> getReg es2 k = getReg es k) /\
    mem_same_except (u64 (sp - opBytes t)) (opBytes t) m m1.
Proof.
  intros Hlen Ht Hrs Hrs' Hrd Hrd' Hsp Hv Hin push pop.
  unfold Reg_Max, Reg_SP in *.
  set (a := u64 (sp - opBytes t)) in *.
  destruct (setReg_total es 5 a) as (es1 & Hs1 & Hl1 & Hst1 & Hcap1 & Hg1);
    [rewrite Hlen; lia|].
  assert (Hin1 : in_stack es1 a) by (unfold in_stack in *; rewrite Hst1, Hcap1; exact Hin).
  pose proof (proj1 (checkStackAddr_spec es1 a Hg1) Hin1) as Hchk1.
  assert (Hv1 : getReg es1 rs = Ok v)
    by (rewrite (getReg_setReg_ne es es1 5 rs a Hs1) by lia; exact Hv).
  assert (Hlen1 : length (es_r es1) = 17%nat) by congruence.
  destruct Ht as [-> | ->]; simpl in a.
  - (* 32 bit *)
    set (m1 := store 4 m a (u32 (u32 v))).
    destruct (setReg_total es1 rd (u32 (u64 (load 4 m1 a)))) as (es2 & Hs2 & Hl2 & _ & _ & Hg2);
      [rewrite Hlen1; lia|].
    assert (Hsp2 : getReg es2 5 = Ok a)
      by (rewrite (getReg_setReg_ne es1 es2 rd 5 _ Hs2) by lia; exact Hg1).
    destruct (setReg_total es2 5 (u64 (a + 4))) as (es3 & Hs3 & _ & _ & _ & Hg3);
      [rewrite Hl2, Hlen1; lia|].
    exists es1, m1, es3.
    split; [|split; [|split; [|split; [|split]]]].
    + unfold emulateInstr, push. simpl. change Reg_SP with 5. rewrite Hsp. simpl.
      fold a. rewrite Hs1. simpl. rewrite Hchk1. simpl. rewrite Hg1. simpl.
      unfold getOpValue. simpl. rewrite Hv1. reflexivity.
    + unfold emulateInstr, pop. simpl. rewrite Hchk1. simpl.
      change Reg_SP with 5. rewrite Hg1. simpl.
      unfold setOpValue. simpl. rewrite Hs2. simpl. rewrite Hsp2. simpl.
      rewrite Hs3. reflexivity.
    + rewrite (getReg_setReg_ne es2 es3 5 rd _ Hs3) by lia. rewrite Hg2.
      unfold m1. rewrite load_store_4, !u32_idem, u32_u64, !u32_idem. reflexivity.
    + rewrite Hg3. f_equal. unfold a, u64.
      rewrite Zplus_mod_idemp_l. f_equal. lia.
    + intros k Hk Hk1 Hk2.
      rewrite (getReg_setReg_ne es2 es3 5 k _ Hs3) by lia.
      rewrite (getReg_setReg_ne es1 es2 rd k _ Hs2) by lia.
      apply (getReg_setReg_ne es es1 5 k _ Hs1); lia.
    + apply (mem_same_except_store 4).
  - (* 64 bit *)
    set (m1 := store 8 m a (u64 v)).
    destruct (setReg_total es1 rd (u64 (load 8 m1 a))) as (es2 & Hs2 & Hl2 & _ & _ & Hg2);
      [rewrite Hlen1; lia|].
    assert (Hsp2 : getReg es2 5 = Ok a)
      by (rewrite (getReg_setReg_ne es1 es2 rd 5 _ Hs2) by lia; exact Hg1).
    destruct (setReg_total es2 5 (u64 (a + 8))) as (es3 & Hs3 & _ & _ & _ & Hg3);
      [rewrite Hl2, Hlen1; lia|].
    exists es1, m1, es3.
    split; [|split; [|split; [|split; [|split]]]].
    + unfold emulateInstr, push. simpl. change Reg_SP with 5. rewrite Hsp. simpl.
      fold a. rewrite Hs1. simpl. rewrite Hchk1. simpl. rewrite Hg1. simpl.
      unfold getOpValue. simpl. rewrite Hv1. reflexivity.
    + unfold emulateInstr, pop. simpl. rewrite Hchk1. simpl.
      change Reg_SP with 5. rewrite Hg1. simpl.
      unfold setOpValue. simpl. rewrite Hs2. simpl. rewrite Hsp2. simpl.
      rewrite Hs3. reflexivity.
    + rewrite (getReg_setReg_ne es2 es3 5 rd _ Hs3) by lia. rewrite Hg2.
      unfold m1. rewrite load_store_8, !u64_idem. reflexivity.
    + rewrite Hg3. f_equal. unfold a, u64.
      rewrite Zplus_mod_idemp_l. f_equal. lia.
    + intros k Hk Hk1 Hk2.
      rewrite (getReg_setReg_ne es2 es3 5 k _ Hs3) by lia.
      rewrite (getReg_setReg_ne es1 es2 rd k _ Hs2) by lia.
      apply (getReg_setReg_ne es es1 5 k _ Hs1); lia.
    + apply (mem_same_except_store 8).
Qed.

Lemma push_pop_round_trip_witness :
  let es := mkEmuState (<[5%nat := 4160]> (<[8%nat := 77]> (replicate 17 0))) 64 4096 in
  let m : Mem := fun _ => 0 in
  let o0 := mkOperand OT_None 0 0 0 0 in
  exists es1 m1 es2,
    emulateInstr es m (mkInstr 0 IT_PUSH (mkOperand OT_Reg64 Reg_DI 0 0 0) o0)
      = Ok (es1, m1, false) /\
    emulateInstr es1 m1 (mkInstr 1 IT_POP (mkOperand OT_Reg64 Reg_AX 0 0 0) o0)
      = Ok (es2, m1, false) /\
    getReg es2 Reg_AX = Ok 77 /\ getReg es2 Reg_SP = Ok 4160.
Proof.
  intros es m o0.
  destruct (push_pop_round_trip es m OT_Reg64 Reg_DI Reg_AX 4160 77 0 1 o0 o0 o0 o0)
    as (es1 & m1 & es2 & H1 & H2 & H3 & H4 & _);
    try reflexivity; try (unfold Reg_DI, Reg_AX, Reg_SP, Reg_Max; lia); auto.
  { unfold in_stack. simpl. change (u64 (4160 - 8)) with 4152. lia. }
  exists es1, m1, es2. repeat split; assumption.
Defined.

(** ** Emulator: the loop *)

(** X14.  The emulator stops at the first RET it runs: whatever follows
    a RET in the code has no influence on the run. *)
Theorem emulateLoop_stops_at_ret (pre rest : list Instr) (ret : Instr)
    (es : EmuState) (m : Mem) :
  i_type ret = IT_RET ->
  emulateLoop (pre ++ ret :: rest) es m = emulateLoop (pre ++ [ret]) es m.
Proof.
  intros Hret. revert es m. induction pre as [|i pre IH]; intros es m; simpl.
  - unfold instr2string_chk, emulateInstr. rewrite Hret. reflexivity.
  - destruct (instr2string_chk i) as [[]|]; simpl; [|reflexivity].
    destruct (emulateInstr es m i) as [[[es1 m1] fr]|]; simpl; [|reflexivity].
    destruct fr; [reflexivity|]. apply IH.
Qed.

Lemma emulateLoop_stops_at_ret_witness :
  let o0 := mkOperand OT_None 0 0 0 0 in
  let es := mkEmuState (replicate 17 0) 64 4096 in
  let m : Mem := fun _ => 0 in
  emulateLoop [mkInstr 0 IT_RET o0 o0; mkInstr 1 IT_Invalid o0 o0] es m = Ok (es, m).
Proof.
  intros o0 es m.
  exact (eq_trans (emulateLoop_stops_at_ret [] [mkInstr 1 IT_Invalid o0 o0]
                     (mkInstr 0 IT_RET o0 o0) es m eq_refl) eq_refl).
Defined.

(** Registers that an instruction does not write. *)
Lemma Forall_one_ne (x k : Z) : x <> k -> Forall (fun r => r <> k) [x].
Proof. intros H. apply Forall_cons. split; [exact H | constructor]. Qed.

Lemma Forall_two_ne (x y k : Z) : x <> k -> y <> k -> Forall (fun r => r <> k) [x; y].
Proof. intros H1 H2. apply Forall_cons. split; [exact H1 | apply Forall_one_ne; exact H2]. Qed.

Lemma emulateInstr_other_regs es m instr es' m' fr (k : Z) :
  emulateInstr es m instr = Ok (es', m', fr) ->
  0 <= k -> k <> Reg_SP ->
  (isInd (op_type (i_dst instr)) = false -> k <> op_reg (i_dst instr)) ->
  reg_at es' k = reg_at es k.
Proof.
  intros H Hk Hsp Hdst. unfold emulateInstr in H.
  destruct (i_type instr) eqn:Hty; try discriminate H.
  - destruct (op_type (i_dst instr)) eqn:Hd; try discriminate H;
      split_emu H; injection H as <- <- <-;
      match goal with Hs : setReg es Reg_SP _ = Ok _ |- _ =>
        destruct (setReg_frame _ _ _ _ Hs) as (_ & _ & _ & Hregs) end;
      (apply Hregs; [assumption|]); apply Forall_one_ne; congruence.
  - destruct (op_type (i_dst instr)) eqn:Hd; try discriminate H;
      split_emu H; injection H as <- <- <-;
      match goal with Hs : setOpValue es m _ _ = Ok _ |- _ =>
        destruct (setOpValue_frame _ _ _ _ _ _ Hs) as (_ & _ & Hf);
        rewrite Hd in Hf; simpl in Hf; destruct Hf as [_ [_ Hregs1]] end;
      match goal with Hs : setReg _ Reg_SP _ = Ok _ |- _ =>
        destruct (setReg_frame _ _ _ _ Hs) as (_ & _ & _ & Hregs2) end;
      (rewrite Hregs2; [|assumption|apply Forall_one_ne; congruence]);
      (apply Hregs1; [assumption|]); apply Forall_one_ne;
      intros E; (apply Hdst; [reflexivity | congruence]).
  - destruct (op_type (i_src instr)) eqn:Hs; try discriminate H;
      split_emu H; injection H as <- <- <-;
      match goal with Hs : setOpValue es m _ _ = Ok _ |- _ =>
        destruct (setOpValue_frame _ _ _ _ _ _ Hs) as (_ & _ & Hf) end;
      (destruct (isInd (op_type (i_dst instr)));
       [destruct Hf as [-> _]; reflexivity
       |destruct Hf as [_ [_ Hregs]]; (apply Hregs; [assumption|]);
        apply Forall_one_ne; intros E; (apply Hdst; [reflexivity | congruence])]).
  - destruct (op_type (i_src instr)) eqn:Hs; try discriminate H;
      split_emu H; injection H as <- <- <-;
      match goal with Hs : setOpValue es m _ _ = Ok _ |- _ =>
        destruct (setOpValue_frame _ _ _ _ _ _ Hs) as (_ & _ & Hf) end;
      (destruct (isInd (op_type (i_dst instr)));
       [destruct Hf as [-> _]; reflexivity
       |destruct Hf as [_ [_ Hregs]]; (apply Hregs; [assumption|]);
        apply Forall_one_ne; intros E; (apply Hdst; [reflexivity | congruence])]).
  - injection H as <- <- <-. reflexivity.
Qed.

Lemma emulateInstr_keeps_reg_none es m i es' m' fr :
  decoded_instr i -> emulateInstr es m i = Ok (es', m', fr) ->
  reg_at es' Reg_None = reg_at es Reg_None.
Proof.
  intros Hd H. unfold decoded_instr in Hd.
  destruct (i_type i) eqn:Hty; try contradiction.
  - unfold emulateInstr in H. rewrite Hty in H. discriminate.
  - destruct Hd as [Ht Hr].
    apply (emulateInstr_other_regs es m i es' m' fr Reg_None H); try discriminate.
    intros _. unfold Reg_None, Reg_AX in *. lia.
  - destruct Hd as [Ht Hr].
    apply (emulateInstr_other_regs es m i es' m' fr Reg_None H); try discriminate.
    intros _. unfold Reg_None, Reg_AX in *. lia.
  - destruct Hd as (w & Hw & Hdst & _).
    destruct (reg_or_ind_cases w _ Hw Hdst) as [_ [[_ Hr] | [Ht _]]].
    + apply (emulateInstr_other_regs es m i es' m' fr Reg_None H); try discriminate.
      intros _. unfold Reg_None in *. lia.
    + apply (emulateInstr_other_regs es m i es' m' fr Reg_None H); try discriminate.
      intros Hn. destruct Ht as [Ht | Ht]; rewrite Ht in Hn; discriminate.
  - destruct Hd as (w & Hw & Hdst & _).
    destruct (reg_or_ind_cases w _ Hw Hdst) as [_ [[_ Hr] | [Ht _]]].
    + apply (emulateInstr_other_regs es m i es' m' fr Reg_None H); try discriminate.
      intros _. unfold Reg_None in *. lia.
    + apply (emulateInstr_other_regs es m i es' m' fr Reg_None H); try discriminate.
      intros Hn. destruct Ht as [Ht | Ht]; rewrite Ht in Hn; discriminate.
  - unfold emulateInstr in H. rewrite Hty in H. injection H as <- <- <-. reflexivity.
Qed.

Lemma emulateLoop_reg_none (instrs : list Instr) :
  forall (es es' : EmuState) (m m' : Mem),
    Forall decoded_instr instrs ->
    emulateLoop instrs es m = Ok (es', m') ->
    reg_at es' Reg_None = reg_at es Reg_None.
Proof.
  induction instrs as [|i instrs IH]; intros es es' m m' Hall H; simpl in H.
  - injection H as <- <-. reflexivity.
  - apply Forall_cons in Hall as [Hi Hall].
    destruct (instr2string_chk i) as [[]|]; simpl in H; [|discriminate].
    destruct (emulateInstr es m i) as [[[es1 m1] fr]|] eqn:Hstep; simpl in H; [|discriminate].
    pose proof (emulateInstr_keeps_reg_none _ _ _ _ _ _ Hi Hstep) as H1.
    destruct fr.
    + injection H as <- <-. exact H1.
    + rewrite (IH _ _ _ _ Hall H). exact H1.
Qed.

(** X15.  Decoded code never writes the slot [r[Reg_None]] of the
    register array: it is after a run of the emulator loop what it was
    before.  And where it is 0, an indirect operand with index register
    [Reg_None] has the address [val + r[reg]] ([val] for base
    [Reg_None]), whatever its scale. *)
Theorem emulateLoop_keeps_reg_none (instrs : list Instr) (es es' : EmuState)
    (m m' : Mem) :
  Forall decoded_instr instrs ->
  emulateLoop instrs es m = Ok (es', m') ->
  reg_at es' Reg_None = reg_at es Reg_None /\
  (reg_at es' Reg_None = Some 0 ->
   forall o b, isInd (op_type o) = true -> op_ireg o = Reg_None ->
     0 <= op_val o < 2 ^ 64 ->
     getReg es' (op_reg o) = Ok b ->
     getOpAddr es' o = Ok (if op_reg o =? Reg_None then op_val o
                           else u64 (op_val o + b))).
Proof.
  intros Hall H. split; [eapply emulateLoop_reg_none; eassumption|].
  intros H0 o b Hind Hi Hv Hb. unfold getOpAddr. rewrite Hind, Hi. simpl.
  assert (Hg0 : getReg es' Reg_None = Ok 0)
    by (apply getReg_Ok; split; [reflexivity | exact H0]).
  rewrite Hg0. simpl.
  destruct (op_reg o =? Reg_None) eqn:Er; simpl.
  - destruct (op_scale o >? 0); simpl; [|reflexivity].
    rewrite Z.mul_0_r. f_equal. change (u64 0) with 0. rewrite Z.add_0_r.
    apply Z.mod_small. exact Hv.
  - rewrite Hb. simpl. destruct (op_scale o >? 0); simpl; [|reflexivity].
    rewrite Z.mul_0_r. f_equal. change (u64 0) with 0. rewrite Z.add_0_r.
    apply u64_idem.
Qed.

Lemma emulateLoop_keeps_reg_none_witness :
  let es := mkEmuState (<[5%nat := 4104]> (replicate 17 0)) 64 4096 in
  let m : Mem := fun _ => 0 in
  let ind := mkOperand OT_Ind64 Reg_SP Reg_None 0 1 in
  let rax := mkOperand OT_Reg64 Reg_AX 0 0 0 in
  exists es' m', emulateLoop [mkInstr 0 IT_PUSH rax rax] es m = Ok (es', m') /\
                 reg_at es' Reg_None = Some 0 /\ getOpAddr es' ind = Ok 4096.
Proof.
  intros es m ind rax.
  destruct (emulateLoop [mkInstr 0 IT_PUSH rax rax] es m) as [[es' m']|] eqn:Hrun;
    [|vm_compute in Hrun; discriminate].
  assert (Hall : Forall decoded_instr [mkInstr 0 IT_PUSH rax rax]).
  { repeat constructor; cbv; discriminate. }
  destruct (emulateLoop_keeps_reg_none _ es es' m m' Hall Hrun) as [H0 Haddr].
  assert (Hsp : getReg es' Reg_SP = Ok 4096).
  { simpl in Hrun. injection Hrun as <- <-. reflexivity. }
  exists es', m'. split; [reflexivity|]. split; [rewrite H0; reflexivity|].
  apply (Haddr ltac:(rewrite H0; reflexivity) ind 4096); try reflexivity.
  - simpl. lia.
  - exact Hsp.
Defined.


(** ** Emulator: entry *)

Lemma zeroFill_spec (n : nat) :
  forall (m : Mem) (a b : Z),
    zeroFill n m a b = if (a <=? b) && (b <? a + Z.of_nat n) then 0 else m b.
Proof.
  induction n as [|n IH]; intros m a b; cbn [zeroFill].
  - destruct (Z.leb_spec a b); destruct (Z.ltb_spec b (a + Z.of_nat 0)); simpl;
      try reflexivity; lia.
  - rewrite IH.
    destruct (Z.leb_spec (a + 1) b); destruct (Z.ltb_spec b (a + 1 + Z.of_nat n));
      destruct (Z.leb_spec a b); destruct (Z.ltb_spec b (a + Z.of_nat (S n))); simpl;
      try reflexivity; try lia.
    all: try (apply fn_lookup_insert_ne; lia).
    all: assert (a = b) by lia; subst; apply fn_lookup_insert.
Qed.

(** The setup of [emulate]: the six register writes before the loop. *)
Lemma emulate_setup (c : Code) (es : EmuState) (m : Mem) (args : list Z) :
  length (es_r es) = 17%nat ->
  exists es0,
    emulate c es m args =
      (assert (c_count c <=? Z.of_nat (length (c_instr c))) ;;
       '(es1, m1) ← emulateLoop (take (Z.to_nat (c_count c)) (c_instr c)) es0 m;
       v ← getReg es1 Reg_AX;
       Ok (v, es1, m1)) /\
    length (es_r es0) = 17%nat /\
    es_stack es0 = es_stack es /\ es_stack_capacity es0 = es_stack_capacity es /\
    getReg es0 Reg_DI = Ok (u64 (nth 0 args 0)) /\
    getReg es0 Reg_SI = Ok (u64 (nth 1 args 0)) /\
    getReg es0 Reg_DX = Ok (u64 (nth 2 args 0)) /\
    getReg es0 Reg_CX = Ok (u64 (nth 3 args 0)) /\
    getReg es0 Reg_8 = Ok (u64 (nth 4 args 0)) /\
    getReg es0 Reg_SP = Ok (u64 (es_stack es + es_stack_capacity es)) /\
    (forall k, 0 <= k -> k <> Reg_DI -> k <> Reg_SI -> k <> Reg_DX -> k <> Reg_CX ->
               k <> Reg_8 -> k <> Reg_SP -> getReg es0 k = getReg es k).
Proof.
  intros Hlen. unfold Reg_DI, Reg_SI, Reg_DX, Reg_CX, Reg_8, Reg_SP.
  destruct (setReg_total es 8 (u64 (nth 0 args 0))) as (e1 & H1 & L1 & S1 & C1 & G1);
    [rewrite Hlen; lia|].
  destruct (setReg_total e1 7 (u64 (nth 1 args 0))) as (e2 & H2 & L2 & S2 & C2 & G2);
    [rewrite L1, Hlen; lia|].
  destruct (setReg_total e2 3 (u64 (nth 2 args 0))) as (e3 & H3 & L3 & S3 & C3 & G3);
    [rewrite L2, L1, Hlen; lia|].
  destruct (setReg_total e3 2 (u64 (nth 3 args 0))) as (e4 & H4 & L4 & S4 & C4 & G4);
    [rewrite L3, L2, L1, Hlen; lia|].
  destruct (setReg_total e4 9 (u64 (nth 4 args 0))) as (e5 & H5 & L5 & S5 & C5 & G5);
    [rewrite L4, L3, L2, L1, Hlen; lia|].
  destruct (setReg_total e5 5 (u64 (es_stack e5 + es_stack_capacity e5)))
    as (e6 & H6 & L6 & S6 & C6 & G6); [rewrite L5, L4, L3, L2, L1, Hlen; lia|].
  exists e6. split.
  { unfold emulate, Reg_DI, Reg_SI, Reg_DX, Reg_CX, Reg_8, Reg_SP.
    rewrite H1. simpl. rewrite H2. simpl. rewrite H3. simpl. rewrite H4. simpl.
    rewrite H5. simpl. rewrite H6. reflexivity. }
  split; [congruence|]. split; [congruence|]. split; [congruence|].
  split; [rewrite (getReg_setReg_ne e5 e6 5 8 _ H6), (getReg_setReg_ne e4 e5 9 8 _ H5),
            (getReg_setReg_ne e3 e4 2 8 _ H4), (getReg_setReg_ne e2 e3 3 8 _ H3),
            (getReg_setReg_ne e1 e2 7 8 _ H2) by lia; exact G1|].
  split; [rewrite (getReg_setReg_ne e5 e6 5 7 _ H6), (getReg_setReg_ne e4 e5 9 7 _ H5),
            (getReg_setReg_ne e3 e4 2 7 _ H4), (getReg_setReg_ne e2 e3 3 7 _ H3) by lia;
          exact G2|].
  split; [rewrite (getReg_setReg_ne e5 e6 5 3 _ H6), (getReg_setReg_ne e4 e5 9 3 _ H5),
            (getReg_setReg_ne e3 e4 2 3 _ H4) by lia; exact G3|].
  split; [rewrite (getReg_setReg_ne e5 e6 5 2 _ H6), (getReg_setReg_ne e4 e5 9 2 _ H5) by lia;
          exact G4|].
  split; [rewrite (getReg_setReg_ne e5 e6 5 9 _ H6) by lia; exact G5|].
  split; [rewrite G6; do 2 f_equal; congruence|].
  intros k Hk K1 K2 K3 K4 K5 K6.
  rewrite (getReg_setReg_ne e5 e6 5 k _ H6), (getReg_setReg_ne e4 e5 9 k _ H5),
    (getReg_setReg_ne e3 e4 2 k _ H4), (getReg_setReg_ne e2 e3 3 k _ H3),
    (getReg_setReg_ne e1 e2 7 k _ H2), (getReg_setReg_ne es e1 8 k _ H1) by lia.
  reflexivity.
Qed.

(** X16.  [emulate] passes its parameters in the registers of the
    calling convention and returns [rax]: the code
    [mov %r, %rax; ret] with [r] the register of parameter [n] returns
    parameter [n], whatever the emulator state was before. *)
Theorem emulate_returns_argument (c : Code) (es : EmuState) (m : Mem) (args : list Z)
    (n : nat) (r : Reg) (mov ret : Instr) (rest : list Instr) :
  length (es_r es) = 17%nat ->
  argRegs !! n = Some r ->
  c_instr c = mov :: ret :: rest ->
  2 <= c_count c <= Z.of_nat (length (c_instr c)) ->
  i_type mov = IT_MOV ->
  op_type (i_src mov) = OT_Reg64 -> op_reg (i_src mov) = r ->
  op_type (i_dst mov) = OT_Reg64 -> op_reg (i_dst mov) = Reg_AX ->
  i_type ret = IT_RET ->
  exists es', emulate c es m args = Ok (u64 (nth n args 0), es', m).
Proof.
  intros Hlen Hn Hc Hcnt Hmov Hst Hsr Hdt Hdr Hret.
  destruct (emulate_setup c es m args Hlen)
    as (es0 & -> & L0 & _ & _ & GDI & GSI & GDX & GCX & G8 & _ & _).
  replace (c_count c <=? Z.of_nat (length (c_instr c))) with true
    by (symmetry; apply Z.leb_le; lia).
  replace (Z.to_nat (c_count c)) with (S (S (Z.to_nat (c_count c - 2)))) by lia.
  rewrite Hc. cbn [take emulateLoop assert mbind result_bind rbind].
  assert (Hr : getReg es0 r = Ok (u64 (nth n args 0)) /\ Reg_AX <= r <= Reg_15).
  { destruct n as [|[|[|[|[|n]]]]]; simpl in Hn; try discriminate;
      injection Hn as <-; (split; [assumption | unfold Reg_AX, Reg_15; cbv; intuition discriminate]). }
  destruct Hr as [Gr Rr].
  destruct (setReg_total es0 Reg_AX (u64 (nth n args 0))) as (es1 & S1 & _ & _ & _ & G1);
    [rewrite L0; unfold Reg_AX; lia|].
  unfold instr2string_chk, emulateInstr. rewrite Hmov, Hret.
  unfold op2string_chk, getOpValue, setOpValue. rewrite Hst, Hdt, Hsr, Hdr.
  unfold regName_chk.
  replace ((Reg_AX <=? r) && (r <=? Reg_15)) with true
    by (symmetry; apply andb_true_iff; split; apply Z.leb_le; lia).
  simpl. rewrite Gr. simpl. rewrite !u64_idem, S1. simpl. rewrite G1. simpl.
  eexists. reflexivity.
Qed.

Lemma emulate_returns_argument_witness :
  exists es',
    emulate (mkCode 2 2 [mkInstr 0 IT_MOV (mkOperand OT_Reg64 Reg_AX 0 0 0)
                                          (mkOperand OT_Reg64 Reg_SI 0 0 0);
                         mkInstr 3 IT_RET (mkOperand OT_None 0 0 0 0)
                                          (mkOperand OT_None 0 0 0 0)])
            (mkEmuState (replicate 17 0) 64 4096) (fun _ => 0) [5; 2 ^ 64 + 7]
    = Ok (7, es', fun _ => 0).
Proof.
  eapply (emulate_returns_argument _ _ _ [5; 2 ^ 64 + 7] 1%nat Reg_SI);
    try reflexivity; simpl; lia.
Defined.

(** X17.  [emulate] starts with the stack pointer one past the end of
    the stack, so a POP as first instruction fails the assertion of
    [checkStackAddr] (or an assertion before it): the emulation of such
    code never returns. *)
Theorem emulate_pop_first_aborts (c : Code) (es : EmuState) (m : Mem) (args : list Z)
    (pop : Instr) (rest : list Instr) :
  length (es_r es) = 17%nat ->
  0 <= es_stack es + es_stack_capacity es < 2 ^ 64 ->
  c_instr c = pop :: rest ->
  1 <= c_count c <= Z.of_nat (length (c_instr c)) ->
  i_type pop = IT_POP ->
  emulate c es m args = Err AssertFail.
Proof.
  intros Hlen Hrange Hc Hcnt Hpop.
  destruct (emulate_setup c es m args Hlen)
    as (es0 & -> & L0 & S0 & C0 & _ & _ & _ & _ & _ & GSP & _).
  replace (c_count c <=? Z.of_nat (length (c_instr c))) with true
    by (symmetry; apply Z.leb_le; lia).
  replace (Z.to_nat (c_count c)) with (S (Z.to_nat (c_count c - 1))) by lia.
  rewrite Hc. cbn [take emulateLoop assert mbind result_bind rbind].
  destruct (instr2string_chk pop) as [[]|e] eqn:Hp.
  - assert (Hchk : checkStackAddr es0 = Err AssertFail).
    { apply (checkStackAddr_spec es0 _ GSP). unfold in_stack, u64.
      rewrite S0, C0, Z.mod_small by exact Hrange. lia. }
    unfold emulateInstr. rewrite Hpop.
    destruct (op_type (i_dst pop)); try reflexivity; rewrite Hchk; reflexivity.
  - unfold instr2string_chk in Hp. rewrite Hpop in Hp.
    unfold op2string_chk, regName_chk, assert in Hp.
    repeat match type of Hp with
    | context [match ?x with _ => _ end] => destruct x; simpl in Hp; try discriminate
    end; injection Hp as <-; reflexivity.
Qed.

Lemma emulate_pop_first_aborts_witness :
  emulate (mkCode 1 1 [mkInstr 0 IT_POP (mkOperand OT_Reg64 Reg_AX 0 0 0)
                                        (mkOperand OT_None 0 0 0 0)])
          (mkEmuState (replicate 17 0) 64 4096) (fun _ => 0) [] = Err AssertFail.
Proof.
  eapply emulate_pop_first_aborts; try reflexivity; simpl; lia.
Defined.

(** X18.  [emulate] writes the five parameter registers and the stack
    pointer and nothing else before it runs the code: for code that
    starts with RET the result is the value that [rax] had before the
    call, every other register keeps its value too, and memory is
    unchanged. *)
Theorem emulate_ret_first (c : Code) (es : EmuState) (m : Mem) (args : list Z)
    (ret : Instr) (rest : list Instr) (v : Z) :
  length (es_r es) = 17%nat ->
  c_instr c = ret :: rest ->
  1 <= c_count c <= Z.of_nat (length (c_instr c)) ->
  i_type ret = IT_RET ->
  getReg es Reg_AX = Ok v ->
  exists es',
    emulate c es m args = Ok (v, es', m) /\
    Forall2 (fun r a => getReg es' r = Ok (u64 a)) argRegs
            (map (fun k => nth k args 0) (seq 0 5)) /\
    getReg es' Reg_SP = Ok (u64 (es_stack es + es_stack_capacity es)) /\
    (forall k, 0 <= k -> k ∉ argRegs -> k <> Reg_SP -> getReg es' k = getReg es k).
Proof.
  intros Hlen Hc Hcnt Hret Hax.
  destruct (emulate_setup c es m args Hlen)
    as (es0 & -> & L0 & S0 & C0 & GDI & GSI & GDX & GCX & G8 & GSP & Hother).
  replace (c_count c <=? Z.of_nat (length (c_instr c))) with true
    by (symmetry; apply Z.leb_le; lia).
  replace (Z.to_nat (c_count c)) with (S (Z.to_nat (c_count c - 1))) by lia.
  rewrite Hc. cbn [take emulateLoop assert mbind result_bind rbind].
  unfold instr2string_chk, emulateInstr. rewrite Hret. simpl.
  assert (Hk : forall k, 0 <= k -> k ∉ argRegs -> k <> Reg_SP -> getReg es0 k = getReg es k).
  { intros k Hk Hn Hsp. unfold argRegs in Hn.
    apply Hother; try assumption; intros ->; apply Hn;
      apply list_elem_of_In; simpl; tauto. }
  rewrite (Hk Reg_AX), Hax
    by (try rewrite list_elem_of_In; cbv; intuition discriminate).
  simpl. exists es0. split; [reflexivity|].
  split; [repeat constructor; assumption|].
  split; assumption.
Qed.

Lemma emulate_ret_first_witness :
  exists es',
    emulate (mkCode 1 1 [mkInstr 0 IT_RET (mkOperand OT_None 0 0 0 0)
                                          (mkOperand OT_None 0 0 0 0)])
            (mkEmuState (42 :: 11 :: replicate 15 0) 64 4096) (fun _ => 0) [1; 2; 3] = Ok (11, es', fun _ => 0) /\
    getReg es' Reg_DI = Ok 1 /\ getReg es' Reg_8 = Ok 0.
Proof.
  destruct (emulate_ret_first
              (mkCode 1 1 [mkInstr 0 IT_RET (mkOperand OT_None 0 0 0 0)
                                            (mkOperand OT_None 0 0 0 0)])
              (mkEmuState (42 :: 11 :: replicate 15 0) 64 4096) (fun _ => 0) [1; 2; 3]
              _ [] 11 eq_refl eq_refl ltac:(simpl; lia) eq_refl eq_refl)
    as (es' & H & Hargs & _).
  exists es'. split; [exact H|].
  inversion Hargs as [|? ? ? ? HDI Hr1]; subst.
  inversion Hr1 as [|? ? ? ? _ Hr2]; subst.
  inversion Hr2 as [|? ? ? ? _ Hr3]; subst.
  inversion Hr3 as [|? ? ? ? _ Hr4]; subst.
  inversion Hr4 as [|? ? ? ? H8 _]; subst.
  split; [exact HDI | exact H8].
Defined.

(** ** Emulator: initial state *)

Lemma load_zero (n : nat) :
  forall (m : Mem) (a : Z),
    (forall b, a <= b < a + Z.of_nat n -> m b = 0) -> load n m a = 0.
Proof.
  induction n as [|n IH]; intros m a H; [reflexivity|].
  change (load (S n) m a) with (m a + 256 * load n m (a + 1)). rewrite H by lia. rewrite IH; [reflexivity|].
  intros b Hb. apply H. lia.
Qed.

Lemma initEmulatorState_zeroes_aux (stack size : Z) (m : Mem) :
  length (es_r (initEmulatorState stack m size).1) = 17%nat /\
  getReg (initEmulatorState stack m size).1 Reg_None = Ok 0.
Proof.
  split; [reflexivity|]. reflexivity.
Qed.

(** X19.  [initEmulatorState] leaves a state in which all seventeen
    register slots, [r[Reg_None]] included, hold 0 and every byte of the
    stack is 0, so that every load inside the stack gives 0; memory
    outside the stack buffer is not written. *)
Theorem initEmulatorState_zeroes (stack size : Z) (m : Mem) :
  let es := (initEmulatorState stack m size).1 in
  let m' := (initEmulatorState stack m size).2 in
  es_stack es = stack /\ es_stack_capacity es = size /\
  length (es_r es) = 17%nat /\
  (forall k, 0 <= k < Reg_Max -> getReg es k = Ok 0) /\
  (forall (n : nat) (a : Z),
      stack <= a -> a + Z.of_nat n <= stack + size -> load n m' a = 0) /\
  mem_same_except stack size m m'.
Proof.
  cbn zeta. unfold initEmulatorState. cbn [fst snd es_stack es_stack_capacity es_r].
  split; [reflexivity|]. split; [reflexivity|]. split; [reflexivity|].
  split; [|split].
  - intros k Hk. apply getReg_Ok. split; [lia|]. unfold reg_at. cbn [es_r].
    apply lookup_replicate_2. unfold Reg_Max in *. lia.
  - intros n a Ha Hn. apply load_zero. intros b Hb. rewrite zeroFill_spec.
    replace ((stack <=? b) && (b <? stack + Z.of_nat (Z.to_nat size))) with true;
      [reflexivity|].
    symmetry. apply andb_true_iff. split; [apply Z.leb_le | apply Z.ltb_lt]; lia.
  - intros b Hb. rewrite zeroFill_spec.
    destruct (Z.leb_spec stack b); destruct (Z.ltb_spec b (stack + Z.of_nat (Z.to_nat size)));
      simpl; try reflexivity; lia.
Qed.

(** X20.  From the initial state of [initEmulatorState], whatever the
    emulation of decoded code does, [r[Reg_None]] is 0 when [emulate]
    returns: the slot that [getOpAddr] reads for a missing base or index
    register is written by no instruction and not by the setup of
    [emulate]. *)
Theorem emulate_fresh_reg_none (stack size : Z) (m0 : Mem) (c : Code) (args : list Z)
    (v : Z) (es' : EmuState) (m' : Mem) :
  Forall decoded_instr (take (Z.to_nat (c_count c)) (c_instr c)) ->
  emulate c (initEmulatorState stack m0 size).1 (initEmulatorState stack m0 size).2 args
    = Ok (v, es', m') ->
  reg_at es' Reg_None = Some 0.
Proof.
  intros Hdec H.
  destruct (initEmulatorState_zeroes_aux stack size m0) as [Hlen Hz].
  destruct (emulate_setup c _ (initEmulatorState stack m0 size).2 args Hlen)
    as (es0 & E & _ & _ & _ & _ & _ & _ & _ & _ & _ & Hother).
  rewrite E in H. clear E.
  destruct (c_count c <=? Z.of_nat (length (c_instr c))); simpl in H; [|discriminate].
  destruct (emulateLoop _ es0 _) as [[es1 m1]|] eqn:Hloop; simpl in H; [|discriminate].
  destruct (getReg es1 Reg_AX); simpl in H; [|discriminate].
  injection H as _ <- _.
  rewrite (emulateLoop_reg_none _ _ _ _ _ Hdec Hloop).
  assert (G : getReg es0 Reg_None = Ok 0).
  { rewrite Hother by (cbv; intuition discriminate). exact Hz. }
  apply getReg_Ok in G. apply G.
Qed.

Lemma emulate_fresh_reg_none_witness :
  exists v es' m',
    emulate (mkCode 1 1 [mkInstr 0 IT_RET (mkOperand OT_None 0 0 0 0)
                                          (mkOperand OT_None 0 0 0 0)])
            (initEmulatorState 4096 (fun _ => 7) 8).1
            (initEmulatorState 4096 (fun _ => 7) 8).2 [] = Ok (v, es', m') /\
    reg_at es' Reg_None = Some 0.
Proof.
  eexists _, _, _. split; [reflexivity|].
  eapply (emulate_fresh_reg_none 4096 8 (fun _ => 7)
            (mkCode 1 1 [mkInstr 0 IT_RET (mkOperand OT_None 0 0 0 0)
                                          (mkOperand OT_None 0 0 0 0)]) []).
  - repeat constructor.
  - reflexivity.
Defined.

(** ** [spec2] *)

Lemma readBytes_take (fp : list Z) (n : nat) :
  forall o : nat,
    (o + n <= length fp)%nat ->
    readBytes fp (Z.of_nat o) n = Ok (take n (drop o fp)).
Proof.
  induction n as [|n IH]; intros o Hlen; [reflexivity|].
  cbn [readBytes]. unfold rd.
  replace (Z.of_nat o <? 0) with false by (symmetry; apply Z.ltb_ge; lia).
  rewrite Nat2Z.id.
  destruct (fp !! o) as [b|] eqn:Hb; [|apply lookup_ge_None in Hb; lia].
  simpl. replace (Z.of_nat o + 1) with (Z.of_nat (S o)) by lia.
  rewrite IH by lia. simpl.
  rewrite (drop_S fp b o Hb). reflexivity.
Qed.

(** X21.  [spec2] on a function whose bytes can be decoded up to the
    budget of 100: the decoder cannot run out of slots (capacity and
    budget are both 100), and the result is the address [buf + used] of
    the storage with a copy of the first 50 bytes of the function,
    whatever was decoded.  The field [used] was never initialised: when
    what [malloc] left there exceeds 4046, the assertion of
    [getCodeStorage] fails.  ([used0] is taken in the range of [int] in
    which the subtraction of that check does not overflow.) *)
Theorem spec2_copies (u : Indet) (slots : list Instr) (mmap : Z -> option Z)
    (used0 f buf : Z) (fp : list Z) :
  length slots = 100%nat ->
  readable fp 100 ->
  mmap 4096 = Some buf ->
  - 2 ^ 31 + 4096 <= used0 < 2 ^ 31 ->
  spec2 u slots mmap used0 f fp =
    if used0 <=? 4046 then Ok (buf + used0, take 50 fp) else Err AssertFail.
Proof.
  intros Hslots (j & bj & Hj & Hj0 & Hlen & Hbj & Hnb) Hmap _.
  assert (Hrb : readBytes fp 0 50 = Ok (take 50 fp)).
  { rewrite <- (drop_0 fp) at 2. apply (readBytes_take fp 50 0). lia. }
  unfold spec2, decodeFunc. rewrite Hrb.
  destruct (decodeLoop_total u f fp true 100 j bj (Z.to_nat 100)
              (allocCode slots 100) 0 (u_rex u) false)
    as (c' & -> & _); try assumption; try lia.
  { split; [simpl; lia | simpl; rewrite Hslots; reflexivity]. }
  { simpl. lia. }
  simpl. unfold initCodeStorage.
  change (Z.land (4096 + 4095) (Z.lnot 4095)) with 4096. rewrite Hmap. simpl.
  unfold getCodeStorage. cbn [cs_fullsize cs_used cs_buf cs_size].
  destruct (Z.leb_spec used0 4046); destruct (Z.geb_spec (4096 - used0) 50);
    try lia; reflexivity.
Qed.

Lemma spec2_copies_witness :
  spec2 (mkIndet 0 (mkOperand OT_None 0 0 0 0) (mkOperand OT_None 0 0 0 0)
                 (mkOperand OT_None 0 0 0 0))
        (replicate 100 (mkInstr 0 IT_None (mkOperand OT_None 0 0 0 0)
                                          (mkOperand OT_None 0 0 0 0)))
        (fun _ => Some 65536) 16 4198400 (195 :: replicate 110 144)
  = Ok (65552, 195 :: replicate 49 144).
Proof.
  assert (Hr : readable (195 :: replicate 110 144) 100).
  { exists 99, 144. repeat split; try reflexivity; simpl; lia. }
  apply (spec2_copies
           (mkIndet 0 (mkOperand OT_None 0 0 0 0) (mkOperand OT_None 0 0 0 0)
                    (mkOperand OT_None 0 0 0 0))
           (replicate 100 (mkInstr 0 IT_None (mkOperand OT_None 0 0 0 0)
                                             (mkOperand OT_None 0 0 0 0)))
           (fun _ => Some 65536) 16 4198400 65536 (195 :: replicate 110 144)
           eq_refl Hr eq_refl).
  split; [intro H; discriminate H | reflexivity].
Defined.
